(** * Manifold geometry kernel: structs.h and the mesh exporter

    A shallow embedding of [src/utilities/include/structs.h] (Signum, CCW,
    sind/cosd, MeshRelation::UVW, Box) and of [ExportMesh] from the mesh
    I/O translation unit.

    The C++ type [float] is IEEE-754 binary32.  It is modelled by the
    Standard Library's [spec_float] at precision 24 and maximal exponent
    128, with the library's correctly rounded operations, so every
    definition below evaluates on concrete inputs.  A value of
    [spec_float] is a binary32 number when [is_float32] holds; what is
    proved for every [float] holds for the binary32 numbers in particular,
    monotonicity of the arithmetic is proved for binary32 numbers, and the
    counterexamples are binary32 numbers.  [int] is modelled by [Z]; the
    code never leaves the 32-bit range on the paths studied. *)

From Stdlib Require Import ZArith Bool List Lia String Ascii.
From Stdlib Require Import SpecFloat.
Import ListNotations.
Local Open Scope Z_scope.

(** ** IEEE-754 binary32 *)

Module F32.

Definition prec : Z := 24.
Definition emax : Z := 128.

Definition float : Type := spec_float.

Definition is_float32 (x : float) : bool := valid_binary prec emax x.

Definition fadd : float -> float -> float := SFadd prec emax.
Definition fsub : float -> float -> float := SFsub prec emax.
Definition fmul : float -> float -> float := SFmul prec emax.
Definition fdiv : float -> float -> float := SFdiv prec emax.
Definition fneg : float -> float := SFopp.
Definition fabs : float -> float := SFabs.

(** The comparison operators of C++ on floats: every comparison with a
    NaN is false. *)
Definition flt (x y : float) : bool := SFltb x y.
Definition fle (x y : float) : bool := SFleb x y.
Definition feq (x y : float) : bool := SFeqb x y.
Definition fgt (x y : float) : bool := flt y x.
Definition fge (x y : float) : bool := fle y x.

(** Integer literals and exactly representable integers. *)
Definition of_Z (z : Z) : float := binary_normalize prec emax z 0 false.

Definition f0 : float := S754_zero false.
Definition f1 : float := Eval cbv in of_Z 1.
Definition finf : float := S754_infinity false.
Definition fninf : float := S754_infinity true.
Definition fnan : float := S754_nan.

Definition is_nan (x : float) : bool :=
  match x with S754_nan => true | _ => false end.

Definition is_zero (x : float) : bool :=
  match x with S754_zero _ => true | _ => false end.

(** [std::isfinite]. *)
Definition isfinite (x : float) : bool :=
  match x with S754_zero _ | S754_finite _ _ _ => true | _ => false end.

(** The sign bit of a number; [false] for a NaN. *)
Definition sign_bit (x : float) : bool :=
  match x with
  | S754_zero s | S754_infinity s | S754_finite s _ _ => s
  | S754_nan => false
  end.

(** *** The order of [SFcompare] as a lexicographic order on keys

    Away from NaN, [SFcompare] orders numbers by class and sign first,
    then by exponent, then by mantissa.  Both zeros share one key. *)

Definition k1 (x : float) : Z :=
  match x with
  | S754_nan | S754_zero _ => 0
  | S754_infinity false => 2
  | S754_infinity true => -2
  | S754_finite false _ _ => 1
  | S754_finite true _ _ => -1
  end.

Definition k2 (x : float) : Z :=
  match x with
  | S754_finite false _ e => e
  | S754_finite true _ e => - e
  | _ => 0
  end.

Definition k3 (x : float) : Z :=
  match x with
  | S754_finite false m _ => Zpos m
  | S754_finite true m _ => Zneg m
  | _ => 0
  end.

Definition key_lt (x y : float) : Prop :=
  k1 x < k1 y
  \/ (k1 x = k1 y /\ (k2 x < k2 y \/ (k2 x = k2 y /\ k3 x < k3 y))).

Definition key_eq (x y : float) : Prop :=
  k1 x = k1 y /\ k2 x = k2 y /\ k3 x = k3 y.

Definition key_le (x y : float) : Prop := key_lt x y \/ key_eq x y.

(** Not a NaN. *)
Definition num (x : float) : Prop := is_nan x = false.

(** A number whose sign bit is [s]. *)
Definition signed (s : bool) (x : float) : Prop :=
  num x /\ sign_bit x = s.

(** Equal, or both a zero: what no comparison can tell apart. *)
Definition fequiv (x y : float) : Prop :=
  x = y \/ (is_zero x = true /\ is_zero y = true).

(** *** Exact views used by the C library model *)

(** Nearest integer to [a / b] for [0 <= a] and [0 < b], ties to even. *)
Definition div_nearest_even (a b : Z) : Z :=
  let q := Z.quot a b in
  let r := a - q * b in
  match Z.compare (2 * r) b with
  | Lt => q
  | Gt => q + 1
  | Eq => if Z.even q then q else q + 1
  end.

(** [remquo] of the C library (C11 7.12.10.3, IEEE-754 remainder): with
    [n] the integer nearest to the exact quotient [x / y] (ties to even),
    the result is [x - n * y], which is exact; [quo] has the sign of
    [x / y] and a magnitude congruent to [|n|] modulo [2^3], the number of
    low bits every implementation has to provide. *)
Definition remquo (x y : float) : float * Z :=
  match x, y with
  | S754_nan, _ | _, S754_nan => (S754_nan, 0)
  | S754_infinity _, _ | _, S754_zero _ => (S754_nan, 0)
  | _, S754_infinity _ => (x, 0)
  | S754_zero _, S754_finite _ _ _ => (x, 0)
  | S754_finite sx mx ex, S754_finite sy my ey =>
      let e0 := Z.min ex ey in
      let X := Zpos mx * 2 ^ (ex - e0) in
      let Y := Zpos my * 2 ^ (ey - e0) in
      let n := div_nearest_even X Y in
      let r := cond_Zopp sx (X - n * Y) in
      (binary_normalize prec emax r e0 sx, cond_Zopp (xorb sx sy) (n mod 8))
  end.

End F32.

(** ** The rounding of [SFadd] and [SFmul] as integer arithmetic

    The definitions below describe, with integer division, what
    [binary_round_aux] computes on an exact input; the properties relate
    them to the library's definitions. *)

Module Rounding.
Import F32.

(** Round to nearest, ties to even, of [m / 2^k]. *)
Definition rne (m k : Z) : Z :=
  let q := m / 2 ^ k in
  match 2 * (m mod 2 ^ k) ?= 2 ^ k with
  | Lt => q
  | Eq => if Z.even q then q else q + 1
  | Gt => q + 1
  end.

Definition loc_of (rem h : Z) : location :=
  if rem =? 0 then loc_Exact else loc_Inexact (2 * rem ?= h).

(** After [k] one-bit shifts of [m]: the quotient by [2^k] and the place
    of the remainder relative to one half. *)
Definition shr_inv (m k : Z) (r : shr_record) : Prop :=
  shr_m r = m / 2 ^ k /\ loc_of_shr_record r = loc_of (m mod 2 ^ k) (2 ^ k).

(** The two stages of [binary_round_aux] on an exact input, and the
    classification of the outcome. *)
Definition round_to (m e E : Z) : Z * Z :=
  if 0 <? E - e then (rne m (E - e), E) else (m, e).

Definition shift_to (m e E : Z) : Z * Z :=
  if 0 <? E - e then (m / 2 ^ (E - e), E) else (m, e).

Definition fexp32 (d : Z) : Z := fexp prec emax d.

Definition round_pos (m e : Z) : Z * Z :=
  let '(m1, e1) := round_to m e (fexp32 (Zdigits2 m + e)) in
  shift_to m1 e1 (fexp32 (Zdigits2 m1 + e1)).

Definition finish (s : bool) (me : Z * Z) : float :=
  match fst me with
  | Z0 => S754_zero s
  | Zpos p => if snd me <=? emax - prec then S754_finite s p (snd me)
              else S754_infinity s
  | Zneg _ => S754_nan
  end.

(** The value of a finite number in units of [2^-149], the smallest
    positive binary32 number. *)
Definition units (x : float) : Z :=
  match x with
  | S754_finite s m e => cond_Zopp s (Zpos m * 2 ^ (e + 149))
  | _ => 0
  end.

Definition valid (x : float) : Prop := is_float32 x = true.

Definition BN (z e : Z) : float := binary_normalize prec emax z e false.

End Rounding.

(** ** The parts of GLM the code uses *)

Module Glm.
Import F32.

Module vec2.
Record t : Type := mk { x : float; y : float }.
End vec2.

Module vec3.
Record t : Type := mk { x : float; y : float; z : float }.
End vec3.

Module vec4.
Record t : Type := mk { x : float; y : float; z : float; w : float }.
End vec4.

Module ivec3.
Record t : Type := mk { x : Z; y : Z; z : Z }.
End ivec3.

(** [glm::mat4x3]: four columns of three rows. *)
Module mat4x3.
Record t : Type := mk { c0 : vec3.t; c1 : vec3.t; c2 : vec3.t; c3 : vec3.t }.
End mat4x3.

(** [glm::min(x, y)] is [(y < x) ? y : x] and [glm::max(x, y)] is
    [(x < y) ? y : x]; on vectors they act componentwise. *)
Definition min (a b : float) : float := if flt b a then b else a.
Definition max (a b : float) : float := if flt a b then b else a.

(** [glm::abs] and [glm::radians].  On the host [glm::abs] is
    [x >= 0 ? x : -x], which keeps the sign of [-0] (under CUDA it is
    [fabsf], which differs from it at [-0] only); the factor of
    [glm::radians] is the binary32 number nearest to pi / 180, bit
    pattern 0x3C8EFA35. *)
Definition abs (a : float) : float := if fge a f0 then a else fneg a.
Definition deg2rad : float := S754_finite false 9370165 (-29).
Definition radians (degrees : float) : float := fmul degrees deg2rad.

Definition splat (a : float) : vec3.t := vec3.mk a a a.

Definition map3 (f : float -> float) (a : vec3.t) : vec3.t :=
  vec3.mk (f (vec3.x a)) (f (vec3.y a)) (f (vec3.z a)).

Definition zip3 (f : float -> float -> float) (a b : vec3.t) : vec3.t :=
  vec3.mk (f (vec3.x a) (vec3.x b)) (f (vec3.y a) (vec3.y b))
          (f (vec3.z a) (vec3.z b)).

Definition min3 : vec3.t -> vec3.t -> vec3.t := zip3 min.
Definition max3 : vec3.t -> vec3.t -> vec3.t := zip3 max.
Definition add3 : vec3.t -> vec3.t -> vec3.t := zip3 fadd.
Definition sub3 : vec3.t -> vec3.t -> vec3.t := zip3 fsub.
Definition mul3 : vec3.t -> vec3.t -> vec3.t := zip3 fmul.
Definition abs3 : vec3.t -> vec3.t := map3 abs.
Definition scale3 (k : float) : vec3.t -> vec3.t := map3 (fmul k).

(** [glm::all(glm::greaterThanEqual(a, b))] and
    [glm::all(glm::isfinite(a))]. *)
Definition all_ge3 (a b : vec3.t) : bool :=
  fge (vec3.x a) (vec3.x b) && fge (vec3.y a) (vec3.y b)
  && fge (vec3.z a) (vec3.z b).

Definition all_isfinite3 (a : vec3.t) : bool :=
  isfinite (vec3.x a) && isfinite (vec3.y a) && isfinite (vec3.z a).

Definition sub2 (a b : vec2.t) : vec2.t :=
  vec2.mk (fsub (vec2.x a) (vec2.x b)) (fsub (vec2.y a) (vec2.y b)).

Definition dot2 (a b : vec2.t) : float :=
  fadd (fmul (vec2.x a) (vec2.x b)) (fmul (vec2.y a) (vec2.y b)).

(** [vec3::operator[]] for reading and for writing; an index outside
    0..2 is outside the object. *)
Definition get3 (a : vec3.t) (i : Z) : option float :=
  match i with
  | 0 => Some (vec3.x a) | 1 => Some (vec3.y a) | 2 => Some (vec3.z a)
  | _ => None
  end.



(** [mat4x3 * vec4]: each row is summed from left to right. *)
Definition row (a b c d : float) (v : vec4.t) : float :=
  fadd (fadd (fadd (fmul a (vec4.x v)) (fmul b (vec4.y v)))
             (fmul c (vec4.z v)))
       (fmul d (vec4.w v)).

Definition mul_mat4x3_vec4 (m : mat4x3.t) (v : vec4.t) : vec3.t :=
  let '(mat4x3.mk c0 c1 c2 c3) := m in
  vec3.mk (row (vec3.x c0) (vec3.x c1) (vec3.x c2) (vec3.x c3) v)
          (row (vec3.y c0) (vec3.y c1) (vec3.y c2) (vec3.y c3) v)
          (row (vec3.z c0) (vec3.z c1) (vec3.z c2) (vec3.z c3) v).

Definition vec4_of (a : vec3.t) (w : float) : vec4.t :=
  vec4.mk (vec3.x a) (vec3.y a) (vec3.z a) w.

End Glm.

(** ** structs.h *)

Module Structs.
Import F32 Glm.

Definition kTolerance : float := Eval cbv in fdiv (of_Z 1) (of_Z 100000).

Definition Signum (val : float) : Z :=
  Z.b2z (fgt val f0) - Z.b2z (flt val f0).

(** The quantities [CCW] computes on the way.  Every operation is
    rounded on its own, as written in the source. *)
Definition cross2 (v1 v2 : vec2.t) : float :=
  fsub (fmul (vec2.x v1) (vec2.y v2)) (fmul (vec2.y v1) (vec2.x v2)).

Definition CCW_area (p0 p1 p2 : vec2.t) : float :=
  cross2 (sub2 p1 p0) (sub2 p2 p0).

Definition CCW_base2 (p0 p1 p2 : vec2.t) : float :=
  let v1 := sub2 p1 p0 in
  let v2 := sub2 p2 p0 in
  max (dot2 v1 v1) (dot2 v2 v2).

Definition CCW (p0 p1 p2 : vec2.t) (tol : float) : Z :=
  let v1 := sub2 p1 p0 in
  let v2 := sub2 p2 p0 in
  let area := fsub (fmul (vec2.x v1) (vec2.y v2))
                   (fmul (vec2.y v1) (vec2.x v2)) in
  let base2 := max (dot2 v1 v1) (dot2 v2 v2) in
  if fle (fmul area area) (fmul (fmul base2 tol) tol) then 0
  else if fgt area f0 then 1 else -1.

Record Halfedge : Type := mkHalfedge
  { startVert : Z; endVert : Z; pairedHalfedge : Z; face : Z }.

Definition IsForward (h : Halfedge) : bool := startVert h <? endVert h.

Definition Halfedge_lt (h other : Halfedge) : bool :=
  if startVert h =? startVert other then endVert h <? endVert other
  else startVert h <? startVert other.

(** *** Degree trigonometry

    [sin] and [cos] come from the C library; they are kept abstract. *)
Section Trig.
Variables fsin fcos : float -> float.

Definition f90 : float := Eval cbv in of_Z 90.

(** The body of [sind] below its two early returns. *)
Definition sind_reduced (x : float) : float :=
  let '(x', quo) := remquo (fabs x) f90 in
  match Z.rem quo 4 with
  | 0 => fsin (radians x')
  | 1 => fcos (radians x')
  | 2 => fneg (fsin (radians x'))
  | 3 => fneg (fcos (radians x'))
  | _ => f0
  end.

(** [sind(-x)] is entered with a positive finite argument, so the
    recursion is one call deep. *)
Definition sind (x : float) : float :=
  if negb (isfinite x) then fsin x
  else if flt x f0 then fneg (sind_reduced (fneg x))
  else sind_reduced x.

Definition cosd (x : float) : float := sind (fadd x f90).

End Trig.

(** *** Mesh relation *)





(** *** Axis-aligned bounding box

    Member functions that modify the box in place ([Union] with a point,
    [+=], [*=]) are functions from the old box to the new one. *)
Module Box.

Record t : Type := mk { min : vec3.t; max : vec3.t }.

Definition default : t :=
  mk (splat (fdiv f1 f0)) (splat (fdiv (fneg f1) f0)).

Definition of_points (p1 p2 : vec3.t) : t := mk (min3 p1 p2) (max3 p1 p2).

Definition Size (b : t) : vec3.t := sub3 (max b) (min b).

Definition Center (b : t) : vec3.t :=
  scale3 (S754_finite false 8388608 (-24)) (add3 (max b) (min b)).

Definition Scale (b : t) : float :=
  let absMax := max3 (abs3 (min b)) (abs3 (max b)) in
  Glm.max (vec3.x absMax) (Glm.max (vec3.y absMax) (vec3.z absMax)).

Definition Contains (b box : t) : bool :=
  all_ge3 (min box) (min b) && all_ge3 (max b) (max box).

Definition Union_point (b : t) (p : vec3.t) : t :=
  mk (min3 (min b) p) (max3 (max b) p).

Definition Union (b box : t) : t :=
  mk (min3 (min b) (min box)) (max3 (max b) (max box)).

Definition Transform (b : t) (transform : mat4x3.t) : t :=
  let minT := mul_mat4x3_vec4 transform (vec4_of (min b) f1) in
  let maxT := mul_mat4x3_vec4 transform (vec4_of (max b) f1) in
  mk (min3 minT maxT) (max3 minT maxT).

Definition add (b : t) (shift : vec3.t) : t :=
  mk (add3 (min b) shift) (add3 (max b) shift).

Definition add_assign (b : t) (shift : vec3.t) : t :=
  mk (add3 (min b) shift) (add3 (max b) shift).

Definition mul (b : t) (scale : vec3.t) : t :=
  mk (mul3 (min b) scale) (mul3 (max b) scale).

Definition mul_assign (b : t) (scale : vec3.t) : t :=
  mk (mul3 (min b) scale) (mul3 (max b) scale).

Definition DoesOverlap (b box : t) : bool :=
  fle (vec3.x (min b)) (vec3.x (max box))
  && fle (vec3.y (min b)) (vec3.y (max box))
  && fle (vec3.z (min b)) (vec3.z (max box))
  && fge (vec3.x (max b)) (vec3.x (min box))
  && fge (vec3.y (max b)) (vec3.y (min box))
  && fge (vec3.z (max b)) (vec3.z (min box)).

Definition DoesOverlap_point (b : t) (p : vec3.t) : bool :=
  fle (vec3.x p) (vec3.x (max b)) && fge (vec3.x p) (vec3.x (min b))
  && fle (vec3.y p) (vec3.y (max b)) && fge (vec3.y p) (vec3.y (min b)).

Definition isFinite (b : t) : bool :=
  all_isfinite3 (min b) && all_isfinite3 (max b).

End Box.

Record Mesh : Type := mkMesh
  { vertPos : list vec3.t;
    vertNormal : list vec3.t;
    triVerts : list ivec3.t;
    halfedgeTangent : list vec4.t }.

End Structs.

(** ** Mesh export

    [ExportMesh] hands an Assimp scene to [Assimp::Exporter::Export].
    The run is modelled by the events it causes, in order, and by how it
    ends.  The Assimp exporter is the parameter [exporter]: from the
    scene, the format id and the file name it tells whether the file was
    written and, if not, the error string. *)

Module MeshIO.
Import F32 Glm Structs.
Local Open Scope string_scope.

(** The fields of [ExportOptions] and of its material that [ExportMesh]
    reads. *)
Record Material : Type := mkMaterial
  { roughness : float;
    metalness : float;
    color : vec4.t;
    vertColor : list vec4.t }.

Record ExportOptions : Type := mkExportOptions
  { faceted : bool; mat : Material }.

(** What [ExportMesh] stores in the scene. *)
Record aiMaterial : Type := mkAiMaterial
  { roughnessFactor : float; metallicFactor : float; colorDiffuse : vec4.t }.

Record aiMesh : Type := mkAiMesh
  { mVertices : list vec3.t;
    mNormals : option (list vec3.t);
    mColors0 : option (list vec4.t);
    mFaces : list (list Z) }.

Record aiScene : Type := mkAiScene
  { mMaterial : aiMaterial; mMesh : aiMesh }.

Inductive error_kind : Type := userErr | topologyErr | geometryErr | logicErr.

(** An exception thrown by [ALWAYS_ASSERT]: its type, the text of the
    condition and the message.  (The string of the C++ exception also
    names the file and the line.) *)
Record exception : Type := mkException
  { ex_kind : error_kind; ex_cond : string; ex_msg : string }.

Inductive event : Type :=
| Printed (line : string)
| Exported (scene : aiScene) (format file : string).

Inductive outcome : Type :=
| Returned
| Thrown (e : exception).

Definition AlwaysAssert (condition : bool) (k : error_kind)
    (cond msg : string) : option exception :=
  if condition then None else Some (mkException k cond msg).

(** [s.find_last_of(".")]: the index of the last dot, if there is one. *)
Fixpoint find_last_of (s : string) (c : ascii) : option nat :=
  match s with
  | EmptyString => None
  | String a r =>
      match find_last_of r c with
      | Some i => Some (S i)
      | None => if Ascii.eqb a c then Some O else None
      end
  end.

(** [s.substr(pos)] for [pos <= s.size()]. *)
Fixpoint substr (s : string) (pos : nat) : string :=
  match pos, s with
  | O, _ => s
  | S n, String _ r => substr r n
  | S _, EmptyString => EmptyString
  end.

(** [filename.substr(filename.find_last_of(".") + 1)]; without a dot the
    position is [npos + 1 = 0]. *)
Definition extension (filename : string) : string :=
  substr filename
    match find_last_of filename "."%char with
    | Some i => S i
    | None => O
    end.

Definition swap_yup (isYup : bool) (v : vec3.t) : vec3.t :=
  if isYup then vec3.mk (vec3.y v) (vec3.z v) (vec3.x v) else v.

(** [int] and [unsigned int] are 32 bits wide.  The indices of
    [triVerts] are [int], those of [aiFace] are [unsigned int]: storing
    the one in the other converts modulo [2^32]. *)
Definition to_uint (i : Z) : Z := (i mod 2 ^ 32)%Z.

Definition face_of (t : ivec3.t) : list Z :=
  [to_uint (ivec3.x t); to_uint (ivec3.y t); to_uint (ivec3.z t)].

Section WithExporter.
Variable exporter : aiScene -> string -> string -> bool * string.

Definition ExportMesh (filename : string) (mesh : Mesh)
    (options : ExportOptions) : list event * outcome :=
  if (List.length (triVerts mesh) =? 0)%nat then
    ([Printed (filename ++ " was not saved because the input mesh was empty.")],
     Returned)
  else
    let ext := extension filename in
    let isYup := String.eqb ext "glb" || String.eqb ext "gltf" in
    let ext := if String.eqb ext "glb" then "glb2" else ext in
    let ext := if String.eqb ext "gltf" then "gltf2" else ext in
    let material :=
      mkAiMaterial (roughness (mat options)) (metalness (mat options))
                   (color (mat options)) in
    match
      if negb (faceted options) then
        AlwaysAssert (List.length (vertNormal mesh) =? List.length (vertPos mesh))%nat
          userErr "mesh.vertNormal.size() == mesh.vertPos.size()"
          "vertNormal must be the same length as vertPos when faceted is false."
      else None
    with
    | Some e => ([], Thrown e)
    | None =>
    match
      if negb (List.length (vertColor (mat options)) =? 0)%nat then
        AlwaysAssert
          (List.length (vertPos mesh) =? List.length (vertColor (mat options)))%nat
          userErr "mesh.vertPos.size() == options.mat.vertColor.size()"
          "If present, vertColor must be the same length as vertPos."
      else None
    with
    | Some e => ([], Thrown e)
    | None =>
        let mesh_out :=
          mkAiMesh
            (map (swap_yup isYup) (vertPos mesh))
            (if negb (faceted options)
             then Some (map (swap_yup isYup) (vertNormal mesh)) else None)
            (if negb (List.length (vertColor (mat options)) =? 0)%nat
             then Some (vertColor (mat options)) else None)
            (map face_of (triVerts mesh)) in
        let scene := mkAiScene material mesh_out in
        let '(success, errorString) := exporter scene ext filename in
        ([Exported scene ext filename],
         match AlwaysAssert success userErr "result == AI_SUCCESS" errorString with
         | Some e => Thrown e
         | None => Returned
         end)
    end
    end.

End WithExporter.

End MeshIO.

(** ** Vocabulary of the properties *)

Module Props.
Import F32 Rounding Glm Structs.




Definition no_nan3 (v : vec3.t) : Prop :=
  is_nan (vec3.x v) = false /\ is_nan (vec3.y v) = false
  /\ is_nan (vec3.z v) = false.

(** [a <= b] in every component. *)
Definition le3 (a b : vec3.t) : Prop :=
  fle (vec3.x a) (vec3.x b) = true /\ fle (vec3.y a) (vec3.y b) = true
  /\ fle (vec3.z a) (vec3.z b) = true.

(** The box invariant [min <= max]. *)
Definition ordered (b : Box.t) : Prop := le3 (Box.min b) (Box.max b).

Definition no_nan_box (b : Box.t) : Prop :=
  no_nan3 (Box.min b) /\ no_nan3 (Box.max b).

(** Every coordinate is a binary32 number. *)
Definition valid3 (v : vec3.t) : Prop :=
  valid (vec3.x v) /\ valid (vec3.y v) /\ valid (vec3.z v).

Definition valid_box (b : Box.t) : Prop :=
  valid3 (Box.min b) /\ valid3 (Box.max b).

(** A finite binary32 number whose value is an integer multiple of 90. *)
Definition multiple_of_90 (x : float) : Prop :=
  valid x /\ isfinite x = true /\ exists k : Z, units x = k * (90 * 2 ^ 149).

(** One of 0, 1 and -1 (either zero). *)
Definition is_exact (r : float) : bool :=
  feq r f0 || feq r f1 || feq r (fneg f1).

(** [==] of GLM vectors, lifted to the two corners of a box. *)
Definition eq3 (a b : vec3.t) : bool :=
  feq (vec3.x a) (vec3.x b) && feq (vec3.y a) (vec3.y b)
  && feq (vec3.z a) (vec3.z b).

Definition box_eq (a b : Box.t) : bool :=
  eq3 (Box.min a) (Box.min b) && eq3 (Box.max a) (Box.max b).

(** A point of the closed box. *)
Definition inside (b : Box.t) (p : vec3.t) : Prop :=
  le3 (Box.min b) p /\ le3 p (Box.max b).

(** Sample numbers, points and boxes of the scenarios. *)
Definition f2 : float := Eval cbv in of_Z 2.
Definition f3 : float := Eval cbv in of_Z 3.
Definition fm1 : float := Eval cbv in of_Z (-1).
Definition fm2 : float := Eval cbv in of_Z (-2).

(** 10^30, a finite binary32 number whose square overflows. *)
Definition big : float := Eval cbv in of_Z (10 ^ 30).

(** 90 * 2^20 degrees, a multiple of 360. *)
Definition angle_big : float := Eval cbv in of_Z (90 * 2 ^ 20).

Definition p00 : vec2.t := vec2.mk f0 f0.
Definition p10 : vec2.t := vec2.mk f1 f0.
Definition p01 : vec2.t := vec2.mk f0 f1.
Definition p20 : vec2.t := vec2.mk f2 f0.
Definition pbig : vec2.t := vec2.mk big big.
Definition pbig2 : vec2.t :=
  vec2.mk (fadd big big) (fadd big big).
Definition pbig0 : vec2.t := vec2.mk big f0.

Definition unit_box : Box.t := Box.of_points (splat f0) (splat f1).
Definition far_box : Box.t := Box.of_points (splat f2) (splat f3).
Definition touching_box : Box.t :=
  Box.of_points (vec3.mk f1 f0 f0) (vec3.mk f2 f1 f1).
Definition nan_box : Box.t := Box.mk (vec3.mk fnan f0 f0) (splat f1).
Definition whole_space : Box.t := Box.mk (splat fninf) (splat finf).
Definition wide_box : Box.t := Box.of_points (splat fm2) (splat f2).

(** The unit box scaled by -1 with [operator*]. *)
Definition mirrored_box : Box.t := Box.mul unit_box (splat fm1).



(** An event of [ExportMesh] that produces the output file. *)
Definition wrote_file (e : MeshIO.event) : bool :=
  match e with MeshIO.Exported _ _ _ => true | MeshIO.Printed _ => false end.

(** Sample data for the export scenarios. *)
Definition sample_exporter (scene : MeshIO.aiScene) (format file : string)
  : bool * string := (true, EmptyString).

Definition sample_material : MeshIO.Material :=
  MeshIO.mkMaterial f1 f0 (vec4.mk f1 f1 f1 f1) [].

Definition origin3 : vec3.t := splat f0.

Definition sample_triangle : Mesh :=
  mkMesh [origin3; vec3.mk f1 f0 f0; vec3.mk f0 f1 f0] []
         [ivec3.mk 0 1 2] [].

Definition empty_mesh : Mesh := mkMesh [origin3] [] [] [].

End Props.

(** ** Mesh import

    [ImportMesh] reads a scene through [Assimp::Importer::ReadFile].  The
    importer is the parameter [importer]: from the file name it gives the
    scene, or none (a null pointer), and its error string.  Of the scene
    the code reads the vertices and the faces of every mesh. *)

Module MeshImport.
Import F32 Glm Structs MeshIO.
Local Open Scope string_scope.

Record aiMeshIn : Type := mkAiMeshIn
  { inVertices : list vec3.t; inFaces : list (list Z) }.

Definition aiSceneIn : Type := list aiMeshIn.

(** The answer of [ImportMesh]: the mesh, or the exception thrown. *)
Inductive imported : Type :=
| Mesh_out (m : Mesh)
| Import_thrown (e : exception).

Definition from_yup (isYup : bool) (vert : vec3.t) : vec3.t :=
  if isYup then vec3.mk (vec3.z vert) (vec3.x vert) (vec3.y vert) else vert.

(** [glm::ivec3] built from the [unsigned int] indices of a face: each
    is converted to [int], modulo [2^32] into the range from [-2^31]
    (C++20; what the usual compilers did before). *)
Definition to_int (u : Z) : Z := ((u + 2 ^ 31) mod 2 ^ 32 - 2 ^ 31)%Z.

(** The loop over the faces of one mesh; [tris] is [mesh_out.triVerts]. *)
Fixpoint import_faces (filename : string) (faces : list (list Z))
    (tris : list ivec3.t) : list ivec3.t + exception :=
  match faces with
  | [] => inl tris
  | [i0; i1; i2] :: rest =>
      import_faces filename rest
        (tris ++ [ivec3.mk (to_int i0) (to_int i1) (to_int i2)])%list
  | _ :: _ =>
      inr (mkException userErr "face.mNumIndices == 3"
             ("Non-triangular face in " ++ filename))
  end.

(** The loop over the meshes of the scene. *)
Fixpoint import_meshes (filename : string) (isYup : bool)
    (meshes : list aiMeshIn) (mesh_out : Mesh) : imported :=
  match meshes with
  | [] => Mesh_out mesh_out
  | mesh_i :: rest =>
      let verts :=
        (vertPos mesh_out ++ map (from_yup isYup) (inVertices mesh_i))%list in
      match import_faces filename (inFaces mesh_i) (triVerts mesh_out) with
      | inr e => Import_thrown e
      | inl tris =>
          import_meshes filename isYup rest
            (mkMesh verts (vertNormal mesh_out) tris (halfedgeTangent mesh_out))
      end
  end.

Section WithImporter.
Variable importer : string -> option aiSceneIn * string.

Definition ImportMesh (filename : string) : imported :=
  let ext := extension filename in
  let isYup := String.eqb ext "glb" || String.eqb ext "gltf" in
  let '(scene, errorString) := importer filename in
  match scene with
  | None => Import_thrown (mkException userErr "scene" errorString)
  | Some meshes => import_meshes filename isYup meshes (mkMesh [] [] [] [])
  end.

End WithImporter.

End MeshImport.

(** ** The fractal of the Menger sponge sample

    [Fractal] fills [holes] with scaled and translated copies of [hole].
    The class [Manifold] and its members [Scale] and [Translate] are
    parameters.  The recursion is on [depth], an [int] that counts up to
    [maxDepth]; the fuel bounds the depth of the recursion. *)

Module Samples.
Import F32 Glm.

Definition add2 (a b : vec2.t) : vec2.t :=
  vec2.mk (fadd (vec2.x a) (vec2.x b)) (fadd (vec2.y a) (vec2.y b)).

(** [glm::vec2 offsets[8]] for the width [w]. *)
Definition offsets (w : float) : list vec2.t :=
  [vec2.mk (fneg w) (fneg w); vec2.mk (fneg w) f0; vec2.mk (fneg w) w;
   vec2.mk f0 w; vec2.mk w w; vec2.mk w f0; vec2.mk w (fneg w);
   vec2.mk f0 (fneg w)].

Section WithManifold.
Variable Manifold : Type.
Variable Scale : Manifold -> vec3.t -> Manifold.
Variable Translate : Manifold -> vec3.t -> Manifold.

Fixpoint Fractal (fuel : nat) (holes : list Manifold) (hole : Manifold)
    (w : float) (position : vec2.t) (depth maxDepth : Z)
    : option (list Manifold) :=
  match fuel with
  | O => None
  | S fuel' =>
      let w := fdiv w (of_Z 3) in
      let holes :=
        holes ++ [Translate (Scale hole (vec3.mk w w f1))
                    (vec3.mk (vec2.x position) (vec2.y position) f0)] in
      if depth =? maxDepth then Some holes
      else
        fold_left
          (fun acc offset =>
             match acc with
             | None => None
             | Some holes =>
                 Fractal fuel' holes hole w (add2 position offset)
                   (depth + 1) maxDepth
             end)
          (offsets w) (Some holes)
  end.

End WithManifold.

End Samples.

(** ** Vocabulary of the further properties *)

Module MoreProps.
Import F32 Rounding Glm Structs Props.

(** The six coordinates of a box. *)
Definition coordinates (b : Box.t) : list float :=
  [vec3.x (Box.min b); vec3.y (Box.min b); vec3.z (Box.min b);
   vec3.x (Box.max b); vec3.y (Box.max b); vec3.z (Box.max b)].

(** The halfedge that runs the other way along the same edge. *)
Definition opposite (h g : Halfedge) : Prop :=
  startVert g = endVert h /\ endVert g = startVert h.

(** One half, the factor in [Box::Center]. *)
Definition half : float := S754_finite false 8388608 (-24).

(** The matrix of a translation: the identity followed by [t]. *)
Definition translation (t : vec3.t) : mat4x3.t :=
  mat4x3.mk (vec3.mk f1 f0 f0) (vec3.mk f0 f1 f0) (vec3.mk f0 f0 f1) t.

(** The matrix of a scaling along the axes, without translation. *)
Definition scaling (s : vec3.t) : mat4x3.t :=
  mat4x3.mk (vec3.mk (vec3.x s) f0 f0) (vec3.mk f0 (vec3.y s) f0)
            (vec3.mk f0 f0 (vec3.z s)) (vec3.mk f0 f0 f0).

(** Points of binary32 numbers, and finite points. *)
Definition valid2 (v : vec2.t) : Prop := valid (vec2.x v) /\ valid (vec2.y v).

Definition finite2 (v : vec2.t) : bool :=
  isfinite (vec2.x v) && isfinite (vec2.y v).

(** The bound [base2 * tol * tol] of [CCW]. *)
Definition CCW_bound (p0 p1 p2 : vec2.t) (tol : float) : float :=
  fmul (fmul (CCW_base2 p0 p1 p2) tol) tol.

Definition f45 : float := Eval cbv in of_Z 45.

(** Angles of at most 45 degrees in magnitude. *)
Definition within_45 (a : float) : Prop :=
  fle (fneg f45) a = true /\ fle a f45 = true.

(** The sine of [k] quarter turns, [k >= 0], with the sign of zero that
    [sind] gives it. *)
Definition quarter (k : Z) : float :=
  match k mod 4 with
  | 0 => f0
  | 1 => f1
  | 2 => fneg f0
  | _ => fneg f1
  end.

(** The sine of [k] quarter turns, odd in [k]. *)
Definition sind_table (k : Z) : float :=
  if k <? 0 then fneg (quarter (- k)) else quarter k.

(** A face with exactly three indices. *)
Definition is_triangle (f : list Z) : bool := (List.length f =? 3)%nat.

(** Every face of every mesh of a scene is a triangle. *)
Definition all_triangles (scene : MeshImport.aiSceneIn) : bool :=
  forallb (fun m => forallb is_triangle (MeshImport.inFaces m)) scene.

(** Whether a file name selects a Y-up format. *)
Definition is_yup (filename : string) : bool :=
  (String.eqb (MeshIO.extension filename) "glb"
   || String.eqb (MeshIO.extension filename) "gltf")%bool.

(** The format id handed to the exporter. *)
Definition format_id (filename : string) : string :=
  let ext := MeshIO.extension filename in
  if String.eqb ext "glb" then "glb2"%string
  else if String.eqb ext "gltf" then "gltf2"%string else ext.

(** The three indices of a triangle. *)
Definition indices (t : ivec3.t) : list Z :=
  [ivec3.x t; ivec3.y t; ivec3.z t].

(** The values of [int], and triangles of such indices. *)
Definition is_int (i : Z) : Prop := - 2 ^ 31 <= i < 2 ^ 31.

Definition int_tri (t : ivec3.t) : Prop :=
  is_int (ivec3.x t) /\ is_int (ivec3.y t) /\ is_int (ivec3.z t).

(** An [unsigned int] that an [int] holds as it is. *)
Definition small_index (u : Z) : Prop := 0 <= u < 2 ^ 31.

(** An index after its way through [unsigned int] and back. *)
Definition rewrap (t : ivec3.t) : ivec3.t :=
  ivec3.mk (MeshImport.to_int (MeshIO.to_uint (ivec3.x t)))
           (MeshImport.to_int (MeshIO.to_uint (ivec3.y t)))
           (MeshImport.to_int (MeshIO.to_uint (ivec3.z t))).

(** A box whose coordinates are all [-0]. *)
Definition negative_zero_box : Box.t :=
  Box.mk (splat (fneg f0)) (splat (fneg f0)).

(** What an importer reads back of a scene that was exported. *)
Definition scene_in (scene : MeshIO.aiScene) : MeshImport.aiSceneIn :=
  [MeshImport.mkAiMeshIn (MeshIO.mVertices (MeshIO.mMesh scene))
                         (MeshIO.mFaces (MeshIO.mMesh scene))].

(** The number of holes [Fractal] adds with [k] levels below the current
    one. *)
Fixpoint hole_count (k : nat) : nat :=
  match k with
  | O => 1
  | S k' => 1 + 8 * hole_count k'
  end.

(** Sample data of the scenarios.  [sample_sin] and [sample_cos] map
    [+0] to [+0] and to [1], and [sample_sin_num] differs from
    [sample_sin] at NaN only; [placed] stands in for [Manifold] and
    records the last scale and the last translation applied. *)
Definition sample_sin (x : float) : float := x.
Definition sample_cos (x : float) : float := f1.
Definition sample_sin_num (x : float) : float := if is_nan x then f0 else x.

Definition edge12 : Halfedge := mkHalfedge 1 2 0 0.
Definition edge21 : Halfedge := mkHalfedge 2 1 1 0.

Definition hull_box : Box.t := Box.mk (splat f0) (splat f3).

Definition faceted_options : MeshIO.ExportOptions :=
  MeshIO.mkExportOptions true sample_material.

Definition sample_scene : MeshIO.aiScene :=
  MeshIO.mkAiScene
    (MeshIO.mkAiMaterial f1 f0 (vec4.mk f1 f1 f1 f1))
    (MeshIO.mkAiMesh
       [origin3; vec3.mk f0 f0 f1; vec3.mk f1 f0 f0] None None [[0; 1; 2]]).

Definition sample_importer (filename : string)
  : option MeshImport.aiSceneIn * string :=
  (Some (scene_in sample_scene), EmptyString).

Definition placed : Type := (vec3.t * vec3.t)%type.
Definition place_scale (m : placed) (v : vec3.t) : placed := (v, snd m).
Definition place_translate (m : placed) (v : vec3.t) : placed := (fst m, v).
Definition unplaced : placed := (splat f1, splat f0).

End MoreProps.

(** * Properties *)

Import F32 Rounding Glm Structs Props.

(** ** The order on floats *)

Section Order.

Lemma compare_cont_Eq (m n : positive) :
  Pos.compare_cont Eq m n = (Zpos m ?= Zpos n).
Proof. reflexivity. Qed.

Ltac key_cases :=
  repeat match goal with
  | |- context [Z.compare ?a ?b] => destruct (Z.compare_spec a b)
  | H : context [Z.compare ?a ?b] |- _ => destruct (Z.compare_spec a b)
  end.

Lemma flt_true (x y : float) :
  flt x y = true <-> num x /\ num y /\ key_lt x y.
Proof.
  unfold flt, SFltb, num, key_lt.
  destruct x as [sx|sx| |sx mx ex], y as [sy|sy| |sy my ey];
    try destruct sx; try destruct sy; simpl;
    try rewrite compare_cont_Eq; key_cases; simpl;
    intuition (try discriminate; try lia).
Qed.

Lemma feq_true (x y : float) :
  feq x y = true <-> num x /\ num y /\ key_eq x y.
Proof.
  unfold feq, SFeqb, num, key_eq.
  destruct x as [sx|sx| |sx mx ex], y as [sy|sy| |sy my ey];
    try destruct sx; try destruct sy; simpl;
    try rewrite compare_cont_Eq; key_cases; simpl;
    intuition (try discriminate; try lia).
Qed.

Lemma fle_true (x y : float) :
  fle x y = true <-> num x /\ num y /\ key_le x y.
Proof.
  unfold fle, SFleb, num, key_le, key_lt, key_eq.
  destruct x as [sx|sx| |sx mx ex], y as [sy|sy| |sy my ey];
    try destruct sx; try destruct sy; simpl;
    try rewrite compare_cont_Eq; key_cases; simpl;
    intuition (try discriminate; try lia).
Qed.

Lemma flt_false (x y : float) :
  num x -> num y -> flt x y = false -> key_le y x.
Proof.
  intros Hx Hy H.
  assert (N : ~ key_lt x y).
  { intro K. rewrite (proj2 (flt_true x y) (conj Hx (conj Hy K))) in H.
    discriminate. }
  unfold key_le, key_lt, key_eq in *. lia.
Qed.

Lemma flt_num (x y : float) : flt x y = true -> num x /\ num y.
Proof. intro H. apply flt_true in H. tauto. Qed.

Lemma fle_num (x y : float) : fle x y = true -> num x /\ num y.
Proof. intro H. apply fle_true in H. tauto. Qed.

Lemma fle_intro (x y : float) : num x -> num y -> key_le x y -> fle x y = true.
Proof. intros. apply fle_true. auto. Qed.

Lemma feq_intro (x y : float) : num x -> num y -> key_eq x y -> feq x y = true.
Proof. intros. apply feq_true. auto. Qed.

End Order.

(** Turns comparisons between numbers into facts about their keys. *)
Ltac fkeys :=
  repeat match goal with
  | H : flt _ _ = true |- _ =>
      apply flt_true in H; destruct H as (? & ? & ?)
  | H : fle _ _ = true |- _ =>
      apply fle_true in H; destruct H as (? & ? & ?)
  | H : feq _ _ = true |- _ =>
      apply feq_true in H; destruct H as (? & ? & ?)
  end;
  repeat match goal with
  | H : flt ?x ?y = false |- _ =>
      apply flt_false in H; [ | assumption | assumption ]
  end.

Ltac forder :=
  fkeys;
  try (apply fle_intro; [ assumption | assumption | ]);
  try (apply feq_intro; [ assumption | assumption | ]);
  unfold key_le, key_lt, key_eq in *; lia.

Section MinMax.

Lemma min_le_max (a b : float) : num a -> num b -> fle (min a b) (max a b) = true.
Proof.
  intros Ha Hb. unfold min, max.
  destruct (flt b a) eqn:E1, (flt a b) eqn:E2; forder.
Qed.

Lemma min_below_max_above (lo hi p q : float) :
  fle lo hi = true -> fle (min lo p) (max hi q) = true.
Proof.
  intros H. unfold min, max.
  destruct (flt p lo) eqn:E1, (flt hi q) eqn:E2; forder.
Qed.

End MinMax.

Section MinMaxAlgebra.
Variables a b c : float.
Hypotheses (Ha : num a) (Hb : num b) (Hc : num c).

Lemma min_num : num (min a b).
Proof. unfold min. destruct (flt b a); assumption. Qed.

Lemma max_num : num (max a b).
Proof. unfold max. destruct (flt a b); assumption. Qed.

Lemma min_le_l : fle (min a b) a = true.
Proof. unfold min. destruct (flt b a) eqn:E; forder. Qed.

Lemma min_le_r : fle (min a b) b = true.
Proof. unfold min. destruct (flt b a) eqn:E; forder. Qed.

Lemma max_ge_l : fle a (max a b) = true.
Proof. unfold max. destruct (flt a b) eqn:E; forder. Qed.

Lemma max_ge_r : fle b (max a b) = true.
Proof. unfold max. destruct (flt a b) eqn:E; forder. Qed.

Lemma min_comm : feq (min a b) (min b a) = true.
Proof. unfold min. destruct (flt b a) eqn:E1, (flt a b) eqn:E2; forder. Qed.

Lemma max_comm : feq (max a b) (max b a) = true.
Proof. unfold max. destruct (flt b a) eqn:E1, (flt a b) eqn:E2; forder. Qed.

Lemma min_assoc : feq (min (min a b) c) (min a (min b c)) = true.
Proof.
  unfold min.
  destruct (flt b a) eqn:E1, (flt c b) eqn:E2;
    try destruct (flt c a) eqn:E3; try rewrite E1; try rewrite E2; forder.
Qed.

Lemma max_assoc : feq (max (max a b) c) (max a (max b c)) = true.
Proof.
  unfold max.
  destruct (flt a b) eqn:E1, (flt b c) eqn:E2;
    try destruct (flt a c) eqn:E3; try rewrite E1; try rewrite E2; forder.
Qed.

Lemma min_inf_l : feq (min finf b) b = true.
Proof.
  unfold min. destruct (flt b finf) eqn:E.
  - forder.
  - assert (Hi : num finf) by reflexivity. fkeys.
    apply feq_intro; auto. destruct b as [s|[|]| |[|] m e]; try discriminate;
      unfold key_le, key_lt, key_eq in *; simpl in *; lia.
Qed.

Lemma max_ninf_l : feq (max fninf b) b = true.
Proof.
  unfold max. destruct (flt fninf b) eqn:E.
  - forder.
  - assert (Hi : num fninf) by reflexivity. fkeys.
    apply feq_intro; auto. destruct b as [s|[|]| |[|] m e]; try discriminate;
      unfold key_le, key_lt, key_eq in *; simpl in *; lia.
Qed.

End MinMaxAlgebra.

(** ** Boxes *)

Ltac unbox :=
  repeat match goal with
  | b : Box.t |- _ => destruct b as [[? ? ?] [? ? ?]]
  | v : vec3.t |- _ => destruct v as [? ? ?]
  end;
  unfold ordered, no_nan_box, inside, box_eq, Box.Contains, Box.Union,
    Box.Union_point, Box.of_points, Box.Transform,
    Box.DoesOverlap, Box.DoesOverlap_point, all_ge3, fge,
    no_nan3, le3, eq3, min3, max3, zip3 in *;
  simpl in *.

Ltac split_all :=
  repeat match goal with
  | H : _ /\ _ |- _ => destruct H
  | H : andb _ _ = true |- _ => apply andb_true_iff in H
  | |- _ /\ _ => split
  | |- andb _ _ = true => apply andb_true_iff
  end.

Lemma of_points_ordered (p1 p2 : vec3.t) :
  no_nan3 p1 -> no_nan3 p2 -> ordered (Box.of_points p1 p2).
Proof. intros H1 H2. unbox. split_all; apply min_le_max; assumption. Qed.

Lemma Union_point_ordered (b : Box.t) (p : vec3.t) :
  ordered b -> ordered (Box.Union_point b p).
Proof. intros H. unbox. split_all; apply min_below_max_above; assumption. Qed.

Lemma Union_ordered (b box : Box.t) :
  ordered b -> ordered (Box.Union b box).
Proof. intros H. unbox. split_all; apply min_below_max_above; assumption. Qed.

Lemma Transform_ordered (b : Box.t) (t : mat4x3.t) :
  no_nan3 (mul_mat4x3_vec4 t (vec4_of (Box.min b) f1)) ->
  no_nan3 (mul_mat4x3_vec4 t (vec4_of (Box.max b) f1)) ->
  ordered (Box.Transform b t).
Proof.
  intros H1 H2. unfold Box.Transform.
  apply (of_points_ordered _ _ H1 H2).
Qed.

Lemma Union_Contains_l (a b : Box.t) :
  no_nan_box a -> no_nan_box b -> Box.Contains (Box.Union a b) a = true.
Proof.
  intros Ha Hb. unbox. split_all;
    first [apply min_le_l | apply max_ge_l]; assumption.
Qed.

Lemma Union_Contains_r (a b : Box.t) :
  no_nan_box a -> no_nan_box b -> Box.Contains (Box.Union a b) b = true.
Proof.
  intros Ha Hb. unbox. split_all;
    first [apply min_le_r | apply max_ge_r]; assumption.
Qed.

Lemma Union_comm (a b : Box.t) :
  no_nan_box a -> no_nan_box b ->
  box_eq (Box.Union a b) (Box.Union b a) = true.
Proof.
  intros Ha Hb. unbox. split_all;
    first [apply min_comm | apply max_comm]; assumption.
Qed.

Lemma Union_assoc (a b c : Box.t) :
  no_nan_box a -> no_nan_box b -> no_nan_box c ->
  box_eq (Box.Union (Box.Union a b) c) (Box.Union a (Box.Union b c)) = true.
Proof.
  intros Ha Hb Hc. unbox. split_all;
    first [apply min_assoc | apply max_assoc]; assumption.
Qed.

Lemma Union_default_l (b : Box.t) :
  no_nan_box b -> box_eq (Box.Union Box.default b) b = true.
Proof.
  intros Hb. unbox. split_all;
    first [apply min_inf_l | apply max_ninf_l]; assumption.
Qed.

Lemma fle_trans (x y z : float) :
  fle x y = true -> fle y z = true -> fle x z = true.
Proof. intros H1 H2. forder. Qed.

(** On one axis, two intervals that satisfy the test share the larger of
    their lower ends. *)
Lemma overlap_axis (alo ahi blo bhi : float) :
  fle alo ahi = true -> fle blo bhi = true ->
  fle alo bhi = true -> fle blo ahi = true ->
  (fle alo (max alo blo) = true /\ fle (max alo blo) ahi = true)
  /\ (fle blo (max alo blo) = true /\ fle (max alo blo) bhi = true).
Proof.
  intros H1 H2 H3 H4. unfold max.
  destruct (flt alo blo) eqn:E; repeat split; forder.
Qed.

Lemma DoesOverlap_shared_point (a b : Box.t) :
  ordered a -> ordered b ->
  (Box.DoesOverlap a b = true <-> exists p, inside a p /\ inside b p).
Proof.
  destruct a as [[alx aly alz] [ahx ahy ahz]].
  destruct b as [[blx bly blz] [bhx bhy bhz]].
  intros Ha Hb. split.
  - intros H.
    exists (max3 (vec3.mk alx aly alz) (vec3.mk blx bly blz)).
    unbox.
    repeat match goal with
    | H : _ /\ _ |- _ => destruct H
    | H : andb _ _ = true |- _ => apply andb_true_iff in H
    end.
    assert (X := overlap_axis alx ahx blx bhx
                   ltac:(assumption) ltac:(assumption)
                   ltac:(assumption) ltac:(assumption)).
    assert (Y := overlap_axis aly ahy bly bhy
                   ltac:(assumption) ltac:(assumption)
                   ltac:(assumption) ltac:(assumption)).
    assert (Z := overlap_axis alz ahz blz bhz
                   ltac:(assumption) ltac:(assumption)
                   ltac:(assumption) ltac:(assumption)).
    tauto.
  - intros [p [Hpa Hpb]]. unbox. split_all;
      eapply fle_trans; eassumption.
Qed.

Lemma DoesOverlap_point_ignores_z (b : Box.t) (p : vec3.t) (z' : float) :
  Box.DoesOverlap_point b p
  = Box.DoesOverlap_point b (vec3.mk (vec3.x p) (vec3.y p) z').
Proof. reflexivity. Qed.

Lemma DoesOverlap_point_xy (b : Box.t) (p : vec3.t) :
  Box.DoesOverlap_point b p = true <->
  (fle (vec3.x (Box.min b)) (vec3.x p) = true
   /\ fle (vec3.x p) (vec3.x (Box.max b)) = true)
  /\ (fle (vec3.y (Box.min b)) (vec3.y p) = true
      /\ fle (vec3.y p) (vec3.y (Box.max b)) = true).
Proof.
  unfold Box.DoesOverlap_point, fge. rewrite !andb_true_iff. tauto.
Qed.

(** ** Signs and NaN through the arithmetic *)

Section Rounding.

Lemma iter_pos_inv {A : Type} (P : A -> Prop) (f : A -> A) :
  (forall a, P a -> P (f a)) ->
  forall n a, P a -> P (iter_pos f n a).
Proof.
  intros Hf. induction n as [n IH|n IH|]; intros a Ha; simpl; auto.
Qed.

Lemma shr_1_nonneg (mrs : shr_record) :
  0 <= shr_m mrs -> 0 <= shr_m (shr_1 mrs).
Proof.
  destruct mrs as [m r s]. simpl.
  destruct m as [|[p|p|]|[p|p|]]; simpl; lia.
Qed.

Lemma shr_nonneg (mrs : shr_record) (e n : Z) :
  0 <= shr_m mrs -> 0 <= shr_m (fst (shr mrs e n)).
Proof.
  intros H. unfold shr. destruct n; simpl; auto.
  apply (iter_pos_inv (fun r => 0 <= shr_m r)); auto using shr_1_nonneg.
Qed.

Lemma shr_fexp_nonneg (m e : Z) (l : location) :
  0 <= m -> 0 <= shr_m (fst (shr_fexp prec emax m e l)).
Proof.
  intros H. unfold shr_fexp. apply shr_nonneg.
  destruct l as [|[| |]]; simpl; auto.
Qed.

Lemma round_nearest_even_nonneg (m : Z) (l : location) :
  0 <= m -> 0 <= round_nearest_even m l.
Proof.
  intros H. destruct l as [|[| |]]; simpl; try lia.
  destruct (Z.even m); lia.
Qed.

Lemma binary_round_aux_signed (s : bool) (m e : Z) (l : location) :
  0 <= m -> signed s (binary_round_aux prec emax s m e l).
Proof.
  intros H. unfold binary_round_aux.
  pose proof (shr_fexp_nonneg m e l H) as H1.
  destruct (shr_fexp prec emax m e l) as [mrs' e'].
  simpl in H1.
  pose proof (shr_fexp_nonneg _ e' loc_Exact
                (round_nearest_even_nonneg _ (loc_of_shr_record mrs') H1)) as H2.
  destruct (shr_fexp prec emax _ e' loc_Exact) as [mrs'' e''].
  simpl in H2.
  destruct (shr_m mrs'') as [|p|p]; [ | | lia].
  - split; reflexivity.
  - destruct (e'' <=? emax - prec); split; reflexivity.
Qed.

Lemma binary_round_signed (s : bool) (m : positive) (e : Z) :
  signed s (binary_round prec emax s m e).
Proof.
  unfold binary_round.
  destruct (shl_align m e _) as [mz ez].
  apply binary_round_aux_signed. lia.
Qed.

Lemma binary_round_aux_opp (s : bool) (m e : Z) (l : location) :
  binary_round_aux prec emax (negb s) m e l
  = SFopp (binary_round_aux prec emax s m e l).
Proof.
  unfold binary_round_aux.
  destruct (shr_fexp prec emax m e l) as [mrs' e'].
  destruct (shr_fexp prec emax _ e' loc_Exact) as [mrs'' e''].
  destruct (shr_m mrs''); try reflexivity.
  destruct (e'' <=? emax - prec); reflexivity.
Qed.

Lemma binary_round_opp (s : bool) (m : positive) (e : Z) :
  binary_round prec emax (negb s) m e = SFopp (binary_round prec emax s m e).
Proof.
  unfold binary_round. destruct (shl_align m e _) as [mz ez].
  apply binary_round_aux_opp.
Qed.

Lemma binary_normalize_opp (m e : Z) :
  fequiv (binary_normalize prec emax (- m) e false)
         (SFopp (binary_normalize prec emax m e false)).
Proof.
  destruct m as [|p|p]; simpl.
  - right. split; reflexivity.
  - left. apply (binary_round_opp false).
  - left. rewrite (binary_round_opp false). 
    destruct (binary_round prec emax false p e) as [[|]|[|]| |[|] ? ?]; reflexivity.
Qed.

End Rounding.

Section Arithmetic.

Lemma fmul_comm (x y : float) : fmul x y = fmul y x.
Proof.
  destruct x as [sx|sx| |sx mx ex], y as [sy|sy| |sy my ey]; simpl;
    try rewrite (xorb_comm sx sy); try reflexivity.
  unfold fmul, SFmul. now rewrite Pos.mul_comm, Z.add_comm, xorb_comm.
Qed.

Lemma fmul_num (x y : float) : num (fmul x y) -> num x /\ num y.
Proof.
  destruct x as [sx|sx| |sx mx ex], y as [sy|sy| |sy my ey];
    cbv [num is_nan fmul SFmul]; intros; split; congruence.
Qed.

Lemma fsub_num (x y : float) : num (fsub x y) -> num x /\ num y.
Proof.
  destruct x as [sx|sx| |sx mx ex], y as [sy|sy| |sy my ey];
    cbv [num is_nan fsub SFsub]; intros; split; congruence.
Qed.

Lemma fsub_swap (x y : float) : fequiv (fsub y x) (fneg (fsub x y)).
Proof.
  destruct x as [sx|sx| |sx mx ex], y as [sy|sy| |sy my ey];
    try (destruct sx, sy; simpl; (left; reflexivity) || (right; split; reflexivity));
    try (destruct sx; simpl; left; reflexivity);
    try (destruct sy; simpl; left; reflexivity);
    try (left; reflexivity).
  unfold fsub, SFsub, fneg. rewrite (Z.min_comm ey ex).
  set (a := cond_Zopp sx _). set (b := cond_Zopp sy _).
  replace (b - a) with (- (a - b)) by lia.
  apply binary_normalize_opp.
Qed.

Lemma fmul_square_signed (x : float) : num x -> signed false (fmul x x).
Proof.
  destruct x as [s|s| |s m e]; intros H; try discriminate;
    try (destruct s; split; reflexivity).
  unfold fmul, SFmul. rewrite xorb_nilpotent.
  apply binary_round_aux_signed. lia.
Qed.

Lemma fadd_signed_false (x y : float) :
  signed false x -> signed false y -> signed false (fadd x y).
Proof.
  intros [Hx Sx] [Hy Sy].
  destruct x as [sx|sx| |sx mx ex], y as [sy|sy| |sy my ey];
    try discriminate; simpl in Sx, Sy; subst; try (split; reflexivity).
  unfold fadd, SFadd. simpl cond_Zopp. 
  apply (binary_round_signed false).
Qed.

Lemma fmul_signed_false (x t : float) :
  signed false x -> signed false t -> isfinite t = true ->
  flt f0 t = true -> signed false (fmul x t).
Proof.
  intros [Hx Sx] [Ht St] Hf Hpos.
  destruct x as [sx|sx| |sx mx ex], t as [st|st| |st mt et];
    try discriminate; simpl in Sx, St; subst; try (split; reflexivity).
  unfold fmul, SFmul. apply binary_round_aux_signed. lia.
Qed.

Lemma fle_zero_signed (x : float) : signed false x -> fle f0 x = true.
Proof.
  intros [Hx Sx]. destruct x as [s|s| |s m e]; try discriminate;
    simpl in Sx; subst; reflexivity.
Qed.

End Arithmetic.

Section Equivalence.

Lemma key_eq_fequiv (x y : float) : num x -> num y -> key_eq x y -> fequiv x y.
Proof.
  unfold key_eq, fequiv.
  destruct x as [sx|sx| |sx mx ex], y as [sy|sy| |sy my ey];
    try destruct sx; try destruct sy; simpl; intros Hx Hy (K1 & K2 & K3);
    try discriminate; try lia; auto.
  - left. f_equal; [congruence | lia].
  - left. f_equal; [congruence | lia].
Qed.

Lemma max_swap (a b : float) : num a -> num b -> fequiv (max a b) (max b a).
Proof.
  intros Ha Hb. unfold max.
  destruct (flt a b) eqn:E1, (flt b a) eqn:E2.
  - exfalso. forder.
  - left; reflexivity.
  - left; reflexivity.
  - apply key_eq_fequiv; auto. fkeys. unfold key_le, key_lt, key_eq in *. lia.
Qed.

Lemma fmul_fequiv_l (x x' t : float) :
  fequiv x x' -> fequiv (fmul x t) (fmul x' t).
Proof.
  intros [->|[Hx Hx']]; [left; reflexivity|].
  destruct x as [sx|sx| |sx mx ex]; try discriminate.
  destruct x' as [sx'|sx'| |sx' mx' ex']; try discriminate.
  destruct t as [st|st| |st mt et]; simpl;
    (left; reflexivity) || (right; split; reflexivity).
Qed.

Lemma fle_fequiv_r (x y y' : float) : fequiv y y' -> fle x y = fle x y'.
Proof.
  intros [->|[Hy Hy']]; [reflexivity|].
  destruct y as [sy|sy| |sy my ey]; try discriminate.
  destruct y' as [sy'|sy'| |sy' my' ey']; try discriminate.
  destruct x as [sx|sx| |sx mx ex]; reflexivity.
Qed.

Lemma fmul_neg_square (x : float) : fmul (fneg x) (fneg x) = fmul x x.
Proof.
  destruct x as [s|s| |s m e]; try destruct s; reflexivity.
Qed.

Lemma fmul_zero_square (x : float) : is_zero x = true -> fmul x x = f0.
Proof. destruct x as [s|s| |s m e]; try discriminate. destruct s; reflexivity. Qed.

Lemma fgt_neg (x : float) :
  num x -> is_zero x = false -> fgt (fneg x) f0 = negb (fgt x f0).
Proof.
  destruct x as [s|s| |s m e]; try discriminate; destruct s; reflexivity.
Qed.

Lemma max_signed (a b : float) :
  signed false a -> signed false b -> signed false (max a b).
Proof. intros Ha Hb. unfold max. destruct (flt a b); assumption. Qed.

Lemma dot2_self_signed (v : vec2.t) :
  num (vec2.x v) -> num (vec2.y v) -> signed false (dot2 v v).
Proof.
  intros Hx Hy. unfold dot2.
  apply fadd_signed_false; apply fmul_square_signed; assumption.
Qed.

End Equivalence.

(** ** CCW *)

Section CCWFacts.

(** C5, as amended: for a finite tolerance [tol > 0] and points whose
    area [v1.x * v2.y - v1.y * v2.x] is not a NaN, swapping the last two
    points negates the answer of [CCW]. *)
Theorem CCW_antisymmetric (p0 p1 p2 : vec2.t) (tol : float) :
  flt f0 tol = true -> isfinite tol = true ->
  num (CCW_area p0 p1 p2) ->
  CCW p0 p1 p2 tol = - CCW p0 p2 p1 tol.
Proof.
  intros Htol Hfin HA. unfold CCW, CCW_area, cross2 in *.
  set (v1 := sub2 p1 p0) in *. set (v2 := sub2 p2 p0) in *.
  set (a := fmul (vec2.x v1) (vec2.y v2)) in *.
  set (b := fmul (vec2.y v1) (vec2.x v2)) in *.
  rewrite (fmul_comm (vec2.x v2) (vec2.y v1)).
  rewrite (fmul_comm (vec2.y v2) (vec2.x v1)).
  fold a b.
  destruct (fsub_num _ _ HA) as [Ha Hb].
  destruct (fmul_num _ _ Ha) as [H1x H2y].
  destruct (fmul_num _ _ Hb) as [H1y H2x].
  pose proof (dot2_self_signed v1 H1x H1y) as Hd1.
  pose proof (dot2_self_signed v2 H2x H2y) as Hd2.
  set (d1 := dot2 v1 v1) in *. set (d2 := dot2 v2 v2) in *.
  assert (Ht : signed false tol).
  { destruct tol as [s|s| |s m e]; try discriminate; destruct s;
      try discriminate; split; reflexivity. }
  assert (Hbound : signed false (fmul (fmul (max d1 d2) tol) tol)).
  { apply fmul_signed_false; auto. apply fmul_signed_false; auto.
    apply max_signed; auto. }
  assert (Ebound : fequiv (fmul (fmul (max d2 d1) tol) tol)
                          (fmul (fmul (max d1 d2) tol) tol)).
  { apply fmul_fequiv_l, fmul_fequiv_l, max_swap; [apply Hd2 | apply Hd1]. }
  rewrite (fle_fequiv_r _ _ _ Ebound).
  set (A := fsub a b) in *.
  destruct (fsub_swap a b) as [E|[Z1 Z2]]; fold A in E || fold A in Z2.
  - (* the swapped area is the negated area *)
    rewrite E, fmul_neg_square.
    destruct (fle (fmul A A) _) eqn:Ecol; [reflexivity|].
    assert (HZ : is_zero A = false).
    { destruct (is_zero A) eqn:EZ; [|reflexivity].
      rewrite (fmul_zero_square A EZ), (fle_zero_signed _ Hbound) in Ecol.
      discriminate. }
    rewrite (fgt_neg A HA HZ). destruct (fgt A f0); reflexivity.
  - (* both areas are zero *)
    assert (Z3 : is_zero A = true) by (destruct A; try discriminate; reflexivity).
    rewrite (fmul_zero_square _ Z1), (fmul_zero_square _ Z3).
    rewrite (fle_zero_signed _ Hbound). reflexivity.
Qed.

End CCWFacts.

Section CCWSign.

Lemma fadd_num (x y : float) : num (fadd x y) -> num x /\ num y.
Proof.
  destruct x as [sx|sx| |sx mx ex], y as [sy|sy| |sy my ey];
    cbv [num is_nan fadd SFadd]; intros; split; congruence.
Qed.

Lemma fmul_sign (x y : float) :
  num (fmul x y) -> sign_bit (fmul x y) = xorb (sign_bit x) (sign_bit y).
Proof.
  destruct x as [sx|sx| |sx mx ex], y as [sy|sy| |sy my ey];
    try discriminate; try reflexivity.
  intros _. unfold fmul, SFmul.
  apply (binary_round_aux_signed (xorb sx sy)). lia.
Qed.

Lemma dot2_self_num (v : vec2.t) : num (dot2 v v) -> signed false (dot2 v v).
Proof.
  intros H. destruct (fadd_num _ _ H) as [Hx Hy].
  apply dot2_self_signed.
  - apply (fmul_num _ _ Hx).
  - apply (fmul_num _ _ Hy).
Qed.

Lemma CCW_base2_signed (p0 p1 p2 : vec2.t) :
  num (CCW_base2 p0 p1 p2) -> signed false (CCW_base2 p0 p1 p2).
Proof.
  unfold CCW_base2, max.
  destruct (flt _ _); intro H; apply dot2_self_num, H.
Qed.

Lemma CCW_bound_signed (p0 p1 p2 : vec2.t) (tol : float) :
  num (fmul (fmul (CCW_base2 p0 p1 p2) tol) tol) ->
  signed false (fmul (fmul (CCW_base2 p0 p1 p2) tol) tol).
Proof.
  intros H. split; [exact H|].
  rewrite (fmul_sign _ _ H).
  destruct (fmul_num _ _ H) as [H1 _].
  rewrite (fmul_sign _ _ H1).
  destruct (fmul_num _ _ H1) as [H2 _].
  destruct (CCW_base2_signed _ _ _ H2) as [_ ->].
  simpl. apply xorb_nilpotent.
Qed.

Lemma feq_fle (x y : float) : feq x y = true -> fle x y = true.
Proof.
  unfold feq, fle, SFeqb, SFleb. destruct (SFcompare x y) as [[| |]|]; auto.
Qed.

Lemma num_sign_cases (x : float) :
  num x -> is_zero x = false -> 
  (fgt x f0 = true /\ Signum x = 1) \/ (flt x f0 = true /\ Signum x = -1).
Proof.
  destruct x as [s|s| |s m e]; try discriminate; destruct s; intros _ _;
    (left; split; reflexivity) || (right; split; reflexivity).
Qed.

End CCWSign.

(** ** Rounding to nearest *)

Section RoundNearest.

Lemma pow2_pos (k : Z) : 0 <= k -> 0 < 2 ^ k.
Proof. intros. apply Z.pow_pos_nonneg; lia. Qed.

Lemma rne_bounds (m k : Z) :
  0 <= k -> m / 2 ^ k <= rne m k <= m / 2 ^ k + 1.
Proof.
  intros Hk. unfold rne.
  destruct (2 * (m mod 2 ^ k) ?= 2 ^ k); try destruct (Z.even _); lia.
Qed.

Lemma rne_exact (c k : Z) : 0 <= k -> rne (c * 2 ^ k) k = c.
Proof.
  intros Hk. pose proof (pow2_pos k Hk) as Hp. unfold rne.
  rewrite Z.mod_mul, Z.div_mul by lia.
  destruct (Z.compare_spec (2 * 0) (2 ^ k)); try lia.
Qed.

Lemma rne_mono (m1 m2 k : Z) :
  0 <= k -> m1 <= m2 -> rne m1 k <= rne m2 k.
Proof.
  intros Hk Hm. pose proof (pow2_pos k Hk) as Hp. unfold rne.
  pose proof (Z.div_mod m1 (2 ^ k) ltac:(lia)) as D1.
  pose proof (Z.div_mod m2 (2 ^ k) ltac:(lia)) as D2.
  pose proof (Z.mod_pos_bound m1 (2 ^ k) Hp) as B1.
  pose proof (Z.mod_pos_bound m2 (2 ^ k) Hp) as B2.
  set (h := 2 ^ k) in *. set (q1 := m1 / h) in *. set (q2 := m2 / h) in *.
  set (r1 := m1 mod h) in *. set (r2 := m2 mod h) in *.
  assert (Hq : q1 <= q2) by (apply Z.div_le_mono; lia).
  assert (Hcase : q1 < q2 \/ (q1 = q2 /\ r1 <= r2)) by nia.
  destruct (Z.compare_spec (2 * r1) h), (Z.compare_spec (2 * r2) h);
    repeat match goal with |- context [Z.even ?q] => destruct (Z.even q) eqn:? end;
    try lia;
    destruct Hcase as [Hc|[Hc Hr]]; try lia;
    try (subst q2; congruence).
Qed.

Lemma rne_scale (m k j : Z) :
  0 <= k -> 0 <= j -> rne (m * 2 ^ j) (k + j) = rne m k.
Proof.
  intros Hk Hj. pose proof (pow2_pos k Hk). pose proof (pow2_pos j Hj).
  unfold rne. rewrite Z.pow_add_r by lia.
  rewrite Z.div_mul_cancel_r by lia.
  rewrite Z.mul_mod_distr_r by lia.
  replace (2 * (m mod 2 ^ k * 2 ^ j)) with (2 * (m mod 2 ^ k) * 2 ^ j) by ring.
  rewrite <- Zmult_compare_compat_r by lia. reflexivity.
Qed.

Lemma rne_le (m k c : Z) : 0 <= k -> m <= c * 2 ^ k -> rne m k <= c.
Proof.
  intros Hk H. rewrite <- (rne_exact c k Hk). apply rne_mono; assumption.
Qed.

Lemma rne_ge (m k c : Z) : 0 <= k -> c * 2 ^ k <= m -> c <= rne m k.
Proof.
  intros Hk H. rewrite <- (rne_exact c k Hk). apply rne_mono; assumption.
Qed.

Lemma rne_zero (m : Z) : rne m 0 = m.
Proof. rewrite <- (Z.mul_1_r m) at 1. apply (rne_exact m 0). lia. Qed.

End RoundNearest.

(** ** What the shifts of [binary_round_aux] compute *)

Section Shifts.

Lemma iter_pos_nat {A : Type} (f : A -> A) (n : positive) (x : A) :
  iter_pos f n x = Nat.iter (Pos.to_nat n) f x.
Proof.
  assert (Hadd : forall a b y, Nat.iter (a + b) f y = Nat.iter a f (Nat.iter b f y)).
  { induction a; intros; simpl; [reflexivity | now rewrite IHa]. }
  assert (Hr : forall a y, Nat.iter a f (f y) = f (Nat.iter a f y)).
  { induction a; intros; simpl; [reflexivity | now rewrite IHa]. }
  revert x. induction n as [n IH|n IH|]; intros x; simpl iter_pos.
  - rewrite !IH, Pos2Nat.inj_xI.
    replace (S (2 * Pos.to_nat n))%nat
      with (Pos.to_nat n + (Pos.to_nat n + 1))%nat by lia.
    rewrite !Hadd. simpl. reflexivity.
  - rewrite !IH, Pos2Nat.inj_xO.
    replace (2 * Pos.to_nat n)%nat with (Pos.to_nat n + Pos.to_nat n)%nat by lia.
    rewrite Hadd. reflexivity.
  - reflexivity.
Qed.

Lemma shr_1_spec (q : Z) (r s : bool) :
  0 <= q ->
  shr_1 (Build_shr_record q r s) = Build_shr_record (q / 2) (Z.odd q) (r || s).
Proof.
  intros Hq. destruct q as [|p|p]; [reflexivity| |lia].
  destruct p as [p|p|]; simpl shr_1; f_equal.
  - rewrite Pos2Z.inj_xI. apply Z.div_unique with 1; lia.
  - rewrite Pos2Z.inj_xO. apply Z.div_unique with 0; lia.
Qed.

Lemma shr_inv_0 (m : Z) : shr_inv m 0 (Build_shr_record m false false).
Proof.
  unfold shr_inv, loc_of. simpl. rewrite Z.div_1_r, Z.mod_1_r. split; reflexivity.
Qed.

Lemma shr_inv_step (m k : Z) (rec : shr_record) :
  0 <= m -> 0 <= k -> shr_inv m k rec -> shr_inv m (k + 1) (shr_1 rec).
Proof.
  intros Hm Hk [Hq Hl]. destruct rec as [q r s]. simpl in Hq.
  pose proof (pow2_pos k Hk) as Hp.
  assert (Hq0 : 0 <= q) by (subst q; apply Z.div_pos; lia).
  rewrite shr_1_spec by assumption.
  assert (E2 : 2 ^ (k + 1) = 2 ^ k * 2) by (rewrite Z.pow_add_r; lia).
  unfold shr_inv. rewrite E2. simpl shr_m. split.
  - rewrite <- Z.div_div by lia. now rewrite Hq.
  - rewrite Z.rem_mul_r by lia. rewrite <- Hq.
    pose proof (Z.mod_pos_bound m (2 ^ k) Hp) as Hb.
    set (rem := m mod 2 ^ k) in *. set (h := 2 ^ k) in *.
    assert (Hs : (r || s) = negb (rem =? 0)).
    { unfold loc_of in Hl. simpl in Hl.
      destruct (Z.eqb_spec rem 0); destruct r, s; simpl in *; congruence. }
    pose proof (Z.mod_pos_bound q 2 ltac:(lia)) as Hb2.
    assert (Ho : Z.odd q = (q mod 2 =? 1)).
    { rewrite Zmod_odd. destruct (Z.odd q); reflexivity. }
    simpl loc_of_shr_record. rewrite Hs, Ho. unfold loc_of.
    destruct (Z.eqb_spec (q mod 2) 1) as [E1|E1];
      destruct (Z.eqb_spec rem 0) as [E0|E0];
      destruct (Z.eqb_spec (rem + h * (q mod 2)) 0) as [E3|E3];
      cbv beta iota delta [negb];
      try reflexivity; try nia;
      try (f_equal; symmetry;
           first [apply Z.compare_eq_iff | apply Z.compare_lt_iff
                 | apply Z.compare_gt_iff]; nia).
Qed.
End Shifts.

Section RoundSpec.

Lemma shr_iter_inv (m : Z) (k : nat) :
  0 <= m ->
  shr_inv m (Z.of_nat k) (Nat.iter k shr_1 (Build_shr_record m false false)).
Proof.
  intros Hm. induction k as [|k IH].
  - apply shr_inv_0.
  - rewrite Nat2Z.inj_succ. unfold Z.succ. simpl Nat.iter.
    apply shr_inv_step; [assumption | lia | assumption].
Qed.

Lemma shr_spec (m e : Z) (p : positive) :
  0 <= m ->
  shr_inv m (Zpos p) (fst (shr (Build_shr_record m false false) e (Zpos p)))
  /\ snd (shr (Build_shr_record m false false) e (Zpos p)) = e + Zpos p.
Proof.
  intros Hm. unfold shr. simpl fst. simpl snd. split; [|reflexivity].
  rewrite iter_pos_nat. rewrite <- positive_nat_Z. apply shr_iter_inv, Hm.
Qed.

Lemma rne_of_inv (m k : Z) (r : shr_record) :
  0 <= k -> shr_inv m k r ->
  round_nearest_even (shr_m r) (loc_of_shr_record r) = rne m k.
Proof.
  intros Hk [Hq Hl]. pose proof (pow2_pos k Hk) as Hp.
  pose proof (Z.mod_pos_bound m (2 ^ k) Hp) as Hb.
  rewrite Hl, Hq. unfold loc_of, rne.
  destruct (Z.eqb_spec (m mod 2 ^ k) 0) as [E|E].
  - rewrite E. simpl round_nearest_even.
    destruct (Z.compare_spec (2 * 0) (2 ^ k)); try lia; reflexivity.
  - simpl. destruct (2 * (m mod 2 ^ k) ?= 2 ^ k); reflexivity.
Qed.

Lemma shr_fexp_exact (m e : Z) :
  0 <= m ->
  let '(r, e') := shr_fexp prec emax m e loc_Exact in
  (round_nearest_even (shr_m r) (loc_of_shr_record r), e')
  = round_to m e (fexp32 (Zdigits2 m + e))
  /\ (shr_m r, e') = shift_to m e (fexp32 (Zdigits2 m + e)).
Proof.
  intros Hm. unfold shr_fexp, round_to, shift_to, fexp32.
  set (n := fexp prec emax (Zdigits2 m + e) - e).
  simpl shr_record_of_loc.
  destruct n as [|p|p] eqn:En.
  - simpl. split; reflexivity.
  - destruct (shr_spec m e p Hm) as [Hi He].
    destruct (shr _ e (Z.pos p)) as [r e'] eqn:Es. simpl in Hi, He.
    change (0 <? Z.pos p) with true. cbv iota.
    rewrite (rne_of_inv m (Z.pos p) r ltac:(lia) Hi).
    destruct Hi as [Hq _]. rewrite Hq, He. unfold n in En.
    replace (e + Z.pos p) with (fexp prec emax (Zdigits2 m + e)) by lia.
    split; reflexivity.
  - simpl. split; reflexivity.
Qed.

Lemma binary_round_aux_spec (s : bool) (m e : Z) :
  0 <= m ->
  binary_round_aux prec emax s m e loc_Exact = finish s (round_pos m e).
Proof.
  intros Hm. unfold binary_round_aux, round_pos.
  pose proof (shr_fexp_exact m e Hm) as H1.
  pose proof (shr_fexp_nonneg m e loc_Exact Hm) as Hn.
  destruct (shr_fexp prec emax m e loc_Exact) as [r1 e1].
  destruct H1 as [H1 _]. rewrite <- H1. simpl in Hn.
  set (m1 := round_nearest_even _ _).
  assert (Hm1 : 0 <= m1) by (apply round_nearest_even_nonneg, Hn).
  pose proof (shr_fexp_exact m1 e1 Hm1) as H2.
  destruct (shr_fexp prec emax m1 e1 loc_Exact) as [r2 e2].
  destruct H2 as [_ H2]. rewrite <- H2. reflexivity.
Qed.

End RoundSpec.

(** ** Digits *)

Section Digits.

Lemma digits2_pos_bounds (p : positive) :
  2 ^ (Zpos (digits2_pos p) - 1) <= Zpos p < 2 ^ Zpos (digits2_pos p).
Proof.
  induction p as [p IH|p IH|]; simpl digits2_pos.
  - rewrite Pos2Z.inj_succ. change (Z.pos p~1) with (2 * Z.pos p + 1).
    replace (Z.succ (Z.pos (digits2_pos p)) - 1)
      with (Z.succ (Z.pos (digits2_pos p) - 1)) by lia.
    rewrite !Z.pow_succ_r by lia. lia.
  - rewrite Pos2Z.inj_succ. change (Z.pos p~0) with (2 * Z.pos p).
    replace (Z.succ (Z.pos (digits2_pos p)) - 1)
      with (Z.succ (Z.pos (digits2_pos p) - 1)) by lia.
    rewrite !Z.pow_succ_r by lia. lia.
  - simpl. lia.
Qed.

Lemma Zdigits2_bounds (m : Z) :
  0 < m -> 0 < Zdigits2 m /\ 2 ^ (Zdigits2 m - 1) <= m < 2 ^ Zdigits2 m.
Proof.
  destruct m as [|p|p]; try lia. intros _. simpl Zdigits2.
  split; [lia | apply digits2_pos_bounds].
Qed.

Lemma Zdigits2_le (m c : Z) : 0 < m -> 0 <= c -> m < 2 ^ c -> Zdigits2 m <= c.
Proof.
  intros Hm Hc H. destruct (Zdigits2_bounds m Hm) as [Hd [Hl _]].
  destruct (Z_le_gt_dec (Zdigits2 m) c) as [|Hgt]; [assumption|].
  exfalso. assert (2 ^ c <= 2 ^ (Zdigits2 m - 1)) by (apply Z.pow_le_mono_r; lia).
  lia.
Qed.

Lemma Zdigits2_pow (c : Z) : 0 <= c -> Zdigits2 (2 ^ c) = c + 1.
Proof.
  intros Hc. pose proof (pow2_pos c Hc) as Hp.
  destruct (Zdigits2_bounds _ Hp) as [Hd [Hl Hu]].
  assert (c < Zdigits2 (2 ^ c)) by (apply (Z.pow_lt_mono_r_iff 2); lia).
  assert (Zdigits2 (2 ^ c) - 1 <= c) by (apply (Z.pow_le_mono_r_iff 2); lia).
  lia.
Qed.

Lemma fexp32_spec (d : Z) : fexp32 d = Z.max (d - 24) (-149).
Proof. reflexivity. Qed.

End Digits.

(** ** The outcome of rounding a positive integer *)

Section RoundPos.
Variables m e : Z.
Hypothesis Hm : 0 < m.
Hypothesis Hpre : e <= fexp32 (Zdigits2 m + e).

Let E := fexp32 (Zdigits2 m + e).
Let m1 := rne m (E - e).

Lemma round_to_pre : round_to m e E = (m1, E).
Proof.
  unfold round_to. destruct (Z.ltb_spec 0 (E - e)) as [H|H]; [reflexivity|].
  assert (E = e) by (unfold E in *; lia). unfold m1. rewrite H0.
  rewrite Z.sub_diag, rne_zero. reflexivity.
Qed.

Lemma m1_upper : 0 <= m1 <= 2 ^ 24.
Proof.
  destruct (Zdigits2_bounds m Hm) as [Hd [Hl Hu]].
  assert (Hn : 0 <= E - e) by (unfold E; lia).
  split.
  - unfold m1. pose proof (rne_bounds m (E - e) Hn).
    assert (0 <= m / 2 ^ (E - e)) by (apply Z.div_pos; [lia | apply pow2_pos; lia]).
    lia.
  - apply rne_le; [assumption|].
    rewrite <- Z.pow_add_r by lia.
    assert (2 ^ Zdigits2 m <= 2 ^ (24 + (E - e))).
    { apply Z.pow_le_mono_r; [lia|]. unfold E. rewrite fexp32_spec. lia. }
    lia.
Qed.

Lemma m1_lower : -149 < E -> 2 ^ 23 <= m1.
Proof.
  intros HE. destruct (Zdigits2_bounds m Hm) as [Hd [Hl Hu]].
  assert (HE' : E = Zdigits2 m + e - 24)
    by (unfold E in *; rewrite fexp32_spec in *; lia).
  apply rne_ge; [lia|].
  rewrite <- Z.pow_add_r by lia.
  replace (23 + (E - e)) with (Zdigits2 m - 1) by lia. lia.
Qed.

Lemma round_pos_cases :
  (m1 < 2 ^ 24 /\ round_pos m e = (m1, E))
  \/ (m1 = 2 ^ 24 /\ round_pos m e = (2 ^ 23, E + 1)).
Proof.
  pose proof m1_upper as [H0 H1].
  assert (HEmin : -149 <= E) by (unfold E; rewrite fexp32_spec; lia).
  unfold round_pos. fold E. rewrite round_to_pre.
  destruct (Z.eq_dec m1 (2 ^ 24)) as [Heq|Hne].
  - right. split; [assumption|]. rewrite Heq, (Zdigits2_pow 24) by lia.
    unfold shift_to. rewrite fexp32_spec.
    replace (Z.max (24 + 1 + E - 24) (-149) - E) with 1 by lia.
    change (0 <? 1) with true. cbv iota. f_equal; try reflexivity; lia.
  - left. split; [lia|]. unfold shift_to.
    destruct (Z.eq_dec m1 0) as [Hz|Hnz].
    + rewrite Hz. simpl Zdigits2. rewrite fexp32_spec.
      destruct (Z.ltb_spec 0 (Z.max (0 + E - 24) (-149) - E)); [lia|reflexivity].
    + assert (Hd : Zdigits2 m1 <= 24) by (apply Zdigits2_le; lia).
      rewrite fexp32_spec.
      destruct (Z.ltb_spec 0 (Z.max (Zdigits2 m1 + E - 24) (-149) - E));
        [lia|reflexivity].
Qed.

End RoundPos.

(** ** Rounding is monotone *)

Section RoundMono.

Lemma finish_signed (s : bool) (me : Z * Z) :
  0 <= fst me -> signed s (finish s me).
Proof.
  destruct me as [m1 e1]. unfold finish. simpl fst. simpl snd. intros H.
  destruct m1 as [|p|p]; [| |lia].
  - split; reflexivity.
  - destruct (e1 <=? emax - prec); split; reflexivity.
Qed.

Lemma finish_le (ma ea mb eb : Z) :
  0 <= ma -> 0 <= mb ->
  ma = 0 \/ (0 < mb /\ (ea < eb \/ (ea = eb /\ ma <= mb))) ->
  fle (finish false (ma, ea)) (finish false (mb, eb)) = true.
Proof.
  intros Ha Hb H. unfold finish. simpl fst. simpl snd.
  destruct ma as [|pa|pa]; [| |lia]; destruct mb as [|pb|pb]; try lia.
  - reflexivity.
  - destruct (eb <=? emax - prec); reflexivity.
  - destruct H as [H|[_ H]]; [lia|].
    unfold emax, prec in *.
    destruct (Z.leb_spec ea (128 - 24)), (Z.leb_spec eb (128 - 24));
      try reflexivity; try lia.
    apply fle_true. repeat split.
    unfold key_le, key_lt, key_eq. simpl. lia.
Qed.

Lemma round_mono (ma ea mb eb K : Z) :
  0 < ma -> 0 < mb -> 0 <= ea + K -> 0 <= eb + K ->
  ea <= fexp32 (Zdigits2 ma + ea) -> eb <= fexp32 (Zdigits2 mb + eb) ->
  ma * 2 ^ (ea + K) <= mb * 2 ^ (eb + K) ->
  fle (finish false (round_pos ma ea)) (finish false (round_pos mb eb)) = true.
Proof.
  intros Hma Hmb Hea Heb Hpa Hpb Hv.
  destruct (Zdigits2_bounds ma Hma) as [Hda [Hla Hua]].
  destruct (Zdigits2_bounds mb Hmb) as [Hdb [Hlb Hub]].
  set (da := Zdigits2 ma + ea) in *. set (db := Zdigits2 mb + eb) in *.
  assert (Hd : da <= db).
  { assert (H1 : 2 ^ (Zdigits2 ma - 1) * 2 ^ (ea + K) <= ma * 2 ^ (ea + K))
      by (apply Z.mul_le_mono_nonneg_r; [apply Z.lt_le_incl, pow2_pos|]; lia).
    assert (H2 : mb * 2 ^ (eb + K) < 2 ^ Zdigits2 mb * 2 ^ (eb + K))
      by (apply Z.mul_lt_mono_pos_r; [apply pow2_pos|]; lia).
    rewrite <- Z.pow_add_r in H1, H2 by lia.
    assert (H3 : Zdigits2 ma - 1 + (ea + K) < Zdigits2 mb + (eb + K))
      by (apply (Z.pow_lt_mono_r_iff 2); lia).
    unfold da, db. lia. }
  set (Ea := fexp32 da) in *. set (Eb := fexp32 db) in *.
  assert (HE : Ea <= Eb) by (unfold Ea, Eb; rewrite !fexp32_spec; lia).
  pose proof (m1_upper ma ea Hma Hpa) as [Ha0 Ha1].
  pose proof (m1_upper mb eb Hmb Hpb) as [Hb0 Hb1].
  fold da Ea in Ha0, Ha1. fold db Eb in Hb0, Hb1.
  pose proof (round_pos_cases ma ea Hma Hpa) as Ca.
  pose proof (round_pos_cases mb eb Hmb Hpb) as Cb.
  fold da Ea in Ca. fold db Eb in Cb.
  set (m1a := rne ma (Ea - ea)) in *. set (m1b := rne mb (Eb - eb)) in *.
  assert (P23 : 0 < 2 ^ 23) by (apply pow2_pos; lia).
  assert (P24 : 2 ^ 24 = 2 * 2 ^ 23) by reflexivity.
  destruct (Z.eq_dec Ea Eb) as [Heq|Hne].
  - (* the same exponent: the mantissas are ordered *)
    assert (Hm1 : m1a <= m1b).
    { unfold m1a, m1b.
      rewrite <- (rne_scale ma (Ea - ea) (ea + K)) by lia.
      rewrite <- (rne_scale mb (Eb - eb) (eb + K)) by lia.
      replace (Ea - ea + (ea + K)) with (Eb - eb + (eb + K)) by lia.
      apply rne_mono; lia. }
    destruct Ca as [[Ha2 ->]|[Ha2 ->]], Cb as [[Hb2 ->]|[Hb2 ->]];
      apply finish_le; lia.
  - (* a smaller exponent: the second result is normal *)
    assert (Hb3 : 2 ^ 23 <= m1b).
    { apply (m1_lower mb eb Hmb Hpb). fold db Eb.
      unfold Ea in *. rewrite fexp32_spec in *. lia. }
    destruct Ca as [[Ha2 ->]|[Ha2 ->]], Cb as [[Hb2 ->]|[Hb2 ->]];
      apply finish_le; lia.
Qed.

End RoundMono.

(** ** Values of binary32 numbers *)

Section Values.

Lemma valid_finite (s : bool) (m : positive) (e : Z) :
  valid (S754_finite s m e) ->
  e = fexp32 (Zdigits2 (Zpos m) + e) /\ -149 <= e <= 104
  /\ Zdigits2 (Zpos m) <= 24
  /\ (Zdigits2 (Zpos m) < 24 -> e = -149).
Proof.
  unfold valid, is_float32, valid_binary, bounded, canonical_mantissa.
  intros H. apply andb_true_iff in H. destruct H as [H1 H2].
  apply Z.eqb_eq in H1. apply Z.leb_le in H2.
  change (fexp prec emax) with fexp32 in H1. simpl Zdigits2.
  unfold emax, prec in H2. rewrite fexp32_spec in *. lia.
Qed.

Lemma units_pos (m : positive) (e : Z) :
  -149 <= e -> 0 < Zpos m * 2 ^ (e + 149).
Proof. intros. apply Z.mul_pos_pos; [lia | apply pow2_pos; lia]. Qed.

(** Between valid positive numbers the order by exponent and mantissa
    is the order of the values. *)
Lemma units_lex (m1 : positive) (e1 : Z) (m2 : positive) (e2 : Z) :
  valid (S754_finite false m1 e1) -> valid (S754_finite false m2 e2) ->
  e1 < e2 \/ (e1 = e2 /\ (m1 <= m2)%positive) ->
  Zpos m1 * 2 ^ (e1 + 149) <= Zpos m2 * 2 ^ (e2 + 149).
Proof.
  intros V1 V2 H.
  destruct (valid_finite _ _ _ V1) as (C1 & R1 & D1 & S1).
  destruct (valid_finite _ _ _ V2) as (C2 & R2 & D2 & S2).
  destruct H as [H|[-> H]].
  - destruct (Zdigits2_bounds (Zpos m1) ltac:(lia)) as [P1 [_ U1]].
    destruct (Zdigits2_bounds (Zpos m2) ltac:(lia)) as [P2 [L2 _]].
    rewrite fexp32_spec in C1, C2.
    assert (Hd : Zdigits2 (Z.pos m1) + e1 + 149
                 <= Zdigits2 (Z.pos m2) - 1 + (e2 + 149)) by lia.
    assert (A1 : Zpos m1 * 2 ^ (e1 + 149) < 2 ^ Zdigits2 (Zpos m1) * 2 ^ (e1 + 149))
      by (apply Z.mul_lt_mono_pos_r; [apply pow2_pos|]; lia).
    assert (A2 : 2 ^ (Zdigits2 (Zpos m2) - 1) * 2 ^ (e2 + 149)
                 <= Zpos m2 * 2 ^ (e2 + 149))
      by (apply Z.mul_le_mono_nonneg_r; [apply Z.lt_le_incl, pow2_pos|]; lia).
    rewrite <- Z.pow_add_r in A1, A2 by lia.
    assert (A3 : 2 ^ (Zdigits2 (Zpos m1) + (e1 + 149))
                 <= 2 ^ (Zdigits2 (Zpos m2) - 1 + (e2 + 149)))
      by (apply Z.pow_le_mono_r; lia).
    lia.
  - apply Z.mul_le_mono_nonneg_r; [apply Z.lt_le_incl, pow2_pos|]; lia.
Qed.

Lemma fle_units (x y : float) :
  valid x -> valid y -> isfinite x = true -> isfinite y = true ->
  fle x y = true -> units x <= units y.
Proof.
  intros Vx Vy Fx Fy H. apply fle_true in H. destruct H as (_ & _ & H).
  destruct x as [sx|sx| |sx mx ex], y as [sy|sy| |sy my ey]; try discriminate;
    unfold units.
  - destruct sy; unfold key_le, key_lt, key_eq, k1, k2, k3 in H; [lia|].
    destruct (valid_finite _ _ _ Vy) as (_ & R & _). cbv [cond_Zopp].
    pose proof (units_pos my ey ltac:(lia)). lia.
  - destruct sx; unfold key_le, key_lt, key_eq, k1, k2, k3 in H; [|lia].
    destruct (valid_finite _ _ _ Vx) as (_ & R & _). cbv [cond_Zopp].
    pose proof (units_pos mx ex ltac:(lia)). lia.
  - destruct (valid_finite _ _ _ Vx) as (_ & Rx & _).
    destruct (valid_finite _ _ _ Vy) as (_ & Ry & _).
    pose proof (units_pos mx ex ltac:(lia)).
    pose proof (units_pos my ey ltac:(lia)).
    destruct sx, sy; unfold key_le, key_lt, key_eq, k1, k2, k3 in H;
      cbv [cond_Zopp]; try lia.
    + assert (Zpos my * 2 ^ (ey + 149) <= Zpos mx * 2 ^ (ex + 149));
        [apply units_lex; try assumption; lia | lia].
    + apply units_lex; try assumption; lia.
Qed.

End Values.

(** ** Multiplication is monotone *)

Section MulMono.

Lemma Zdigits2_ge (m c : Z) : 0 <= c -> 2 ^ c <= m -> c + 1 <= Zdigits2 m.
Proof.
  intros Hc H. pose proof (pow2_pos c Hc) as Hp.
  destruct (Zdigits2_bounds m ltac:(lia)) as [Hd [_ Hu]].
  assert (c < Zdigits2 m) by (apply (Z.pow_lt_mono_r_iff 2); lia). lia.
Qed.

Lemma mul_pre (sx : bool) (mx : positive) (ex : Z)
      (st : bool) (mt : positive) (et : Z) :
  valid (S754_finite sx mx ex) -> valid (S754_finite st mt et) ->
  ex + et <= fexp32 (Zdigits2 (Zpos (mx * mt)) + (ex + et)).
Proof.
  intros Vx Vt.
  destruct (valid_finite _ _ _ Vx) as (Cx & Rx & Dx & Sx).
  destruct (valid_finite _ _ _ Vt) as (Ct & Rt & Dt & St).
  rewrite fexp32_spec.
  destruct (Z_lt_ge_dec (Zdigits2 (Zpos mx)) 24) as [Hx|Hx];
    destruct (Z_lt_ge_dec (Zdigits2 (Zpos mt)) 24) as [Ht|Ht]; try lia.
  - destruct (Zdigits2_bounds (Zpos mt) ltac:(lia)) as [_ [L _]].
    assert (2 ^ 23 <= 2 ^ (Zdigits2 (Zpos mt) - 1)) by (apply Z.pow_le_mono_r; lia).
    assert (23 + 1 <= Zdigits2 (Zpos (mx * mt))).
    { apply Zdigits2_ge; [lia|]. rewrite Pos2Z.inj_mul. nia. }
    lia.
  - destruct (Zdigits2_bounds (Zpos mx) ltac:(lia)) as [_ [L _]].
    assert (2 ^ 23 <= 2 ^ (Zdigits2 (Zpos mx) - 1)) by (apply Z.pow_le_mono_r; lia).
    assert (23 + 1 <= Zdigits2 (Zpos (mx * mt))).
    { apply Zdigits2_ge; [lia|]. rewrite Pos2Z.inj_mul. nia. }
    lia.
  - destruct (Zdigits2_bounds (Zpos mx) ltac:(lia)) as [_ [L _]].
    assert (2 ^ 23 <= 2 ^ (Zdigits2 (Zpos mx) - 1)) by (apply Z.pow_le_mono_r; lia).
    assert (23 + 1 <= Zdigits2 (Zpos (mx * mt))).
    { apply Zdigits2_ge; [lia|]. rewrite Pos2Z.inj_mul. nia. }
    lia.
Qed.

Lemma fmul_finite (sx : bool) (mx : positive) (ex : Z)
      (st : bool) (mt : positive) (et : Z) :
  fmul (S754_finite sx mx ex) (S754_finite st mt et)
  = finish (xorb sx st) (round_pos (Zpos (mx * mt)) (ex + et)).
Proof. unfold fmul, SFmul. apply binary_round_aux_spec. lia. Qed.

Lemma finish_true (me : Z * Z) : finish true me = fneg (finish false me).
Proof.
  unfold finish. destruct (fst me); try reflexivity.
  destruct (snd me <=? emax - prec); reflexivity.
Qed.

Lemma key_fneg (a : float) :
  k1 (fneg a) = - k1 a /\ k2 (fneg a) = - k2 a /\ k3 (fneg a) = - k3 a
  /\ (num (fneg a) <-> num a).
Proof.
  destruct a as [s|s| |s m e]; try destruct s; unfold num; simpl;
    repeat split; auto with zarith.
Qed.

Lemma fle_fneg (a b : float) : fle (fneg a) (fneg b) = fle b a.
Proof.
  apply eq_true_iff_eq. rewrite !fle_true.
  destruct (key_fneg a) as (A1 & A2 & A3 & A4).
  destruct (key_fneg b) as (B1 & B2 & B3 & B4).
  unfold key_le, key_lt, key_eq. rewrite A1, A2, A3, B1, B2, B3, A4, B4.
  intuition lia.
Qed.

Lemma fle_by_sign (a b : float) :
  num a -> num b ->
  sign_bit a = true \/ is_zero a = true ->
  sign_bit b = false \/ is_zero b = true ->
  fle a b = true.
Proof.
  destruct a as [sa|sa| |sa ma ea], b as [sb|sb| |sb mb eb];
    try destruct sa; try destruct sb; unfold num; simpl;
    intros Hna Hnb [Ha|Ha] [Hb|Hb]; try discriminate; reflexivity.
Qed.

Lemma round_pos_nonneg (m e : Z) : 0 < m -> 0 <= fst (round_pos m e).
Proof.
  intros Hm. unfold round_pos, round_to, shift_to.
  set (E := fexp32 (Zdigits2 m + e)).
  assert (H1 : 0 <= fst (if 0 <? E - e then (rne m (E - e), E) else (m, e))).
  { destruct (Z.ltb_spec 0 (E - e)); simpl; [|lia].
    pose proof (rne_bounds m (E - e) ltac:(lia)).
    assert (0 <= m / 2 ^ (E - e)) by (apply Z.div_pos; [lia|apply pow2_pos; lia]).
    lia. }
  destruct (if 0 <? E - e then (rne m (E - e), E) else (m, e)) as [m1 e1].
  simpl in H1. destruct (Z.ltb_spec 0 (fexp32 (Zdigits2 m1 + e1) - e1)); simpl; [|lia].
  apply Z.div_pos; [lia|apply pow2_pos; lia].
Qed.

End MulMono.

Section MulMonoMain.

Lemma fle_pinf (a : float) : num a -> fle a finf = true.
Proof.
  destruct a as [s|s| |s m e]; try destruct s; intros H; try discriminate;
    reflexivity.
Qed.

Lemma fle_ninf (b : float) : num b -> fle fninf b = true.
Proof.
  destruct b as [s|s| |s m e]; try destruct s; intros H; try discriminate;
    reflexivity.
Qed.

Lemma units_mul (mx my mt : positive) (ex ey et : Z) :
  -149 <= ex -> -149 <= ey -> -149 <= et ->
  Zpos mx * 2 ^ (ex + 149) <= Zpos my * 2 ^ (ey + 149) ->
  Zpos (mx * mt) * 2 ^ (ex + et + 298) <= Zpos (my * mt) * 2 ^ (ey + et + 298).
Proof.
  intros Hx Hy Ht H.
  assert (E1 : 2 ^ (ex + et + 298) = 2 ^ (ex + 149) * 2 ^ (et + 149))
    by (rewrite <- Z.pow_add_r by lia; f_equal; lia).
  assert (E2 : 2 ^ (ey + et + 298) = 2 ^ (ey + 149) * 2 ^ (et + 149))
    by (rewrite <- Z.pow_add_r by lia; f_equal; lia).
  rewrite E1, E2, !Pos2Z.inj_mul.
  pose proof (pow2_pos (et + 149) ltac:(lia)).
  set (a := 2 ^ (ex + 149)) in *. set (b := 2 ^ (ey + 149)) in *.
  set (c := 2 ^ (et + 149)) in *.
  replace (Z.pos mx * Z.pos mt * (a * c)) with ((Z.pos mx * a) * (Z.pos mt * c)) by ring.
  replace (Z.pos my * Z.pos mt * (b * c)) with ((Z.pos my * b) * (Z.pos mt * c)) by ring.
  apply Z.mul_le_mono_nonneg_r; lia.
Qed.

Lemma fmul_mono_pos (mx my mt : positive) (ex ey et : Z) :
  valid (S754_finite false mx ex) -> valid (S754_finite false my ey) ->
  valid (S754_finite false mt et) ->
  Zpos mx * 2 ^ (ex + 149) <= Zpos my * 2 ^ (ey + 149) ->
  fle (finish false (round_pos (Zpos (mx * mt)) (ex + et)))
      (finish false (round_pos (Zpos (my * mt)) (ey + et))) = true.
Proof.
  intros Vx Vy Vt H.
  destruct (valid_finite _ _ _ Vx) as (_ & Rx & _).
  destruct (valid_finite _ _ _ Vy) as (_ & Ry & _).
  destruct (valid_finite _ _ _ Vt) as (_ & Rt & _).
  apply (round_mono _ _ _ _ 298); try lia.
  - apply (mul_pre false mx ex false mt et); assumption.
  - apply (mul_pre false my ey false mt et); assumption.
  - apply units_mul; lia.
Qed.

Theorem fmul_mono (x y t : float) :
  valid x -> valid y -> valid t ->
  fle x y = true -> fle f0 t = true ->
  num (fmul x t) -> num (fmul y t) ->
  fle (fmul x t) (fmul y t) = true.
Proof.
  intros Vx Vy Vt Hxy Ht Nx Ny.
  destruct t as [st|st| |st mt et]; try discriminate.
  - (* a zero scale *)
    destruct x as [sx|sx| |sx mx ex], y as [sy|sy| |sy my ey];
      try discriminate; reflexivity.
  - (* an infinite scale *)
    destruct st; [discriminate|].
    destruct x as [sx|sx| |sx mx ex], y as [sy|sy| |sy my ey];
      try discriminate; try destruct sx; try destruct sy;
      try discriminate; reflexivity.
  - destruct st; [discriminate|].
    assert (Pz : forall s, fmul (S754_zero s) (S754_finite false mt et) = S754_zero s)
      by (intros []; reflexivity).
    assert (Pi : forall s, fmul (S754_infinity s) (S754_finite false mt et)
                           = S754_infinity s) by (intros []; reflexivity).
    assert (Pf : forall s m e, fmul (S754_finite s m e) (S754_finite false mt et)
                 = finish s (round_pos (Zpos (m * mt)) (e + et))).
    { intros s m e. rewrite fmul_finite. now rewrite xorb_false_r. }
    assert (Sf : forall s m e,
               signed s (finish s (round_pos (Zpos (m * mt)) (e + et)))).
    { intros. apply finish_signed, round_pos_nonneg. lia. }
    destruct x as [sx|sx| |sx mx ex], y as [sy|sy| |sy my ey];
      try discriminate; rewrite ?Pz, ?Pi, ?Pf; try exact Hxy.
    + (* zero, finite *)
      destruct sy; [destruct sx; discriminate|].
      apply fle_by_sign;
        [reflexivity | apply Sf | right; reflexivity | left; apply Sf].
    + (* infinite, finite *)
      destruct sx; [|destruct sy; discriminate].
      apply fle_ninf, Sf.
    + (* finite, zero *)
      destruct sx; [|destruct sy; discriminate].
      apply fle_by_sign;
        [apply Sf | reflexivity | left; apply Sf | right; reflexivity].
    + (* finite, infinite *)
      destruct sy; [destruct sx; discriminate|].
      apply fle_pinf, Sf.
    + (* finite, finite *)
      pose proof (fle_units _ _ Vx Vy eq_refl eq_refl Hxy) as Hu.
      destruct (valid_finite _ _ _ Vx) as (_ & Rx & _).
      destruct (valid_finite _ _ _ Vy) as (_ & Ry & _).
      pose proof (units_pos mx ex ltac:(lia)).
      pose proof (units_pos my ey ltac:(lia)).
      destruct sx, sy; cbv [units cond_Zopp] in Hu.
      * rewrite !finish_true, fle_fneg.
        apply fmul_mono_pos; try assumption; lia.
      * apply fle_by_sign; [apply Sf | apply Sf | left; apply Sf | left; apply Sf].
      * lia.
      * apply fmul_mono_pos; try assumption; lia.
Qed.

End MulMonoMain.

(** ** Addition is monotone *)

Section AddMono.

Lemma iter_xO (m d : positive) : Zpos (Pos.iter xO m d) = Zpos m * 2 ^ Zpos d.
Proof.
  induction d as [|d IH] using Pos.peano_ind.
  - simpl. lia.
  - rewrite Pos.iter_succ, Pos2Z.inj_succ, Z.pow_succ_r by lia.
    change (Z.pos (Pos.iter xO m d)~0) with (2 * Z.pos (Pos.iter xO m d)).
    rewrite IH. ring.
Qed.

Lemma shl_align_spec (m : positive) (e e' : Z) :
  let '(m', e'') := shl_align m e e' in
  e'' = Z.min e e' /\ Zpos m' = Zpos m * 2 ^ (e - e'').
Proof.
  unfold shl_align. destruct (e' - e) as [|d|d] eqn:Ed.
  - split; [lia|]. rewrite Z.sub_diag. simpl. lia.
  - split; [lia|]. rewrite Z.sub_diag. simpl. lia.
  - split; [lia|]. rewrite iter_xO. f_equal. f_equal. lia.
Qed.

Lemma Zdigits2_shift (m j : Z) :
  0 < m -> 0 <= j -> Zdigits2 (m * 2 ^ j) = Zdigits2 m + j.
Proof.
  intros Hm Hj. pose proof (pow2_pos j Hj) as Hp.
  destruct (Zdigits2_bounds m Hm) as [Hd [Hl Hu]].
  assert (Hlo : Zdigits2 m - 1 + j + 1 <= Zdigits2 (m * 2 ^ j)).
  { apply Zdigits2_ge; [lia|]. rewrite Z.pow_add_r by lia.
    apply Z.mul_le_mono_nonneg_r; lia. }
  assert (Hhi : Zdigits2 (m * 2 ^ j) <= Zdigits2 m + j).
  { apply Zdigits2_le; [nia | lia |]. rewrite Z.pow_add_r by lia.
    apply Z.mul_lt_mono_pos_r; lia. }
  lia.
Qed.

(** [binary_round] on a positive integer: the aligned input, its value,
    and the outcome. *)
Lemma binary_round_spec (s : bool) (m : positive) (e : Z) :
  exists m' e',
    binary_round prec emax s m e = finish s (round_pos m' e')
    /\ 0 < m' /\ e' = Z.min e (fexp32 (Zdigits2 (Zpos m) + e))
    /\ m' = Zpos m * 2 ^ (e - e')
    /\ e' <= fexp32 (Zdigits2 m' + e').
Proof.
  unfold binary_round. change (fexp prec emax) with fexp32.
  change (Z.pos (digits2_pos m)) with (Zdigits2 (Zpos m)).
  pose proof (shl_align_spec m e (fexp32 (Zdigits2 (Zpos m) + e))) as H.
  destruct (shl_align m e _) as [mz ez]. destruct H as [He Hm].
  exists (Zpos mz), ez. split; [apply binary_round_aux_spec; lia|].
  split; [lia|]. split; [assumption|]. split; [assumption|].
  rewrite Hm, Zdigits2_shift by lia.
  replace (Zdigits2 (Z.pos m) + (e - ez) + ez) with (Zdigits2 (Z.pos m) + e) by lia.
  lia.
Qed.

Lemma fexp32_ge (d : Z) : -149 <= fexp32 d.
Proof. rewrite fexp32_spec. lia. Qed.

Lemma binary_round_mono (m1 m2 : positive) (e1 e2 : Z) :
  -149 <= e1 -> -149 <= e2 ->
  Zpos m1 * 2 ^ (e1 + 149) <= Zpos m2 * 2 ^ (e2 + 149) ->
  fle (binary_round prec emax false m1 e1) (binary_round prec emax false m2 e2)
  = true.
Proof.
  intros H1 H2 H.
  destruct (binary_round_spec false m1 e1) as (a & ea & -> & Pa & Ea & Va & Ca).
  destruct (binary_round_spec false m2 e2) as (b & eb & -> & Pb & Eb & Vb & Cb).
  pose proof (fexp32_ge (Zdigits2 (Z.pos m1) + e1)).
  pose proof (fexp32_ge (Zdigits2 (Z.pos m2) + e2)).
  apply (round_mono _ _ _ _ 149); try assumption; try lia.
  rewrite Va, Vb, <- !Z.mul_assoc, <- !Z.pow_add_r by lia.
  replace (e1 - ea + (ea + 149)) with (e1 + 149) by lia.
  replace (e2 - eb + (eb + 149)) with (e2 + 149) by lia.
  assumption.
Qed.

Lemma binary_round_true (m : positive) (e : Z) :
  binary_round prec emax true m e = fneg (binary_round prec emax false m e).
Proof. apply (binary_round_opp false). Qed.

Lemma BN_mono (z1 e1 z2 e2 : Z) :
  -149 <= e1 -> -149 <= e2 ->
  z1 * 2 ^ (e1 + 149) <= z2 * 2 ^ (e2 + 149) ->
  fle (BN z1 e1) (BN z2 e2) = true.
Proof.
  intros H1 H2 H.
  pose proof (pow2_pos (e1 + 149) ltac:(lia)) as P1.
  pose proof (pow2_pos (e2 + 149) ltac:(lia)) as P2.
  unfold BN, binary_normalize.
  destruct z1 as [|p1|p1], z2 as [|p2|p2]; try reflexivity; try nia.
  - apply fle_by_sign; try reflexivity; try apply binary_round_signed.
    + right; reflexivity.
    + left. apply binary_round_signed.
  - apply binary_round_mono; assumption.
  - apply fle_by_sign; try reflexivity; try apply binary_round_signed.
    + left. apply binary_round_signed.
    + right; reflexivity.
  - apply fle_by_sign; try apply binary_round_signed; left; apply binary_round_signed.
  - rewrite !binary_round_true, fle_fneg.
    apply binary_round_mono; try assumption.
    change (Z.neg p1) with (- Z.pos p1) in H. change (Z.neg p2) with (- Z.pos p2) in H.
    lia.
Qed.

End AddMono.

Section AddMonoMain.

Lemma fle_fequiv_l (x x' y : float) : fequiv x x' -> fle x y = fle x' y.
Proof.
  intros [->|[Hx Hx']]; [reflexivity|].
  destruct x as [sx|sx| |sx mx ex]; try discriminate.
  destruct x' as [sx'|sx'| |sx' mx' ex']; try discriminate.
  destruct y as [sy|sy| |sy my ey]; reflexivity.
Qed.

(** Rounding a binary32 number gives the number back. *)
Lemma BN_valid (s : bool) (m : positive) (e : Z) :
  valid (S754_finite s m e) ->
  BN (cond_Zopp s (Zpos m)) e = S754_finite s m e.
Proof.
  intros V. destruct (valid_finite _ _ _ V) as (C & R & D & _).
  assert (E : binary_round prec emax s m e = S754_finite s m e).
  { unfold binary_round. change (fexp prec emax) with fexp32.
    change (Z.pos (digits2_pos m)) with (Zdigits2 (Zpos m)).
    rewrite <- C. unfold shl_align. rewrite Z.sub_diag.
    rewrite binary_round_aux_spec by lia.
    unfold round_pos, round_to. rewrite <- C, Z.sub_diag.
    change (0 <? 0) with false. cbv iota. unfold shift_to.
    rewrite <- C, Z.sub_diag. change (0 <? 0) with false. cbv iota.
    unfold finish. simpl fst. simpl snd.
    destruct (Z.leb_spec e (emax - prec)) as [_|H]; [reflexivity|].
    unfold emax, prec in H. lia. }
  unfold BN, binary_normalize. destruct s; exact E.
Qed.

Lemma fadd_finite (sx : bool) (mx : positive) (ex : Z)
      (st : bool) (mt : positive) (et : Z) :
  -149 <= ex -> -149 <= et ->
  exists z e,
    -149 <= e
    /\ fadd (S754_finite sx mx ex) (S754_finite st mt et) = BN z e
    /\ z * 2 ^ (e + 149)
       = units (S754_finite sx mx ex) + units (S754_finite st mt et).
Proof.
  intros Hx Ht. unfold fadd, SFadd. set (ez := Z.min ex et).
  pose proof (shl_align_spec mx ex ez) as Ax.
  pose proof (shl_align_spec mt et ez) as At.
  destruct (shl_align mx ex ez) as [ax ex']. destruct (shl_align mt et ez) as [at' et'].
  destruct Ax as [Ex Ax]. destruct At as [Et At]. simpl fst.
  exists (cond_Zopp sx (Z.pos ax) + cond_Zopp st (Z.pos at')), ez.
  split; [unfold ez; lia|]. split; [reflexivity|].
  assert (Ex' : ex' = ez) by (unfold ez in *; lia).
  assert (Et' : et' = ez) by (unfold ez in *; lia).
  rewrite Ex' in Ax. rewrite Et' in At.
  assert (Hez : -149 <= ez <= ex /\ ez <= et) by (unfold ez; lia).
  assert (Vx : Z.pos ax * 2 ^ (ez + 149) = Z.pos mx * 2 ^ (ex + 149)).
  { rewrite Ax, <- Z.mul_assoc, <- Z.pow_add_r by lia. do 2 f_equal. lia. }
  assert (Vt : Z.pos at' * 2 ^ (ez + 149) = Z.pos mt * 2 ^ (et + 149)).
  { rewrite At, <- Z.mul_assoc, <- Z.pow_add_r by lia. do 2 f_equal. lia. }
  unfold units. rewrite <- Vx, <- Vt.
  destruct sx, st; cbv [cond_Zopp]; ring.
Qed.

Lemma units_cond (s : bool) (m : positive) (e : Z) :
  cond_Zopp s (Zpos m) * 2 ^ (e + 149) = units (S754_finite s m e).
Proof. destruct s; cbv [units cond_Zopp]; ring. Qed.

Lemma fadd_value (x t : float) :
  valid x -> valid t -> isfinite x = true -> isfinite t = true ->
  exists z e,
    -149 <= e /\ fequiv (fadd x t) (BN z e)
    /\ z * 2 ^ (e + 149) = units x + units t.
Proof.
  intros Vx Vt Fx Ft.
  destruct x as [sx|sx| |sx mx ex], t as [st|st| |st mt et]; try discriminate.
  - exists 0, 0. split; [lia|]. split; [|reflexivity].
    right. destruct sx, st; split; reflexivity.
  - destruct (valid_finite _ _ _ Vt) as (_ & R & _).
    exists (cond_Zopp st (Zpos mt)), et. split; [lia|].
    rewrite (BN_valid _ _ _ Vt), units_cond. split; [left; reflexivity|reflexivity].
  - destruct (valid_finite _ _ _ Vx) as (_ & R & _).
    exists (cond_Zopp sx (Zpos mx)), ex. split; [lia|].
    rewrite (BN_valid _ _ _ Vx), units_cond.
    split; [left; reflexivity|]. simpl units at 3. lia.
  - destruct (valid_finite _ _ _ Vx) as (_ & Rx & _).
    destruct (valid_finite _ _ _ Vt) as (_ & Rt & _).
    destruct (fadd_finite sx mx ex st mt et) as (z & e & He & Hs & Hv); try lia.
    exists z, e. split; [assumption|]. split; [left; assumption|assumption].
Qed.

Lemma fadd_mono_finite (x y t : float) :
  valid x -> valid y -> valid t ->
  isfinite x = true -> isfinite y = true -> isfinite t = true ->
  fle x y = true -> fle (fadd x t) (fadd y t) = true.
Proof.
  intros Vx Vy Vt Fx Fy Ft H.
  destruct (fadd_value x t Vx Vt Fx Ft) as (zx & ex & Hex & Qx & Ux).
  destruct (fadd_value y t Vy Vt Fy Ft) as (zy & ey & Hey & Qy & Uy).
  rewrite (fle_fequiv_l _ _ _ Qx), (fle_fequiv_r _ _ _ Qy).
  apply BN_mono; try assumption.
  rewrite Ux, Uy. pose proof (fle_units x y Vx Vy Fx Fy H). lia.
Qed.

Theorem fadd_mono (x y t : float) :
  valid x -> valid y -> valid t ->
  fle x y = true ->
  num (fadd x t) -> num (fadd y t) ->
  fle (fadd x t) (fadd y t) = true.
Proof.
  intros Vx Vy Vt H Nx Ny.
  destruct (isfinite t) eqn:Ft.
  - destruct (isfinite x) eqn:Fx, (isfinite y) eqn:Fy.
    + apply fadd_mono_finite; assumption.
    + (* y is infinite *)
      assert (Ey : fadd y t = y)
        by (destruct y as [?|[|]| |], t as [?|?| |]; try discriminate; reflexivity).
      rewrite Ey in *.
      assert (y = finf).
      { destruct y as [?|[|]| |]; try discriminate; [|reflexivity].
        destruct x as [[|]|[|]| |[|] ? ?]; discriminate. }
      subst y. apply fle_pinf, Nx.
    + (* x is infinite *)
      assert (Ex : fadd x t = x)
        by (destruct x as [?|[|]| |], t as [?|?| |]; try discriminate; reflexivity).
      rewrite Ex in *.
      assert (x = fninf).
      { destruct x as [?|[|]| |]; try discriminate; [reflexivity|].
        destruct y as [[|]|[|]| |[|] ? ?]; discriminate. }
      subst x. apply fle_ninf, Ny.
    + assert (Ex : fadd x t = x)
        by (destruct x as [?|[|]| |], t as [?|?| |]; try discriminate; reflexivity).
      assert (Ey : fadd y t = y)
        by (destruct y as [?|[|]| |], t as [?|?| |]; try discriminate; reflexivity).
      rewrite Ex, Ey. exact H.
  - (* an infinite shift: both sums are the shift *)
    destruct t as [?|st| |]; try discriminate.
    + assert (Ex : fadd x (S754_infinity st) = S754_infinity st)
        by (destruct x as [?|[|]| |], st; try discriminate; reflexivity).
      assert (Ey : fadd y (S754_infinity st) = S754_infinity st)
        by (destruct y as [?|[|]| |], st; try discriminate; reflexivity).
      rewrite Ex, Ey. destruct st; reflexivity.
    + destruct x as [?|?| |]; discriminate.
Qed.

End AddMonoMain.

(** ** Signum *)

(** C8, counterexample: a NaN is not zero, yet [Signum] maps it to 0. *)
Lemma Signum_nan_counterexample :
  Signum fnan = 0 /\ is_zero fnan = false /\ feq fnan f0 = false.
Proof. repeat split. Qed.

(** C8, as amended: [Signum] returns -1, 0 or 1, and it returns 0
    exactly for the two zeros and for NaN. *)
Theorem Signum_spec :
  forall x : float,
    (Signum x = -1 \/ Signum x = 0 \/ Signum x = 1)
    /\ (Signum x = 0 <-> (is_zero x = true \/ is_nan x = true)).
Proof.
  intros [s|[|]| |[|] m e]; cbv; intuition congruence.
Qed.

(** ** ExportMesh *)

Section ExportFacts.
Import MeshIO.
Variable exporter : aiScene -> string -> string -> bool * string.

(** C10: on a mesh without triangles [ExportMesh] prints its notice and
    returns: no export takes place and nothing is thrown, whatever the
    options say. *)
Theorem ExportMesh_empty_mesh :
  forall filename mesh options,
    triVerts mesh = [] ->
    ExportMesh exporter filename mesh options
    = ([Printed (filename
                 ++ " was not saved because the input mesh was empty.")],
       Returned)
    /\ existsb wrote_file (fst (ExportMesh exporter filename mesh options))
       = false.
Proof.
  intros filename mesh options H. unfold ExportMesh. rewrite H. simpl.
  split; reflexivity.
Qed.

(** C9: on a mesh with triangles, a normal array of the wrong length
    with [faceted = false], or a non-empty colour array of the wrong
    length, ends the call with a [userErr] before any event occurred. *)
Theorem ExportMesh_length_mismatch :
  forall filename mesh options,
    triVerts mesh <> [] ->
    (faceted options = false
       /\ List.length (vertNormal mesh) <> List.length (vertPos mesh))
    \/ (vertColor (mat options) <> []
       /\ List.length (vertColor (mat options)) <> List.length (vertPos mesh)) ->
    exists cond msg,
      ExportMesh exporter filename mesh options
      = ([], Thrown (mkException userErr cond msg)).
Proof.
  intros filename mesh options Htri H.
  assert (Ht : (List.length (triVerts mesh) =? 0)%nat = false).
  { destruct (triVerts mesh); [congruence | reflexivity]. }
  unfold ExportMesh. rewrite Ht.
  destruct H as [[Hf Hn]|[Hc Hl]].
  - rewrite Hf. simpl negb. cbv iota. unfold AlwaysAssert at 1.
    rewrite (proj2 (Nat.eqb_neq _ _) Hn). do 2 eexists; reflexivity.
  - assert (Hc0 : (List.length (vertColor (mat options)) =? 0)%nat = false).
    { destruct (vertColor (mat options)); [congruence | reflexivity]. }
    assert (Hl' : (List.length (vertPos mesh)
                   =? List.length (vertColor (mat options)))%nat = false).
    { apply Nat.eqb_neq. congruence. }
    destruct (faceted options); simpl negb; cbv iota.
    + rewrite Hc0, Hl'. simpl. do 2 eexists; reflexivity.
    + unfold AlwaysAssert at 1.
      destruct (List.length (vertNormal mesh) =? List.length (vertPos mesh))%nat.
      * rewrite Hc0, Hl'. simpl. do 2 eexists; reflexivity.
      * do 2 eexists; reflexivity.
Qed.

End ExportFacts.

Lemma ExportMesh_empty_mesh_witness :
  triVerts empty_mesh = []
  /\ MeshIO.ExportMesh sample_exporter "out.glb" empty_mesh
       (MeshIO.mkExportOptions false sample_material)
     = ([MeshIO.Printed
           "out.glb was not saved because the input mesh was empty."],
        MeshIO.Returned).
Proof.
  split; [reflexivity|].
  apply (ExportMesh_empty_mesh sample_exporter "out.glb" empty_mesh
           (MeshIO.mkExportOptions false sample_material)).
  reflexivity.
Defined.

Lemma ExportMesh_length_mismatch_witness :
  exists cond msg,
    MeshIO.ExportMesh sample_exporter "out.glb" sample_triangle
      (MeshIO.mkExportOptions false sample_material)
    = ([], MeshIO.Thrown (MeshIO.mkException MeshIO.userErr cond msg)).
Proof.
  apply (ExportMesh_length_mismatch sample_exporter "out.glb" sample_triangle
           (MeshIO.mkExportOptions false sample_material)).
  - discriminate.
  - left. split; [reflexivity | simpl; lia].
Defined.

(** ** MeshRelation::UVW *)




(** ** CCW *)

(** C3, counterexample: with the finite points (0,0), (10^30,10^30),
    (2*10^30,2*10^30) and the tolerance 1e-5 the two products overflow,
    the area is a NaN, the test on the bound fails and [CCW] answers -1
    although the sign of the area is 0; with the points (0,0), (10^30,0),
    (10^30,0) and the tolerance 0 the area is +0, the bound is inf * 0, a
    NaN, and [CCW] answers -1 as well. *)
Lemma CCW_sign_counterexample :
  is_float32 big = true /\ isfinite big = true
  /\ is_float32 (fadd big big) = true /\ isfinite (fadd big big) = true
  /\ is_float32 kTolerance = true
  /\ CCW_area p00 pbig pbig2 = fnan
  /\ fle (fmul (CCW_area p00 pbig pbig2) (CCW_area p00 pbig pbig2))
         (fmul (fmul (CCW_base2 p00 pbig pbig2) kTolerance) kTolerance)
     = false
  /\ Signum (CCW_area p00 pbig pbig2) = 0
  /\ CCW p00 pbig pbig2 kTolerance = -1
  /\ CCW_area p00 pbig0 pbig0 = f0
  /\ fle (fmul (CCW_area p00 pbig0 pbig0) (CCW_area p00 pbig0 pbig0))
         (fmul (fmul (CCW_base2 p00 pbig0 pbig0) f0) f0)
     = false
  /\ Signum (CCW_area p00 pbig0 pbig0) = 0
  /\ CCW p00 pbig0 pbig0 f0 = -1.
Proof. repeat split. Qed.

Section CCWSign.

Lemma Signum_pos (a : float) : fgt a f0 = true -> Signum a = 1.
Proof.
  destruct a as [[|]|[|]| |[|] ? ?]; intros H; try discriminate; reflexivity.
Qed.

Lemma Signum_not_pos (a : float) :
  fgt a f0 = false -> (-1 = Signum a <-> Signum a <> 0).
Proof.
  destruct a as [[|]|[|]| |[|] ? ?]; intros H; try discriminate; cbv;
    split; intros; congruence.
Qed.

End CCWSign.

(** C3, as amended: with [v1 = p1 - p0], [v2 = p2 - p0],
    [area = v1.x * v2.y - v1.y * v2.x],
    [base2 = max (v1 . v1) (v2 . v2)] and the bound [base2 * tol * tol],
    every operation rounded in binary32, [CCW] answers 0 exactly when the
    comparison [area * area <= bound] holds, equality included; otherwise
    it answers 1 if [area > 0] and -1 in every other case.  When the
    comparison fails, the answer is the sign of the area exactly when
    that sign is not 0, that is when the area is neither a NaN nor a
    zero, and this is so whenever the area and the bound are numbers.
    The two boundary scenarios evaluate to 1 and to 0. *)
Theorem CCW_spec :
  forall (x0 y0 x1 y1 x2 y2 tol : float),
    let v1x := fsub x1 x0 in
    let v1y := fsub y1 y0 in
    let v2x := fsub x2 x0 in
    let v2y := fsub y2 y0 in
    let area := fsub (fmul v1x v2y) (fmul v1y v2x) in
    let base2 := max (fadd (fmul v1x v1x) (fmul v1y v1y))
                     (fadd (fmul v2x v2x) (fmul v2y v2y)) in
    let bound := fmul (fmul base2 tol) tol in
    let r := CCW (vec2.mk x0 y0) (vec2.mk x1 y1) (vec2.mk x2 y2) tol in
    (r = 0 <-> fle (fmul area area) bound = true)
    /\ (feq (fmul area area) bound = true -> r = 0)
    /\ (r = 1 <-> fle (fmul area area) bound = false /\ fgt area f0 = true)
    /\ (r = -1 <-> fle (fmul area area) bound = false /\ fgt area f0 = false)
    /\ (fle (fmul area area) bound = false ->
        (r = Signum area <-> Signum area <> 0))
    /\ (fle (fmul area area) bound = false -> num area -> num bound ->
        r = Signum area /\ Signum area <> 0)
    /\ CCW p00 p10 p01 kTolerance = 1
    /\ CCW p00 p10 p20 kTolerance = 0.
Proof.
  intros x0 y0 x1 y1 x2 y2 tol v1x v1y v2x v2y area base2 bound r.
  assert (E : r = if fle (fmul area area) bound then 0
                  else if fgt area f0 then 1 else -1) by reflexivity.
  assert (S : fle (fmul area area) bound = false ->
              (r = Signum area <-> Signum area <> 0)).
  { intros Hc. rewrite E, Hc. destruct (fgt area f0) eqn:G.
    - rewrite (Signum_pos area G). split; [discriminate|reflexivity].
    - apply Signum_not_pos, G. }
  split; [|split; [|split; [|split; [|split; [|split; [|split]]]]]].
  - rewrite E. destruct (fle (fmul area area) bound).
    + split; reflexivity.
    + destruct (fgt area f0); split; discriminate.
  - intros H. rewrite E, (feq_fle _ _ H). reflexivity.
  - rewrite E. destruct (fle (fmul area area) bound), (fgt area f0);
      split; try discriminate; try (intros [? ?]; discriminate); auto.
  - rewrite E. destruct (fle (fmul area area) bound), (fgt area f0);
      split; try discriminate; try (intros [? ?]; discriminate); auto.
  - exact S.
  - intros Hc Na Nb.
    assert (Z : is_zero area = false).
    { destruct (is_zero area) eqn:Z; [|reflexivity].
      rewrite (fmul_zero_square area Z) in Hc.
      assert (Hb : signed false bound)
        by exact (CCW_bound_signed (vec2.mk x0 y0) (vec2.mk x1 y1)
                    (vec2.mk x2 y2) tol Nb).
      rewrite (fle_zero_signed _ Hb) in Hc. discriminate. }
    assert (N : Signum area <> 0).
    { destruct (num_sign_cases area Na Z) as [[_ Sg]|[_ Sg]];
        rewrite Sg; discriminate. }
    split; [apply (S Hc), N | exact N].
  - reflexivity.
  - reflexivity.
Qed.

Lemma CCW_spec_witness :
  CCW p00 p10 p01 kTolerance = 1 /\ Signum (CCW_area p00 p10 p01) = 1.
Proof.
  destruct (CCW_spec f0 f0 f1 f0 f0 f1 kTolerance)
    as (_ & _ & _ & _ & _ & H6 & H7 & _).
  destruct H6 as [E _]; [reflexivity | reflexivity | reflexivity |].
  split; [exact H7|]. exact (eq_trans (eq_sym E) H7).
Defined.

(** C5, counterexample: with the finite points (0,0), (10^30,10^30),
    (2*10^30,2*10^30) and the tolerance 1e-5 the two products overflow,
    the area is a NaN and both orders answer -1; with an infinite
    tolerance three equal points answer -1 in both orders as well. *)
Lemma CCW_swap_counterexample :
  is_float32 big = true /\ isfinite big = true
  /\ is_float32 (fadd big big) = true /\ isfinite (fadd big big) = true
  /\ is_float32 kTolerance = true /\ flt f0 kTolerance = true
  /\ CCW_area p00 pbig pbig2 = fnan
  /\ CCW p00 pbig pbig2 kTolerance = -1
  /\ CCW p00 pbig2 pbig kTolerance = -1
  /\ CCW p00 pbig pbig2 kTolerance <> - CCW p00 pbig2 pbig kTolerance
  /\ flt f0 finf = true
  /\ CCW p00 p00 p00 finf <> - CCW p00 p00 p00 finf.
Proof. repeat split; vm_compute; discriminate. Qed.

Lemma CCW_antisymmetric_witness :
  flt f0 kTolerance = true /\ isfinite kTolerance = true
  /\ num (CCW_area p00 p10 p01)
  /\ CCW p00 p10 p01 kTolerance = - CCW p00 p01 p10 kTolerance.
Proof.
  split; [reflexivity|]. split; [reflexivity|]. split; [reflexivity|].
  apply (CCW_antisymmetric p00 p10 p01 kTolerance); reflexivity.
Defined.

(** ** Box *)

(** C4, counterexample: a box with a NaN coordinate is not contained in
    its union with the unit box, the two orders of that union differ, and
    the default box is no identity for it. *)
Lemma Box_Union_nan_counterexample :
  Box.Contains (Box.Union nan_box unit_box) nan_box = false
  /\ box_eq (Box.Union nan_box unit_box) (Box.Union unit_box nan_box) = false
  /\ box_eq (Box.Union Box.default nan_box) nan_box = false.
Proof. repeat split. Qed.

(** C4, as amended: for boxes without NaN coordinates, the union
    contains both operands, [Union] is commutative and associative, and
    the default box is its identity. *)
Theorem Box_Union_laws :
  forall a b c : Box.t,
    no_nan_box a -> no_nan_box b -> no_nan_box c ->
    Box.Contains (Box.Union a b) a = true
    /\ Box.Contains (Box.Union a b) b = true
    /\ box_eq (Box.Union a b) (Box.Union b a) = true
    /\ box_eq (Box.Union (Box.Union a b) c) (Box.Union a (Box.Union b c))
       = true
    /\ box_eq (Box.Union Box.default b) b = true.
Proof.
  intros a b c Ha Hb Hc.
  split; [apply Union_Contains_l; assumption|].
  split; [apply Union_Contains_r; assumption|].
  split; [apply Union_comm; assumption|].
  split; [apply Union_assoc; assumption|].
  apply Union_default_l; assumption.
Qed.

Lemma Box_Union_laws_witness :
  Box.Contains (Box.Union unit_box far_box) unit_box = true
  /\ Box.Contains (Box.Union unit_box far_box) far_box = true
  /\ box_eq (Box.Union unit_box far_box) (Box.Union far_box unit_box) = true
  /\ box_eq (Box.Union (Box.Union unit_box far_box) Box.default)
            (Box.Union unit_box (Box.Union far_box Box.default)) = true
  /\ box_eq (Box.Union Box.default far_box) far_box = true.
Proof.
  apply (Box_Union_laws unit_box far_box Box.default);
    repeat split; reflexivity.
Defined.

(** C6, counterexample: the unit box scaled by -1 has [min = -0] above
    [max = -1] and holds no point, yet it passes [DoesOverlap] with the
    box from -2 to 2 in both directions; the default box, which holds no
    point either, passes [DoesOverlap] with the box of all space. *)
Lemma DoesOverlap_inverted_counterexample :
  mirrored_box = Box.mk (splat (fneg f0)) (splat fm1)
  /\ valid_box mirrored_box /\ Box.isFinite mirrored_box = true
  /\ ordered wide_box /\ Box.isFinite wide_box = true
  /\ Box.DoesOverlap mirrored_box wide_box = true
  /\ Box.DoesOverlap wide_box mirrored_box = true
  /\ (forall p, ~ inside mirrored_box p)
  /\ Box.DoesOverlap Box.default whole_space = true
  /\ (forall p, ~ inside Box.default p).
Proof.
  split; [reflexivity|]. split; [repeat split|]. split; [reflexivity|].
  split; [repeat split|]. split; [reflexivity|]. split; [reflexivity|].
  split; [reflexivity|]. split; [|split; [reflexivity|]].
  - intros [x y z] [(H1 & _) (H2 & _)]. simpl in H1, H2.
    pose proof (fle_trans _ _ _ H1 H2) as H. discriminate.
  - intros [x y z] [(H1 & _) (H2 & _)]. simpl in H1, H2.
    change (fle finf x = true) in H1. change (fle x fninf = true) in H2.
    pose proof (fle_trans _ _ _ H1 H2) as H. discriminate.
Qed.

Lemma shared_point_overlap (a b : Box.t) :
  (exists p, inside a p /\ inside b p) -> Box.DoesOverlap a b = true.
Proof.
  intros [p [Hpa Hpb]]. unbox. split_all; eapply fle_trans; eassumption.
Qed.

Lemma DoesOverlap_axes (a b : Box.t) :
  Box.DoesOverlap a b = true <->
  (fle (vec3.x (Box.min a)) (vec3.x (Box.max b)) = true
   /\ fle (vec3.x (Box.min b)) (vec3.x (Box.max a)) = true)
  /\ (fle (vec3.y (Box.min a)) (vec3.y (Box.max b)) = true
      /\ fle (vec3.y (Box.min b)) (vec3.y (Box.max a)) = true)
  /\ (fle (vec3.z (Box.min a)) (vec3.z (Box.max b)) = true
      /\ fle (vec3.z (Box.min b)) (vec3.z (Box.max a)) = true).
Proof.
  unfold Box.DoesOverlap, fge. rewrite !andb_true_iff. tauto.
Qed.

(** C6, as amended: for all boxes, two boxes that share a point pass
    [DoesOverlap], and [DoesOverlap] holds exactly when on every axis
    each [min] is at most the [max] of the other box; for boxes with
    [min <= max] it holds exactly when the closed boxes share a point, so
    touching boxes overlap.  For every box the point overload compares
    the x and y coordinates only.  In the scenario the union of the unit
    box and the box from 2 to 3 runs from 0 to 3, the two boxes do not
    overlap, and the union contains both. *)
Theorem DoesOverlap_spec :
  forall a b : Box.t,
    ((exists p, inside a p /\ inside b p) -> Box.DoesOverlap a b = true)
    /\ (ordered a -> ordered b ->
        (Box.DoesOverlap a b = true <-> exists p, inside a p /\ inside b p))
    /\ (Box.DoesOverlap a b = true <->
        (fle (vec3.x (Box.min a)) (vec3.x (Box.max b)) = true
         /\ fle (vec3.x (Box.min b)) (vec3.x (Box.max a)) = true)
        /\ (fle (vec3.y (Box.min a)) (vec3.y (Box.max b)) = true
            /\ fle (vec3.y (Box.min b)) (vec3.y (Box.max a)) = true)
        /\ (fle (vec3.z (Box.min a)) (vec3.z (Box.max b)) = true
            /\ fle (vec3.z (Box.min b)) (vec3.z (Box.max a)) = true))
    /\ Box.DoesOverlap unit_box touching_box = true
    /\ (forall p z', Box.DoesOverlap_point a p
                     = Box.DoesOverlap_point a
                         (vec3.mk (vec3.x p) (vec3.y p) z'))
    /\ (forall p, Box.DoesOverlap_point a p = true <->
          (fle (vec3.x (Box.min a)) (vec3.x p) = true
           /\ fle (vec3.x p) (vec3.x (Box.max a)) = true)
          /\ (fle (vec3.y (Box.min a)) (vec3.y p) = true
              /\ fle (vec3.y p) (vec3.y (Box.max a)) = true))
    /\ Box.Union unit_box far_box = Box.mk (splat f0) (splat f3)
    /\ Box.DoesOverlap unit_box far_box = false
    /\ Box.DoesOverlap far_box unit_box = false
    /\ Box.Contains (Box.Union unit_box far_box) unit_box = true
    /\ Box.Contains (Box.Union unit_box far_box) far_box = true.
Proof.
  intros a b.
  split; [apply shared_point_overlap|].
  split; [apply DoesOverlap_shared_point|].
  split; [apply DoesOverlap_axes|].
  split; [reflexivity|].
  split; [intros; apply DoesOverlap_point_ignores_z|].
  split; [intros; apply DoesOverlap_point_xy|].
  repeat split.
Qed.

Lemma DoesOverlap_spec_witness :
  ordered unit_box /\ ordered touching_box
  /\ (Box.DoesOverlap unit_box touching_box = true <->
      exists p, inside unit_box p /\ inside touching_box p).
Proof.
  assert (Hu : ordered unit_box) by (repeat split).
  assert (Ht : ordered touching_box) by (repeat split).
  split; [exact Hu|]. split; [exact Ht|].
  exact (proj1 (proj2 (DoesOverlap_spec unit_box touching_box)) Hu Ht).
Defined.

(** C2, counterexample: scaling the unit box by -1 puts [min] above
    [max], with [operator*] and with [operator*=]; shifting the box of all
    space by an infinite vector leaves NaN corners. *)
Lemma Box_scale_counterexample :
  ordered unit_box
  /\ valid_box unit_box /\ valid3 (splat fm1)
  /\ ~ ordered (Box.mul unit_box (splat fm1))
  /\ ~ ordered (Box.mul_assign unit_box (splat fm1))
  /\ ordered whole_space
  /\ ~ ordered (Box.add whole_space (splat finf)).
Proof.
  split; [repeat split|].
  split; [repeat split|].
  split; [repeat split|].
  split; [intros [H _]; vm_compute in H; discriminate|].
  split; [intros [H _]; vm_compute in H; discriminate|].
  split; [repeat split|].
  intros [H _]; vm_compute in H; discriminate.
Qed.

(** ** sind and cosd

    With a library sine and cosine that map [+0] to [+0] and to [1], as
    the C standard requires, [sind] is exact at every finite multiple of
    90, and so is [cosd] whenever [x + 90.0f] is a multiple of 90. *)

Section SindExact.
Variables fsin fcos : float -> float.
Hypothesis fsin_zero : fsin f0 = f0.
Hypothesis fcos_zero : fcos f0 = f1.

Lemma div_nearest_even_exact (k Y : Z) :
  0 <= k -> 0 < Y -> div_nearest_even (k * Y) Y = k.
Proof.
  intros Hk HY. unfold div_nearest_even.
  rewrite Z.quot_mul by lia. replace (k * Y - k * Y) with 0 by lia.
  destruct (Z.compare_spec (2 * 0) Y); try lia; reflexivity.
Qed.

Lemma remquo_multiple (m : positive) (e k : Z) :
  -149 <= e ->
  Zpos m * 2 ^ (e + 149) = k * (90 * 2 ^ 149) ->
  remquo (S754_finite false m e) f90 = (f0, k mod 8).
Proof.
  intros He H. unfold remquo, f90.
  set (e0 := Z.min e (-17)).
  assert (H0 : -149 <= e0 <= e /\ e0 <= -17) by (unfold e0; lia).
  pose proof (pow2_pos (e0 + 149) ltac:(lia)) as P0.
  pose proof (pow2_pos (e - e0) ltac:(lia)) as P1.
  pose proof (pow2_pos (-17 - e0) ltac:(lia)) as P2.
  set (X := Z.pos m * 2 ^ (e - e0)). set (Y := 11796480 * 2 ^ (-17 - e0)).
  assert (HX : X * 2 ^ (e0 + 149) = Zpos m * 2 ^ (e + 149)).
  { unfold X. rewrite <- Z.mul_assoc, <- Z.pow_add_r by lia. do 2 f_equal. lia. }
  assert (HY : Y * 2 ^ (e0 + 149) = 90 * 2 ^ 149).
  { unfold Y. rewrite <- Z.mul_assoc, <- Z.pow_add_r by lia.
    replace (-17 - e0 + (e0 + 149)) with 132 by lia. reflexivity. }
  assert (HXY : X = k * Y).
  { apply (Z.mul_cancel_r _ _ (2 ^ (e0 + 149))); [lia|].
    rewrite HX, H, <- Z.mul_assoc, HY. reflexivity. }
  assert (Yp : 0 < Y) by (unfold Y; lia).
  assert (Hk : 0 <= k) by (assert (0 < X) by (unfold X; lia); nia).
  rewrite HXY, (div_nearest_even_exact k Y Hk Yp).
  replace (k * Y - k * Y) with 0 by lia. reflexivity.
Qed.

Lemma sind_reduced_exact (m : positive) (e k : Z) :
  -149 <= e ->
  Zpos m * 2 ^ (e + 149) = k * (90 * 2 ^ 149) ->
  is_exact (sind_reduced fsin fcos (S754_finite false m e)) = true.
Proof.
  intros He H. unfold sind_reduced. simpl fabs.
  rewrite (remquo_multiple m e k He H).
  change (radians f0) with f0. rewrite fsin_zero, fcos_zero.
  pose proof (Z.mod_pos_bound k 8 ltac:(lia)) as Hb.
  assert (C : k mod 8 = 0 \/ k mod 8 = 1 \/ k mod 8 = 2 \/ k mod 8 = 3
              \/ k mod 8 = 4 \/ k mod 8 = 5 \/ k mod 8 = 6 \/ k mod 8 = 7) by lia.
  destruct C as [->|[->|[->|[->|[->|[->|[->| ->]]]]]]]; reflexivity.
Qed.

Lemma is_exact_fneg (r : float) : is_exact r = true -> is_exact (fneg r) = true.
Proof.
  unfold is_exact. rewrite !orb_true_iff, !feq_true.
  destruct r as [s|s| |s m e]; try destruct s; unfold num, key_eq; simpl;
    intuition (try discriminate; try lia).
Qed.

Lemma sind_exact (x : float) :
  multiple_of_90 x -> is_exact (sind fsin fcos x) = true.
Proof.
  intros (V & F & k & Hk). unfold sind. rewrite F. simpl negb. cbv iota.
  destruct x as [s|s| |s m e]; try discriminate.
  - (* a zero *)
    destruct s; change (is_exact (fsin f0) = true);
      rewrite fsin_zero; reflexivity.
  - destruct (valid_finite _ _ _ V) as (_ & R & _).
    destruct s; simpl flt; cbv iota.
    + apply is_exact_fneg. simpl fneg.
      apply (sind_reduced_exact m e (- k)); [lia|].
      cbv [units cond_Zopp] in Hk. lia.
    + apply (sind_reduced_exact m e k); [lia|]. exact Hk.
Qed.

End SindExact.

Lemma cosd_exact (fsin fcos : float -> float) (x : float) :
  fsin f0 = f0 -> fcos f0 = f1 ->
  multiple_of_90 (fadd x f90) -> is_exact (cosd fsin fcos x) = true.
Proof. intros Hs Hc H. unfold cosd. apply sind_exact; assumption. Qed.


(** C7: 90 * 2^20 degrees is a finite multiple of 90 (and of 360).
    [sind] reduces it to remainder 0 and is exact, but [cosd] first adds
    90 in binary32, which rounds the angle to 90 * (2^20 + 1) - 2, and so
    returns the library cosine of -2 degrees where 1 is due. *)
Theorem cosd_large_multiple :
  forall fsin fcos : float -> float,
    multiple_of_90 angle_big
    /\ remquo angle_big f90 = (f0, 0)
    /\ sind fsin fcos angle_big = fsin (radians f0)
    /\ fadd angle_big f90 = of_Z (90 * (2 ^ 20 + 1) - 2)
    /\ remquo (fadd angle_big f90) f90 = (fm2, 1)
    /\ cosd fsin fcos angle_big = fcos (radians fm2).
Proof.
  intros fsin fcos. split.
  - split; [reflexivity|]. split; [reflexivity|].
    exists (2 ^ 20). vm_compute. reflexivity.
  - repeat split.
Qed.

(** ** Shifting and scaling a box *)

Lemma Box_add_ordered (b : Box.t) (shift : vec3.t) :
  valid_box b -> valid3 shift -> ordered b ->
  no_nan3 (add3 (Box.min b) shift) -> no_nan3 (add3 (Box.max b) shift) ->
  ordered (Box.add b shift).
Proof.
  destruct b as [[lx ly lz] [hx hy hz]], shift as [sx sy sz].
  unfold valid_box, valid3, ordered, le3, no_nan3, Box.add, add3, zip3.
  simpl. intros [(Vlx & Vly & Vlz) (Vhx & Vhy & Vhz)] (Vsx & Vsy & Vsz)
    (Hx & Hy & Hz) (Nlx & Nly & Nlz) (Nhx & Nhy & Nhz).
  repeat split; apply fadd_mono; assumption.
Qed.

Lemma Box_mul_ordered (b : Box.t) (scale : vec3.t) :
  valid_box b -> valid3 scale -> ordered b ->
  le3 (splat f0) scale ->
  no_nan3 (mul3 (Box.min b) scale) -> no_nan3 (mul3 (Box.max b) scale) ->
  ordered (Box.mul b scale).
Proof.
  destruct b as [[lx ly lz] [hx hy hz]], scale as [sx sy sz].
  unfold valid_box, valid3, ordered, le3, no_nan3, Box.mul, mul3, zip3, splat.
  simpl. intros [(Vlx & Vly & Vlz) (Vhx & Vhy & Vhz)] (Vsx & Vsy & Vsz)
    (Hx & Hy & Hz) (Px & Py & Pz) (Nlx & Nly & Nlz) (Nhx & Nhy & Nhz).
  repeat split; apply fmul_mono; assumption.
Qed.

(** C2, as amended: the box of two points without NaN coordinates has
    [min <= max]; [Union] with any point or box keeps [min <= max];
    [Transform] yields [min <= max] whenever the two transformed corners
    have no NaN coordinate; on binary32 numbers [operator+] and
    [operator+=] keep [min <= max] whenever the shifted corners have no
    NaN coordinate, and [operator*] and [operator*=] do so for a scale
    whose components are all [>= 0] whenever the scaled corners have no
    NaN coordinate. *)
Theorem Box_ordered_preserved :
  (forall p1 p2, no_nan3 p1 -> no_nan3 p2 -> ordered (Box.of_points p1 p2))
  /\ (forall b p, ordered b -> ordered (Box.Union_point b p))
  /\ (forall b box, ordered b -> ordered (Box.Union b box))
  /\ (forall b t,
        no_nan3 (mul_mat4x3_vec4 t (vec4_of (Box.min b) f1)) ->
        no_nan3 (mul_mat4x3_vec4 t (vec4_of (Box.max b) f1)) ->
        ordered (Box.Transform b t))
  /\ (forall b shift,
        valid_box b -> valid3 shift -> ordered b ->
        no_nan3 (add3 (Box.min b) shift) ->
        no_nan3 (add3 (Box.max b) shift) ->
        ordered (Box.add b shift) /\ ordered (Box.add_assign b shift))
  /\ (forall b scale,
        valid_box b -> valid3 scale -> ordered b ->
        le3 (splat f0) scale ->
        no_nan3 (mul3 (Box.min b) scale) ->
        no_nan3 (mul3 (Box.max b) scale) ->
        ordered (Box.mul b scale) /\ ordered (Box.mul_assign b scale)).
Proof.
  split; [exact of_points_ordered|].
  split; [exact Union_point_ordered|].
  split; [exact Union_ordered|].
  split; [exact Transform_ordered|].
  split.
  - intros b shift Vb Vs Hb N1 N2.
    split; exact (Box_add_ordered b shift Vb Vs Hb N1 N2).
  - intros b scale Vb Vs Hb Hs N1 N2.
    split; exact (Box_mul_ordered b scale Vb Vs Hb Hs N1 N2).
Qed.

Lemma Box_ordered_preserved_witness :
  ordered (Box.of_points (splat f1) (splat f0))
  /\ ordered (Box.Union_point unit_box (splat f3))
  /\ ordered (Box.Union unit_box far_box)
  /\ ordered (Box.add unit_box (splat fm1))
  /\ ordered (Box.mul unit_box (splat f3)).
Proof.
  split; [|split; [|split; [|split]]].
  - apply (proj1 Box_ordered_preserved); repeat split.
  - apply (proj1 (proj2 Box_ordered_preserved)); repeat split.
  - apply (proj1 (proj2 (proj2 Box_ordered_preserved))); repeat split.
  - apply (proj1 (proj2 (proj2 (proj2 (proj2 Box_ordered_preserved)))));
      repeat split.
  - apply (proj2 (proj2 (proj2 (proj2 (proj2 Box_ordered_preserved)))));
      repeat split.
Defined.

(** * Further properties of the code *)

Import MoreProps.

(** ** Halfedges *)

(** X1: [Halfedge::operator<] is a strict order on halfedges: no halfedge
    is below itself, two halfedges are never below each other, the
    relation is transitive, and two halfedges that it orders in neither
    direction have the same start and the same end vertex (the paired
    halfedge and the face are not compared). *)
Theorem Halfedge_lt_strict_order :
  forall a b c : Halfedge,
    Halfedge_lt a a = false
    /\ (Halfedge_lt a b = true -> Halfedge_lt b a = false)
    /\ (Halfedge_lt a b = true -> Halfedge_lt b c = true ->
        Halfedge_lt a c = true)
    /\ (Halfedge_lt a b = false -> Halfedge_lt b a = false ->
        startVert a = startVert b /\ endVert a = endVert b).
Proof.
  intros [sa ea pa fa] [sb eb pb fb] [sc ec pc fc].
  unfold Halfedge_lt. simpl.
  repeat match goal with
  | |- context [?x =? ?y] => destruct (Z.eqb_spec x y)
  | |- context [?x <? ?y] => destruct (Z.ltb_spec x y)
  end; repeat split; intros; try discriminate; try lia.
Qed.

(** X2: for the two halfedges of one edge, [IsForward] of a halfedge is
    [operator<] against the opposite one; between two different vertices
    exactly one of the two is forward, and a halfedge from a vertex to
    itself is forward in neither direction. *)
Theorem IsForward_opposite :
  forall h g : Halfedge,
    opposite h g ->
    IsForward h = Halfedge_lt h g
    /\ (startVert h <> endVert h -> IsForward g = negb (IsForward h))
    /\ (startVert h = endVert h -> IsForward h = false /\ IsForward g = false).
Proof.
  intros [sh eh ph fh] [sg eg pg fg] [H1 H2]. simpl in *. subst sg eg.
  unfold IsForward, Halfedge_lt. simpl.
  repeat match goal with
  | |- context [?x =? ?y] => destruct (Z.eqb_spec x y)
  | |- context [?x <? ?y] => destruct (Z.ltb_spec x y)
  end; repeat split; intros; simpl; try discriminate; try lia; try reflexivity.
Qed.

Lemma IsForward_opposite_witness :
  opposite edge12 edge21
  /\ IsForward edge12 = Halfedge_lt edge12 edge21
  /\ IsForward edge21 = negb (IsForward edge12).
Proof.
  assert (H : opposite edge12 edge21) by (split; reflexivity).
  split; [exact H|].
  destruct (IsForward_opposite edge12 edge21 H) as (A & B & _).
  split; [exact A|]. apply B. discriminate.
Defined.

(** ** Containment *)

Section ContainsFacts.

Lemma fle_refl (x : float) : num x -> fle x x = true.
Proof. intros H. forder. Qed.

Lemma fle_antisym (x y : float) :
  fle x y = true -> fle y x = true -> feq x y = true.
Proof. intros H1 H2. forder. Qed.

(** The smaller of two numbers is one of them. *)
Lemma min_cases (a b : float) : min a b = a \/ min a b = b.
Proof. unfold min. destruct (flt b a); auto. Qed.

Lemma max_cases (a b : float) : max a b = a \/ max a b = b.
Proof. unfold max. destruct (flt a b); auto. Qed.

Lemma fle_min_glb (c a b : float) :
  fle c a = true -> fle c b = true -> fle c (min a b) = true.
Proof. intros Ha Hb. destruct (min_cases a b) as [->| ->]; assumption. Qed.

Lemma fle_max_lub (c a b : float) :
  fle a c = true -> fle b c = true -> fle (max a b) c = true.
Proof. intros Ha Hb. destruct (max_cases a b) as [->| ->]; assumption. Qed.

Lemma min_absorb (a b : float) :
  num b -> (fle a b = true <-> feq (min a b) a = true).
Proof.
  intros Hb. unfold min. split; intros H.
  - destruct (flt b a) eqn:E; forder.
  - destruct (flt b a) eqn:E; forder.
Qed.

Lemma max_absorb (a b : float) :
  num b -> (fle b a = true <-> feq (max a b) a = true).
Proof.
  intros Hb. unfold max. split; intros H.
  - destruct (flt a b) eqn:E; forder.
  - destruct (flt a b) eqn:E; forder.
Qed.

End ContainsFacts.

(** X3: [Contains] is a partial order on boxes: every box without NaN
    coordinates contains itself, containment is transitive, and two boxes
    that contain each other are equal under [==] in every coordinate. *)
Theorem Contains_partial_order :
  (forall a, no_nan_box a -> Box.Contains a a = true)
  /\ (forall a b c, Box.Contains a b = true -> Box.Contains b c = true ->
        Box.Contains a c = true)
  /\ (forall a b, Box.Contains a b = true -> Box.Contains b a = true ->
        box_eq a b = true).
Proof.
  split; [|split].
  - intros a Ha. unbox. split_all; apply fle_refl; assumption.
  - intros a b c H1 H2. unbox. split_all; eapply fle_trans; eassumption.
  - intros a b H1 H2. unbox. split_all; apply fle_antisym; assumption.
Qed.

(** X4: a box that contains two boxes contains their [Union]: the union
    is the least box above both. *)
Theorem Union_least_upper_bound :
  forall a b c : Box.t,
    Box.Contains c a = true -> Box.Contains c b = true ->
    Box.Contains c (Box.Union a b) = true.
Proof.
  intros a b c H1 H2. unbox. split_all;
    first [apply fle_min_glb | apply fle_max_lub]; assumption.
Qed.

Lemma Union_least_upper_bound_witness :
  Box.Contains hull_box (Box.Union unit_box far_box) = true.
Proof.
  apply (Union_least_upper_bound unit_box far_box hull_box); reflexivity.
Defined.

(** X5: a box contains a box without NaN coordinates exactly when the
    [Union] with it equals the box itself under [==]. *)
Theorem Contains_iff_Union_unchanged :
  forall a b : Box.t,
    no_nan_box b ->
    (Box.Contains a b = true <-> box_eq (Box.Union a b) a = true).
Proof.
  intros a b Hb. unbox.
  destruct Hb as [(B1 & B2 & B3) (B4 & B5 & B6)].
  rewrite !andb_true_iff.
  rewrite <- !min_absorb, <- !max_absorb by assumption. tauto.
Qed.

Lemma Contains_iff_Union_unchanged_witness :
  no_nan_box far_box
  /\ (Box.Contains hull_box far_box = true
      <-> box_eq (Box.Union hull_box far_box) hull_box = true).
Proof.
  assert (H : no_nan_box far_box) by (repeat split).
  split; [exact H|]. exact (Contains_iff_Union_unchanged hull_box far_box H).
Defined.

(** X6: the box built from two points without NaN coordinates holds both
    points; [Union] with a point yields a box that holds the point, passes
    [DoesOverlap] on it and contains the box it started from. *)
Theorem Box_holds_its_points :
  (forall p1 p2, no_nan3 p1 -> no_nan3 p2 ->
     inside (Box.of_points p1 p2) p1 /\ inside (Box.of_points p1 p2) p2)
  /\ (forall b p, no_nan_box b -> no_nan3 p ->
        inside (Box.Union_point b p) p
        /\ Box.DoesOverlap_point (Box.Union_point b p) p = true
        /\ Box.Contains (Box.Union_point b p) b = true).
Proof.
  split.
  - intros p1 p2 H1 H2. unbox. split_all;
      first [apply min_le_l | apply min_le_r | apply max_ge_l | apply max_ge_r];
      assumption.
  - intros b p Hb Hp. unbox. split_all;
      first [apply min_le_l | apply min_le_r | apply max_ge_l | apply max_ge_r];
      assumption.
Qed.

(** X7: [DoesOverlap] between boxes is symmetric, and a box overlaps
    every box with [min <= max] that it contains. *)
Theorem DoesOverlap_symmetric :
  (forall a b : Box.t, Box.DoesOverlap a b = Box.DoesOverlap b a)
  /\ (forall a b : Box.t,
        Box.Contains a b = true -> ordered b -> Box.DoesOverlap a b = true).
Proof.
  split.
  - intros a b. unfold Box.DoesOverlap, fge.
    repeat match goal with
    | |- context [fle ?u ?v] =>
        let e := fresh "c" in set (e := fle u v); clearbody e
    end.
    repeat match goal with c : bool |- _ => destruct c end; reflexivity.
  - intros a b Hc Hb. unbox. split_all; eapply fle_trans; eassumption.
Qed.

(** ** Finite boxes and the scale *)

Section FiniteFacts.

Lemma isfinite_num (x : float) : isfinite x = true -> num x.
Proof. destruct x; intros H; try discriminate; reflexivity. Qed.

Lemma isfinite_min (a b : float) :
  isfinite a = true -> isfinite b = true -> isfinite (min a b) = true.
Proof. intros Ha Hb. destruct (min_cases a b) as [->| ->]; assumption. Qed.

Lemma isfinite_max (a b : float) :
  isfinite a = true -> isfinite b = true -> isfinite (max a b) = true.
Proof. intros Ha Hb. destruct (max_cases a b) as [->| ->]; assumption. Qed.

End FiniteFacts.

Ltac unfinite :=
  repeat match goal with
  | b : Box.t |- _ => destruct b as [[? ? ?] [? ? ?]]
  | v : vec3.t |- _ => destruct v as [? ? ?]
  end;
  unfold Box.isFinite, all_isfinite3, Box.Union, Box.Union_point,
    Box.of_points, no_nan_box, no_nan3, min3, max3, zip3 in *;
  simpl in *;
  repeat match goal with
  | H : _ /\ _ |- _ => destruct H
  | H : andb _ _ = true |- _ => apply andb_true_iff in H
  end.

(** X8: finite boxes are closed under [Union] with a finite box or
    point, the box of two finite points is finite, a finite box has no NaN
    coordinate, and the default box is not finite. *)
Theorem isFinite_closed :
  (forall a b, Box.isFinite a = true -> Box.isFinite b = true ->
     Box.isFinite (Box.Union a b) = true)
  /\ (forall b p, Box.isFinite b = true -> all_isfinite3 p = true ->
        Box.isFinite (Box.Union_point b p) = true)
  /\ (forall p1 p2, all_isfinite3 p1 = true -> all_isfinite3 p2 = true ->
        Box.isFinite (Box.of_points p1 p2) = true)
  /\ (forall b, Box.isFinite b = true -> no_nan_box b)
  /\ Box.isFinite Box.default = false.
Proof.
  split; [|split; [|split; [|split]]].
  - intros a b Ha Hb. unfinite.
    repeat (apply andb_true_iff; split);
      first [apply isfinite_min | apply isfinite_max]; assumption.
  - intros b p Hb Hp. unfinite.
    repeat (apply andb_true_iff; split);
      first [apply isfinite_min | apply isfinite_max]; assumption.
  - intros p1 p2 H1 H2. unfinite.
    repeat (apply andb_true_iff; split);
      first [apply isfinite_min | apply isfinite_max]; assumption.
  - intros b Hb. unfinite. repeat split; apply isfinite_num; assumption.
  - reflexivity.
Qed.

Section ScaleFacts.

Lemma fabs_num (x : float) : num x -> num (fabs x).
Proof. destruct x; intros H; try discriminate; reflexivity. Qed.

Lemma fabs_nonneg (x : float) : num x -> fle f0 (fabs x) = true.
Proof. destruct x as [s|s| |s m e]; intros H; try discriminate; reflexivity. Qed.

(** [glm::abs] differs from the absolute value by the sign of a zero
    only. *)
Lemma abs_num (x : float) : num x -> num (abs x).
Proof.
  destruct x as [[|]|[|]| |[|] m e]; intros H; try discriminate; reflexivity.
Qed.

Lemma abs_feq_fabs (x : float) : num x -> feq (abs x) (fabs x) = true.
Proof.
  destruct x as [[|]|[|]| |[|] m e]; intros H; try discriminate;
    try reflexivity; unfold abs; simpl;
    apply feq_intro; try reflexivity; unfold key_eq; lia.
Qed.

Lemma abs_nonneg (x : float) : num x -> fle f0 (abs x) = true.
Proof.
  destruct x as [[|]|[|]| |[|] m e]; intros H; try discriminate; reflexivity.
Qed.

End ScaleFacts.

(** X9: for a box without NaN coordinates [Scale] bounds the absolute
    value of each of the six coordinates, is [glm::abs] of one of them
    and so equal to its absolute value under [==], and is not negative
    under [>=].  As [glm::abs] keeps the sign of [-0], [Scale] of the box
    whose coordinates are all [-0] is [-0]. *)
Theorem Scale_bounds_coordinates :
  forall b : Box.t,
    no_nan_box b ->
    (forall c, In c (coordinates b) -> fle (fabs c) (Box.Scale b) = true)
    /\ (exists c, In c (coordinates b) /\ Box.Scale b = abs c
                  /\ feq (Box.Scale b) (fabs c) = true)
    /\ fle f0 (Box.Scale b) = true
    /\ Box.Scale negative_zero_box = fneg f0.
Proof.
  intros [[lx ly lz] [hx hy hz]] [(N1 & N2 & N3) (N4 & N5 & N6)].
  unfold Box.Scale, coordinates, max3, abs3, zip3, map3.
  cbn [Box.min Box.max vec3.x vec3.y vec3.z] in *.
  pose proof (abs_num _ N1) as A1. pose proof (abs_num _ N2) as A2.
  pose proof (abs_num _ N3) as A3. pose proof (abs_num _ N4) as A4.
  pose proof (abs_num _ N5) as A5. pose proof (abs_num _ N6) as A6.
  set (ax := max (abs lx) (abs hx)). set (ay := max (abs ly) (abs hy)).
  set (az := max (abs lz) (abs hz)).
  assert (Nx : num ax) by (apply max_num; assumption).
  assert (Ny : num ay) by (apply max_num; assumption).
  assert (Nz : num az) by (apply max_num; assumption).
  assert (Nyz : num (max ay az)) by (apply max_num; assumption).
  assert (Bx : fle ax (max ax (max ay az)) = true) by (apply max_ge_l; assumption).
  assert (Byz : fle (max ay az) (max ax (max ay az)) = true)
    by (apply max_ge_r; assumption).
  assert (By : fle ay (max ax (max ay az)) = true)
    by (eapply fle_trans; [apply max_ge_l|exact Byz]; assumption).
  assert (Bz : fle az (max ax (max ay az)) = true)
    by (eapply fle_trans; [apply max_ge_r|exact Byz]; assumption).
  assert (G : forall c, num c -> fle (fabs c) (abs c) = true).
  { intros c Nc. pose proof (abs_feq_fabs c Nc) as E. forder. }
  split; [|split; [|split]].
  - intros c [<-|[<-|[<-|[<-|[<-|[<-|[]]]]]]];
      (eapply fle_trans; [apply G; assumption|]).
    + eapply fle_trans; [apply max_ge_l|exact Bx]; assumption.
    + eapply fle_trans; [apply max_ge_l|exact By]; assumption.
    + eapply fle_trans; [apply max_ge_l|exact Bz]; assumption.
    + eapply fle_trans; [apply max_ge_r|exact Bx]; assumption.
    + eapply fle_trans; [apply max_ge_r|exact By]; assumption.
    + eapply fle_trans; [apply max_ge_r|exact Bz]; assumption.
  - unfold ax, ay, az.
    destruct (max_cases (max (abs lx) (abs hx))
                (max (max (abs ly) (abs hy)) (max (abs lz) (abs hz))))
      as [->| ->].
    + destruct (max_cases (abs lx) (abs hx)) as [->| ->];
        eexists; (split; [|split; [reflexivity|apply abs_feq_fabs]]);
        try assumption; simpl; tauto.
    + destruct (max_cases (max (abs ly) (abs hy)) (max (abs lz) (abs hz)))
        as [->| ->].
      * destruct (max_cases (abs ly) (abs hy)) as [->| ->];
          eexists; (split; [|split; [reflexivity|apply abs_feq_fabs]]);
          try assumption; simpl; tauto.
      * destruct (max_cases (abs lz) (abs hz)) as [->| ->];
          eexists; (split; [|split; [reflexivity|apply abs_feq_fabs]]);
          try assumption; simpl; tauto.
  - eapply fle_trans; [apply (abs_nonneg lx N1)|].
    eapply fle_trans; [apply max_ge_l|exact Bx]; assumption.
  - reflexivity.
Qed.

Lemma Scale_bounds_coordinates_witness :
  no_nan_box far_box /\ fle f0 (Box.Scale far_box) = true.
Proof.
  assert (H : no_nan_box far_box) by (repeat split).
  split; [exact H|].
  exact (proj1 (proj2 (proj2 (Scale_bounds_coordinates far_box H)))).
Defined.

(** ** Box arithmetic on binary32 numbers *)

(** ** Exact results and closure of the arithmetic *)

Section Exactness.

(** A representable value is rounded to itself. *)
Lemma round_pos_exact (m : positive) (e j : Z) :
  e = fexp32 (Zdigits2 (Zpos m) + e) -> 0 <= j ->
  round_pos (Zpos m * 2 ^ j) (e - j) = (Zpos m, e).
Proof.
  intros C Hj. unfold round_pos.
  rewrite Zdigits2_shift by lia.
  replace (Zdigits2 (Z.pos m) + j + (e - j)) with (Zdigits2 (Z.pos m) + e) by lia.
  rewrite <- C. unfold round_to.
  replace (e - (e - j)) with j by lia.
  destruct (Z.ltb_spec 0 j) as [H|H].
  - rewrite rne_exact by lia. unfold shift_to. rewrite <- C, Z.sub_diag.
    reflexivity.
  - assert (j = 0) by lia. subst j.
    rewrite Z.pow_0_r, Z.mul_1_r, Z.sub_0_r. unfold shift_to.
    rewrite <- C, Z.sub_diag. reflexivity.
Qed.

Lemma finish_valid_finite (s : bool) (m : positive) (e : Z) :
  valid (S754_finite s m e) -> finish s (Zpos m, e) = S754_finite s m e.
Proof.
  intros V. destruct (valid_finite _ _ _ V) as (_ & R & _).
  unfold finish. simpl fst. simpl snd.
  destruct (Z.leb_spec e (emax - prec)) as [_|H]; [reflexivity|].
  unfold emax, prec in H. lia.
Qed.

(** The outcome of rounding is a binary32 number. *)
Lemma finish_round_valid (s : bool) (m e : Z) :
  0 < m -> e <= fexp32 (Zdigits2 m + e) -> valid (finish s (round_pos m e)).
Proof.
  intros Hm Hpre.
  pose proof (m1_upper m e Hm Hpre) as [L U].
  pose proof (m1_lower m e Hm Hpre) as Lo.
  pose proof (fexp32_ge (Zdigits2 m + e)) as HE.
  set (E := fexp32 (Zdigits2 m + e)) in *.
  set (m1 := rne m (E - e)) in *.
  assert (canon : forall p e', 
             fexp32 (Zdigits2 (Zpos p) + e') = e' ->
             valid (finish s (Zpos p, e'))).
  { intros p e' C. unfold finish. simpl fst. simpl snd.
    destruct (Z.leb_spec e' (emax - prec)) as [H|H]; [|reflexivity].
    unfold valid, is_float32, valid_binary, bounded, canonical_mantissa.
    change (fexp prec emax) with fexp32.
    change (Z.pos (digits2_pos p)) with (Zdigits2 (Zpos p)).
    rewrite C, Z.eqb_refl. apply Z.leb_le in H. rewrite H. reflexivity. }
  destruct (round_pos_cases m e Hm Hpre) as [[H1 ->]|[H1 ->]]; fold E m1 in H1 |- *.
  - destruct m1 as [|p|p] eqn:Em1; [reflexivity| |lia].
    apply canon. rewrite fexp32_spec.
    assert (Hd : Zdigits2 (Zpos p) <= 24) by (apply Zdigits2_le; lia).
    destruct (Z.eq_dec E (-149)) as [->|Hn]; [lia|].
    assert (2 ^ 23 <= Zpos p) by (apply Lo; lia).
    assert (23 + 1 <= Zdigits2 (Zpos p)) by (apply Zdigits2_ge; lia).
    lia.
  - change (2 ^ 23) with (Zpos 8388608). apply canon.
    change (Zdigits2 (Zpos 8388608)) with 24. rewrite fexp32_spec. lia.
Qed.

Lemma fmul_valid (x y : float) : valid x -> valid y -> valid (fmul x y).
Proof.
  intros Vx Vy.
  destruct x as [sx|sx| |sx mx ex], y as [sy|sy| |sy my ey]; try reflexivity.
  rewrite fmul_finite. apply finish_round_valid; [lia|].
  apply (mul_pre sx mx ex sy my ey); assumption.
Qed.

Lemma BN_valid_result (z e : Z) : valid (BN z e).
Proof.
  unfold BN, binary_normalize. destruct z as [|p|p]; [reflexivity| |].
  - destruct (binary_round_spec false p e) as (m' & e' & -> & Pm & _ & _ & C).
    apply finish_round_valid; assumption.
  - destruct (binary_round_spec true p e) as (m' & e' & -> & Pm & _ & _ & C).
    apply finish_round_valid; assumption.
Qed.

Lemma fadd_valid (x y : float) : valid x -> valid y -> valid (fadd x y).
Proof.
  intros Vx Vy.
  destruct x as [sx|sx| |sx mx ex], y as [sy|sy| |sy my ey];
    try destruct sx; try destruct sy; try reflexivity; try assumption.
  all: unfold fadd, SFadd; apply BN_valid_result.
Qed.

Lemma fneg_valid (x : float) : valid x -> valid (fneg x).
Proof. destruct x; auto. Qed.

Lemma fsub_fadd (x y : float) : fsub x y = fadd x (fneg y).
Proof.
  destruct x as [sx|sx| |sx mx ex], y as [sy|sy| |sy my ey];
    try destruct sx; try destruct sy; try reflexivity.
Qed.

(** A number is unchanged by the factor 1. *)
Lemma fmul_one (x : float) : valid x -> fmul x f1 = x.
Proof.
  intros V. destruct x as [s|s| |s m e]; try (destruct s; reflexivity);
    try reflexivity.
  destruct (valid_finite _ _ _ V) as (C & _).
  unfold f1. rewrite fmul_finite, xorb_false_r.
  change (Z.pos (m * 8388608)) with (Zpos m * 2 ^ 23).
  replace (e + -23) with (e - 23) by lia.
  rewrite (round_pos_exact m e 23 C) by lia.
  apply finish_valid_finite, V.
Qed.

End Exactness.

Section SumFacts.

Lemma fequiv_refl (x : float) : fequiv x x.
Proof. left. reflexivity. Qed.

Lemma fequiv_sym (x y : float) : fequiv x y -> fequiv y x.
Proof. intros [->|[H1 H2]]; [left|right]; auto. Qed.

Lemma fequiv_trans (x y z : float) : fequiv x y -> fequiv y z -> fequiv x z.
Proof.
  intros [->|[H1 H2]] [->|[H3 H4]]; try (left; reflexivity);
    right; auto.
Qed.

Lemma fequiv_feq (x y : float) : fequiv x y -> num x -> feq x y = true.
Proof.
  intros [->|[H1 H2]] N.
  - apply feq_intro; try assumption. unfold key_eq. lia.
  - destruct x, y; try discriminate. reflexivity.
Qed.

Lemma fequiv_num (x y : float) : fequiv x y -> num x -> num y.
Proof.
  intros [->|[H1 H2]] N; [assumption|]. destruct y; try discriminate.
  reflexivity.
Qed.

(** Adding a zero changes at most the sign of a zero. *)
Lemma fadd_zero_r (x : float) (s : bool) : fequiv (fadd x (S754_zero s)) x.
Proof.
  destruct x as [sx|sx| |sx mx ex]; try (left; reflexivity).
  destruct sx, s; (left; reflexivity) || (right; split; reflexivity).
Qed.

Lemma fadd_f0 (x : float) : num x -> feq (fadd x f0) x = true.
Proof.
  intros N. apply fequiv_feq; [apply (fadd_zero_r x false)|].
  apply (fequiv_num _ _ (fequiv_sym _ _ (fadd_zero_r x false))), N.
Qed.

Lemma fadd_fequiv_l (x x' t : float) :
  fequiv x x' -> fequiv (fadd x t) (fadd x' t).
Proof.
  intros [->|[H1 H2]]; [left; reflexivity|].
  destruct x as [sx| | |]; try discriminate.
  destruct x' as [sx'| | |]; try discriminate.
  destruct t as [st|st| |st mt et]; try (left; reflexivity).
  right. destruct sx, sx', st; split; reflexivity.
Qed.

Lemma units_fneg (x : float) : units (fneg x) = - units x.
Proof. destruct x as [s|s| |[|] m e]; cbv [units fneg SFopp cond_Zopp negb]; lia. Qed.

Lemma isfinite_fneg (x : float) : isfinite (fneg x) = isfinite x.
Proof. destruct x; reflexivity. Qed.

(** Two sums of the same exact value compare equal. *)
Lemma BN_same (z1 e1 z2 e2 : Z) :
  -149 <= e1 -> -149 <= e2 ->
  z1 * 2 ^ (e1 + 149) = z2 * 2 ^ (e2 + 149) ->
  feq (BN z1 e1) (BN z2 e2) = true.
Proof.
  intros H1 H2 H. apply fle_antisym; apply BN_mono; lia.
Qed.

(** The sum of two finite numbers is ordered like the exact sum. *)
Lemma fadd_le_by_units (x t y u : float) :
  valid x -> valid t -> valid y -> valid u ->
  isfinite x = true -> isfinite t = true ->
  isfinite y = true -> isfinite u = true ->
  units x + units t <= units y + units u ->
  fle (fadd x t) (fadd y u) = true.
Proof.
  intros Vx Vt Vy Vu Fx Ft Fy Fu H.
  destruct (fadd_value x t Vx Vt Fx Ft) as (z1 & e1 & He1 & Q1 & U1).
  destruct (fadd_value y u Vy Vu Fy Fu) as (z2 & e2 & He2 & Q2 & U2).
  rewrite (fle_fequiv_l _ _ _ Q1), (fle_fequiv_r _ _ _ Q2).
  apply BN_mono; lia.
Qed.

(** A finite number is the value of its own normal form. *)
Lemma BN_units (z e : Z) (r : float) :
  valid r -> isfinite r = true -> -149 <= e ->
  z * 2 ^ (e + 149) = units r -> feq (BN z e) r = true.
Proof.
  intros V F He H. destruct r as [s|s| |s m er]; try discriminate.
  - simpl in H. assert (z = 0).
    { pose proof (pow2_pos (e + 149) ltac:(lia)). nia. }
    subst z. destruct s; reflexivity.
  - destruct (valid_finite _ _ _ V) as (_ & R & _).
    rewrite <- (BN_valid s m er V).
    apply BN_same; try lia. rewrite units_cond. exact H.
Qed.

(** A number minus itself is a zero. *)
Lemma fadd_fneg_self (x : float) :
  valid x -> isfinite x = true -> feq (fadd x (fneg x)) f0 = true.
Proof.
  intros V F.
  destruct (fadd_value x (fneg x) V (fneg_valid x V) F) as (z & e & He & Q & U).
  { rewrite isfinite_fneg. exact F. }
  rewrite units_fneg in U.
  assert (E : feq (BN z e) f0 = true).
  { apply BN_units; try reflexivity; try assumption. simpl. lia. }
  assert (N : num (fadd x (fneg x))).
  { apply (fequiv_num _ _ (fequiv_sym _ _ Q)).
    destruct (proj1 (feq_true _ _) E) as (NB & _). exact NB. }
  pose proof (fequiv_feq _ _ Q N). forder.
Qed.

End SumFacts.

Section ArithNum.

Lemma BN_num (z e : Z) : num (BN z e).
Proof.
  unfold BN, binary_normalize. destruct z as [|p|p]; [reflexivity| |].
  - apply (binary_round_signed false p e).
  - apply (binary_round_signed true p e).
Qed.

(** Finite numbers add up to a number: a sum can overflow, but it is
    never a NaN. *)
Lemma fadd_finite_num (x t : float) :
  isfinite x = true -> isfinite t = true -> num (fadd x t).
Proof.
  intros Fx Ft.
  destruct x as [sx|sx| |sx mx ex], t as [st|st| |st mt et]; try discriminate;
    try reflexivity.
  - destruct sx, st; reflexivity.
  - unfold fadd, SFadd. apply BN_num.
Qed.

Lemma fmul_finite_num (x t : float) :
  isfinite x = true -> isfinite t = true -> num (fmul x t).
Proof.
  intros Fx Ft.
  destruct x as [sx|sx| |sx mx ex], t as [st|st| |st mt et]; try discriminate;
    try reflexivity.
  unfold fmul, SFmul. apply binary_round_aux_signed. lia.
Qed.

End ArithNum.

Section MinMaxArith.

Variables x y s : float.
Hypothesis Vx : valid x.
Hypothesis Vy : valid y.
Hypothesis Vs : valid s.

(** Rounded addition and multiplication by a non-negative factor commute
    with [min] and [max], up to [==]. *)
Lemma min_fadd :
  num (fadd x s) -> num (fadd y s) ->
  feq (fadd (min x y) s) (min (fadd x s) (fadd y s)) = true.
Proof.
  intros Nx Ny.
  destruct (fadd_num _ _ Nx) as [Hx Hs]. destruct (fadd_num _ _ Ny) as [Hy _].
  unfold min at 1. destruct (flt y x) eqn:E.
  - assert (L : fle (fadd y s) (fadd x s) = true)
      by (apply fadd_mono; try assumption; forder).
    unfold min. destruct (flt (fadd y s) (fadd x s)) eqn:E2; forder.
  - assert (L : fle (fadd x s) (fadd y s) = true)
      by (apply fadd_mono; try assumption; forder).
    unfold min. destruct (flt (fadd y s) (fadd x s)) eqn:E2; forder.
Qed.

Lemma max_fadd :
  num (fadd x s) -> num (fadd y s) ->
  feq (fadd (max x y) s) (max (fadd x s) (fadd y s)) = true.
Proof.
  intros Nx Ny.
  destruct (fadd_num _ _ Nx) as [Hx Hs]. destruct (fadd_num _ _ Ny) as [Hy _].
  unfold max at 1. destruct (flt x y) eqn:E.
  - assert (L : fle (fadd x s) (fadd y s) = true)
      by (apply fadd_mono; try assumption; forder).
    unfold max. destruct (flt (fadd x s) (fadd y s)) eqn:E2; forder.
  - assert (L : fle (fadd y s) (fadd x s) = true)
      by (apply fadd_mono; try assumption; forder).
    unfold max. destruct (flt (fadd x s) (fadd y s)) eqn:E2; forder.
Qed.

Lemma min_fmul :
  fle f0 s = true -> num (fmul x s) -> num (fmul y s) ->
  feq (fmul (min x y) s) (min (fmul x s) (fmul y s)) = true.
Proof.
  intros Ps Nx Ny.
  destruct (fmul_num _ _ Nx) as [Hx Hs]. destruct (fmul_num _ _ Ny) as [Hy _].
  unfold min at 1. destruct (flt y x) eqn:E.
  - assert (L : fle (fmul y s) (fmul x s) = true)
      by (apply fmul_mono; try assumption; forder).
    unfold min. destruct (flt (fmul y s) (fmul x s)) eqn:E2; forder.
  - assert (L : fle (fmul x s) (fmul y s) = true)
      by (apply fmul_mono; try assumption; forder).
    unfold min. destruct (flt (fmul y s) (fmul x s)) eqn:E2; forder.
Qed.

Lemma max_fmul :
  fle f0 s = true -> num (fmul x s) -> num (fmul y s) ->
  feq (fmul (max x y) s) (max (fmul x s) (fmul y s)) = true.
Proof.
  intros Ps Nx Ny.
  destruct (fmul_num _ _ Nx) as [Hx Hs]. destruct (fmul_num _ _ Ny) as [Hy _].
  unfold max at 1. destruct (flt x y) eqn:E.
  - assert (L : fle (fmul x s) (fmul y s) = true)
      by (apply fmul_mono; try assumption; forder).
    unfold max. destruct (flt (fmul x s) (fmul y s)) eqn:E2; forder.
  - assert (L : fle (fmul y s) (fmul x s) = true)
      by (apply fmul_mono; try assumption; forder).
    unfold max. destruct (flt (fmul x s) (fmul y s)) eqn:E2; forder.
Qed.

End MinMaxArith.

Ltac unarith :=
  repeat match goal with
  | b : Box.t |- _ => destruct b as [[? ? ?] [? ? ?]]
  | v : vec3.t |- _ => destruct v as [? ? ?]
  end;
  unfold valid_box, valid3, ordered, no_nan_box, inside, box_eq,
    Box.Contains, Box.Union, Box.add, Box.mul, Box.Size, Box.Center,
    all_ge3, fge, no_nan3, le3, eq3, min3, max3, add3, mul3, sub3, scale3,
    splat, zip3, map3 in *;
  simpl in *.

(** X10: on binary32 numbers, shifting two boxes by the same vector keeps
    [Contains] between them, and so does scaling them by the same vector
    with components [>= 0], whenever the shifted or scaled corners have no
    NaN coordinate. *)
Theorem Contains_shift_scale :
  forall (a b : Box.t) (v : vec3.t),
    valid_box a -> valid_box b -> valid3 v ->
    Box.Contains a b = true ->
    (no_nan_box (Box.add a v) -> no_nan_box (Box.add b v) ->
     Box.Contains (Box.add a v) (Box.add b v) = true)
    /\ (le3 (splat f0) v ->
        no_nan_box (Box.mul a v) -> no_nan_box (Box.mul b v) ->
        Box.Contains (Box.mul a v) (Box.mul b v) = true).
Proof.
  intros a b v Va Vb Vv H. split.
  - intros Na Nb. unarith. split_all; apply fadd_mono; assumption.
  - intros Pv Na Nb. unarith. split_all; apply fmul_mono; assumption.
Qed.

Lemma Contains_shift_scale_witness :
  Box.Contains (Box.add hull_box (splat f2)) (Box.add far_box (splat f2)) = true
  /\ Box.Contains (Box.mul hull_box (splat f2)) (Box.mul far_box (splat f2)) = true.
Proof.
  assert (Va : valid_box hull_box) by (repeat split).
  assert (Vb : valid_box far_box) by (repeat split).
  assert (Vv : valid3 (splat f2)) by (repeat split).
  assert (C : Box.Contains hull_box far_box = true) by reflexivity.
  destruct (Contains_shift_scale hull_box far_box (splat f2) Va Vb Vv C)
    as [A M].
  split; [apply A | apply M]; repeat split.
Defined.

(** X11: on binary32 numbers [operator+] distributes over [Union] up to
    [==], and so does [operator*] with a scale whose components are all
    [>= 0], whenever the shifted or scaled corners have no NaN
    coordinate: rounding is monotone, so it commutes with [min] and
    [max]. *)
Theorem Union_shift_scale :
  forall (a b : Box.t) (v : vec3.t),
    valid_box a -> valid_box b -> valid3 v ->
    (no_nan_box (Box.add a v) -> no_nan_box (Box.add b v) ->
     box_eq (Box.add (Box.Union a b) v)
            (Box.Union (Box.add a v) (Box.add b v)) = true)
    /\ (le3 (splat f0) v ->
        no_nan_box (Box.mul a v) -> no_nan_box (Box.mul b v) ->
        box_eq (Box.mul (Box.Union a b) v)
               (Box.Union (Box.mul a v) (Box.mul b v)) = true).
Proof.
  intros a b v Va Vb Vv. split.
  - intros Na Nb. unarith. split_all;
      first [apply min_fadd | apply max_fadd]; assumption.
  - intros Pv Na Nb. unarith. split_all;
      first [apply min_fmul | apply max_fmul]; assumption.
Qed.

Lemma Union_shift_scale_witness :
  box_eq (Box.add (Box.Union unit_box far_box) (splat f2))
         (Box.Union (Box.add unit_box (splat f2)) (Box.add far_box (splat f2)))
  = true.
Proof.
  assert (Va : valid_box unit_box) by (repeat split).
  assert (Vb : valid_box far_box) by (repeat split).
  assert (Vv : valid3 (splat f2)) by (repeat split).
  apply (proj1 (Union_shift_scale unit_box far_box (splat f2) Va Vb Vv));
    repeat split.
Defined.

(** X12: shifting a box without NaN coordinates by the zero vector
    leaves it unchanged under [==] (only the sign of a zero can change),
    and scaling a box of binary32 numbers by the vector of ones returns
    the very same box. *)
Theorem Box_neutral_shift_scale :
  forall b : Box.t,
    valid_box b -> no_nan_box b ->
    box_eq (Box.add b (splat f0)) b = true
    /\ Box.mul b (splat f1) = b.
Proof.
  intros b V N. split.
  - unarith. split_all; apply fadd_f0; assumption.
  - unarith. split_all. rewrite !fmul_one by assumption. reflexivity.
Qed.

Lemma Box_neutral_shift_scale_witness :
  box_eq (Box.add far_box (splat f0)) far_box = true
  /\ Box.mul far_box (splat f1) = far_box.
Proof.
  apply (Box_neutral_shift_scale far_box); repeat split.
Defined.

Section SizeFacts.

Lemma fsub_nonneg (lo hi : float) :
  valid lo -> valid hi -> fle lo hi = true -> num (fsub hi lo) ->
  fle f0 (fsub hi lo) = true.
Proof.
  intros Vl Vh H N. rewrite fsub_fadd in *.
  destruct (isfinite lo) eqn:F.
  - pose proof (fadd_fneg_self lo Vl F) as Z0.
    assert (L : fle (fadd lo (fneg lo)) (fadd hi (fneg lo)) = true).
    { apply fadd_mono; try assumption; [apply fneg_valid; assumption|].
      destruct (proj1 (feq_true _ _) Z0) as (NB & _). exact NB. }
    forder.
  - destruct lo as [?|[|]| |]; try discriminate;
      destruct hi as [[|]|[|]| |[|] ? ?]; try discriminate; reflexivity.
Qed.

End SizeFacts.

(** X13: the [Size] of a box of binary32 numbers with [min <= max] has
    no negative component, whenever it has no NaN component. *)
Theorem Size_nonnegative :
  forall b : Box.t,
    valid_box b -> ordered b -> no_nan3 (Box.Size b) ->
    le3 (splat f0) (Box.Size b).
Proof.
  intros b V O N. unarith. split_all; apply fsub_nonneg; assumption.
Qed.

Lemma Size_nonnegative_witness : le3 (splat f0) (Box.Size far_box).
Proof.
  apply (Size_nonnegative far_box); repeat split.
Defined.

Section TranslationFacts.

Lemma fadd_zero_l (x : float) (s : bool) : fequiv (fadd (S754_zero s) x) x.
Proof.
  destruct x as [sx|sx| |sx mx ex]; try (left; reflexivity).
  destruct sx, s; (left; reflexivity) || (right; split; reflexivity).
Qed.

Lemma fmul_f0_l (y : float) :
  isfinite y = true -> exists s, fmul f0 y = S754_zero s.
Proof.
  destruct y as [sy|sy| |sy my ey]; try discriminate; intros _;
    eexists; reflexivity.
Qed.

Lemma fmul_one_l (x : float) : valid x -> fmul f1 x = x.
Proof. intros V. rewrite fmul_comm. apply fmul_one, V. Qed.

(** The rows of a translation matrix add the translation to one
    coordinate; the products by 0 and 1 are exact. *)
Lemma row_translation_x (x y z t : float) :
  valid x -> valid t -> isfinite y = true -> isfinite z = true ->
  fequiv (row f1 f0 f0 t (vec4.mk x y z f1)) (fadd x t).
Proof.
  intros Vx Vt Fy Fz. unfold row. cbn [vec4.x vec4.y vec4.z vec4.w].
  destruct (fmul_f0_l y Fy) as [s1 ->]. destruct (fmul_f0_l z Fz) as [s2 ->].
  rewrite fmul_one_l, fmul_one by assumption.
  apply fadd_fequiv_l.
  eapply fequiv_trans; [apply fadd_zero_r|apply fadd_zero_r].
Qed.

Lemma row_translation_y (x y z t : float) :
  valid y -> valid t -> isfinite x = true -> isfinite z = true ->
  fequiv (row f0 f1 f0 t (vec4.mk x y z f1)) (fadd y t).
Proof.
  intros Vy Vt Fx Fz. unfold row. cbn [vec4.x vec4.y vec4.z vec4.w].
  destruct (fmul_f0_l x Fx) as [s1 ->]. destruct (fmul_f0_l z Fz) as [s2 ->].
  rewrite fmul_one_l, fmul_one by assumption.
  apply fadd_fequiv_l.
  eapply fequiv_trans; [apply fadd_zero_r|apply fadd_zero_l].
Qed.

Lemma row_translation_z (x y z t : float) :
  valid z -> valid t -> isfinite x = true -> isfinite y = true ->
  fequiv (row f0 f0 f1 t (vec4.mk x y z f1)) (fadd z t).
Proof.
  intros Vz Vt Fx Fy. unfold row. cbn [vec4.x vec4.y vec4.z vec4.w].
  destruct (fmul_f0_l x Fx) as [s1 ->]. destruct (fmul_f0_l y Fy) as [s2 ->].
  rewrite fmul_one_l, fmul_one by assumption.
  apply fadd_fequiv_l.
  assert (E : exists s, fadd (S754_zero s1) (S754_zero s2) = S754_zero s)
    by (destruct s1, s2; eexists; reflexivity).
  destruct E as [s ->]. apply fadd_zero_l.
Qed.

End TranslationFacts.

Section TransformFacts.

(** [min] and [max] of two numbers in order, each known up to the sign
    of a zero. *)
Lemma min_max_in_order (A B a b : float) :
  fequiv A a -> fequiv B b -> fle a b = true ->
  feq (min A B) a = true /\ feq (max A B) b = true.
Proof.
  intros QA QB H. destruct (fle_num _ _ H) as [Na Nb].
  pose proof (fequiv_feq _ _ (fequiv_sym _ _ QA) Na) as EA.
  pose proof (fequiv_feq _ _ (fequiv_sym _ _ QB) Nb) as EB.
  unfold min, max.
  destruct (flt B A) eqn:E1, (flt A B) eqn:E2; split; forder.
Qed.

End TransformFacts.

(** X14: [Transform] by the matrix of a translation equals [operator+]
    by the translation vector under [==], for a finite box of binary32
    numbers with [min <= max] and a finite translation: the products by
    the entries 0 and 1 of the matrix are exact. *)
Theorem Transform_translation :
  forall (b : Box.t) (t : vec3.t),
    valid_box b -> valid3 t ->
    Box.isFinite b = true -> all_isfinite3 t = true -> ordered b ->
    box_eq (Box.Transform b (translation t)) (Box.add b t) = true.
Proof.
  intros [[lx ly lz] [hx hy hz]] [tx ty tz]
    [(V1 & V2 & V3) (V4 & V5 & V6)] (T1 & T2 & T3) F Ft (O1 & O2 & O3).
  unfold Box.isFinite, all_isfinite3 in F, Ft. simpl in *.
  repeat match goal with
  | H : andb _ _ = true |- _ => apply andb_true_iff in H; destruct H
  end.
  assert (Lx : fle (fadd lx tx) (fadd hx tx) = true)
    by (apply fadd_mono; try assumption; apply fadd_finite_num; assumption).
  assert (Ly : fle (fadd ly ty) (fadd hy ty) = true)
    by (apply fadd_mono; try assumption; apply fadd_finite_num; assumption).
  assert (Lz : fle (fadd lz tz) (fadd hz tz) = true)
    by (apply fadd_mono; try assumption; apply fadd_finite_num; assumption).
  destruct (min_max_in_order _ _ _ _
              (row_translation_x lx ly lz tx ltac:(assumption) ltac:(assumption)
                 ltac:(assumption) ltac:(assumption))
              (row_translation_x hx hy hz tx ltac:(assumption) ltac:(assumption)
                 ltac:(assumption) ltac:(assumption)) Lx)
    as [X1 X2].
  destruct (min_max_in_order _ _ _ _
              (row_translation_y lx ly lz ty ltac:(assumption) ltac:(assumption)
                 ltac:(assumption) ltac:(assumption))
              (row_translation_y hx hy hz ty ltac:(assumption) ltac:(assumption)
                 ltac:(assumption) ltac:(assumption)) Ly)
    as [Y1 Y2].
  destruct (min_max_in_order _ _ _ _
              (row_translation_z lx ly lz tz ltac:(assumption) ltac:(assumption)
                 ltac:(assumption) ltac:(assumption))
              (row_translation_z hx hy hz tz ltac:(assumption) ltac:(assumption)
                 ltac:(assumption) ltac:(assumption)) Lz)
    as [Z1 Z2].
  unfold box_eq, eq3, Box.Transform, Box.add, translation, mul_mat4x3_vec4,
    vec4_of, min3, max3, add3, zip3. simpl.
  rewrite X1, X2, Y1, Y2, Z1, Z2. reflexivity.
Qed.

Lemma Transform_translation_witness :
  box_eq (Box.Transform far_box (translation (splat f2)))
         (Box.add far_box (splat f2)) = true.
Proof.
  apply (Transform_translation far_box (splat f2)); repeat split.
Defined.

Section CenterFacts.

Lemma valid_intro (s : bool) (m : positive) (e : Z) :
  fexp32 (Zdigits2 (Zpos m) + e) = e -> e <= 104 -> valid (S754_finite s m e).
Proof.
  intros C H. unfold valid, is_float32, valid_binary, bounded, canonical_mantissa.
  change (fexp prec emax) with fexp32.
  change (Z.pos (digits2_pos m)) with (Zdigits2 (Zpos m)).
  rewrite C, Z.eqb_refl.
  assert (E : (e <=? emax - prec) = true) by (apply Z.leb_le; unfold emax, prec; lia).
  rewrite E. reflexivity.
Qed.

Lemma fadd_self_finite (x : float) :
  isfinite (fadd x x) = true -> isfinite x = true.
Proof. destruct x as [s|[|]| |s m e]; intros H; try discriminate; reflexivity. Qed.

Lemma isfinite_between (a b c : float) :
  fle a b = true -> fle b c = true ->
  isfinite a = true -> isfinite c = true -> isfinite b = true.
Proof.
  intros H1 H2 Fa Fc.
  destruct b as [sb|[|]| |sb mb eb]; try reflexivity.
  - destruct a as [[|]|[|]| |[|] ? ?]; discriminate.
  - destruct c as [[|]|[|]| |[|] ? ?]; discriminate.
  - destruct a as [[|]|[|]| |[|] ? ?]; discriminate.
Qed.

(** Twice the largest exponent is out of range. *)
Lemma double_overflows (s : bool) (m : positive) :
  valid (S754_finite s m 104) ->
  isfinite (fadd (S754_finite s m 104) (S754_finite s m 104)) = false.
Proof.
  intros V. destruct (valid_finite _ _ _ V) as (C & R & D & S).
  set (x := S754_finite s m 104) in *.
  destruct (fadd_value x x V V eq_refl eq_refl) as (z & e & He & Q & U).
  assert (Dm : Zdigits2 (Zpos m) = 24).
  { destruct (Z.eq_dec (Zdigits2 (Zpos m)) 24); [assumption|]. lia. }
  assert (Lm : 2 ^ 23 <= Zpos m).
  { destruct (Zdigits2_bounds (Zpos m) ltac:(lia)) as [_ [L _]].
    rewrite Dm in L. exact L. }
  assert (I : isfinite (BN z e) = false).
  { destruct s; unfold x, units, cond_Zopp in U.
    - assert (L : fle (BN z e) (BN (-1) 128) = true).
      { apply BN_mono; [lia|lia|]. rewrite U.
        change (2 ^ (104 + 149)) with (2 ^ 253).
        change (2 ^ (128 + 149)) with (2 ^ 24 * 2 ^ 253).
        pose proof (pow2_pos 253 ltac:(lia)). nia. }
      change (BN (-1) 128) with fninf in L.
      destruct (BN z e) as [[|]|[|]| |[|] ? ?]; try discriminate; reflexivity.
    - assert (L : fle (BN 1 128) (BN z e) = true).
      { apply BN_mono; [lia|lia|]. rewrite U.
        change (2 ^ (104 + 149)) with (2 ^ 253).
        change (2 ^ (128 + 149)) with (2 ^ 24 * 2 ^ 253).
        pose proof (pow2_pos 253 ltac:(lia)). nia. }
      change (BN 1 128) with finf in L.
      destruct (BN z e) as [[|]|[|]| |[|] ? ?]; try discriminate; reflexivity. }
  destruct Q as [->|[Q1 Q2]]; [exact I|].
  destruct (BN z e); discriminate.
Qed.

(** The double of a number is a binary32 number unless it overflows, and
    half of it is the number again. *)
Lemma double_repr (x : float) :
  valid x -> isfinite x = true -> isfinite (fadd x x) = true ->
  exists r, valid r /\ isfinite r = true /\ units r = 2 * units x
            /\ fmul r half = x.
Proof.
  intros V F FD. destruct x as [s|s| |s m e]; try discriminate.
  - exists (S754_zero s). repeat split. destruct s; reflexivity.
  - destruct (valid_finite _ _ _ V) as (C & R & D & S).
    destruct (Z.eq_dec e 104) as [->|Ne].
    { rewrite (double_overflows s m V) in FD. discriminate. }
    destruct (Z.eq_dec (Zdigits2 (Zpos m)) 24) as [Dm|Dm].
    + exists (S754_finite s m (e + 1)). split; [|split; [|split]].
      * apply valid_intro; [|lia]. rewrite Dm, fexp32_spec.
        rewrite Dm, fexp32_spec in C. lia.
      * reflexivity.
      * unfold units. replace (e + 1 + 149) with (Z.succ (e + 149)) by lia.
        rewrite Z.pow_succ_r by lia. destruct s; cbv [cond_Zopp]; ring.
      * unfold half. rewrite fmul_finite, xorb_false_r.
        change (Z.pos (m * 8388608)) with (Zpos m * 2 ^ 23).
        replace (e + 1 + -24) with (e - 23) by lia.
        rewrite (round_pos_exact m e 23 C) by lia.
        apply finish_valid_finite, V.
    + assert (E : e = -149) by (apply S; lia). subst e.
      exists (S754_finite s (m~0) (-149)). split; [|split; [|split]].
      * apply valid_intro; [|lia]. rewrite fexp32_spec.
        assert (Dd : Zdigits2 (Zpos m~0) = Z.succ (Zdigits2 (Zpos m)))
          by (unfold Zdigits2; cbn [digits2_pos]; apply Pos2Z.inj_succ).
        rewrite Dd. pose proof (Zdigits2_bounds (Zpos m) ltac:(lia)). lia.
      * reflexivity.
      * unfold units. change (Zpos m~0) with (2 * Zpos m).
        destruct s; cbv [cond_Zopp]; ring.
      * unfold half. rewrite fmul_finite, xorb_false_r.
        replace (Z.pos (m~0 * 8388608)) with (Zpos m * 2 ^ 24) by lia.
        replace (-149 + -24) with (-149 - 24) by lia.
        rewrite (round_pos_exact m (-149) 24 C) by lia.
        apply finish_valid_finite, V.
Qed.

Lemma halve_double (x : float) :
  valid x -> isfinite (fadd x x) = true ->
  feq (fmul (fadd x x) half) x = true.
Proof.
  intros V FD. pose proof (fadd_self_finite x FD) as F.
  destruct (double_repr x V F FD) as (r & Vr & Fr & Ur & Hr).
  destruct (fadd_value x x V V F F) as (z & e & He & Q & U).
  assert (E1 : feq (BN z e) r = true) by (apply BN_units; try assumption; lia).
  assert (E2 : feq (fadd x x) (BN z e) = true)
    by (apply fequiv_feq; [exact Q|apply isfinite_num, FD]).
  assert (Vd : valid (fadd x x)) by (apply fadd_valid; assumption).
  assert (Vh : valid half) by reflexivity.
  assert (Ph : fle f0 half = true) by reflexivity.
  assert (N1 : num (fmul (fadd x x) half)) by (apply fmul_finite_num; auto).
  assert (N2 : num (fmul r half)) by (apply fmul_finite_num; auto).
  assert (L1 : fle (fmul (fadd x x) half) (fmul r half) = true)
    by (apply fmul_mono; try assumption; forder).
  assert (L2 : fle (fmul r half) (fmul (fadd x x) half) = true)
    by (apply fmul_mono; try assumption; forder).
  rewrite Hr in L1, L2. apply fle_antisym; assumption.
Qed.

(** The midpoint of two numbers in order lies between them. *)
Lemma center_between (lo hi : float) :
  valid lo -> valid hi -> fle lo hi = true ->
  isfinite (fadd lo lo) = true -> isfinite (fadd hi hi) = true ->
  fle lo (fmul half (fadd hi lo)) = true
  /\ fle (fmul half (fadd hi lo)) hi = true.
Proof.
  intros Vl Vh H Dl Dh.
  pose proof (fadd_self_finite lo Dl) as Fl.
  pose proof (fadd_self_finite hi Dh) as Fh.
  pose proof (fle_units lo hi Vl Vh Fl Fh H) as U.
  assert (L1 : fle (fadd lo lo) (fadd hi lo) = true)
    by (apply fadd_le_by_units; try assumption; lia).
  assert (L2 : fle (fadd hi lo) (fadd hi hi) = true)
    by (apply fadd_le_by_units; try assumption; lia).
  pose proof (isfinite_between _ _ _ L1 L2 Dl Dh) as Fm.
  assert (Vhalf : valid half) by reflexivity.
  assert (Ph : fle f0 half = true) by reflexivity.
  assert (M1 : fle (fmul (fadd lo lo) half) (fmul (fadd hi lo) half) = true)
    by (apply fmul_mono; try assumption; try apply fadd_valid;
        try apply fmul_finite_num; auto).
  assert (M2 : fle (fmul (fadd hi lo) half) (fmul (fadd hi hi) half) = true)
    by (apply fmul_mono; try assumption; try apply fadd_valid;
        try apply fmul_finite_num; auto).
  pose proof (halve_double lo Vl Dl) as E1.
  pose proof (halve_double hi Vh Dh) as E2.
  rewrite (fmul_comm half). split; forder.
Qed.

End CenterFacts.

(** X15: the [Center] of a box of binary32 numbers with [min <= max]
    lies inside the box in every coordinate, provided that doubling a
    corner coordinate does not overflow. *)
Theorem Center_inside :
  forall b : Box.t,
    valid_box b -> ordered b ->
    all_isfinite3 (add3 (Box.min b) (Box.min b)) = true ->
    all_isfinite3 (add3 (Box.max b) (Box.max b)) = true ->
    inside b (Box.Center b).
Proof.
  intros [[lx ly lz] [hx hy hz]]
    [(V1 & V2 & V3) (V4 & V5 & V6)] (O1 & O2 & O3) Dl Dh.
  unfold all_isfinite3, add3, zip3 in Dl, Dh. simpl in *.
  repeat match goal with
  | H : andb _ _ = true |- _ => apply andb_true_iff in H; destruct H
  end.
  destruct (center_between lx hx) as [X1 X2]; try assumption.
  destruct (center_between ly hy) as [Y1 Y2]; try assumption.
  destruct (center_between lz hz) as [Z1 Z2]; try assumption.
  unfold inside, le3, Box.Center, scale3, map3, add3, zip3. simpl.
  fold half. tauto.
Qed.

Lemma Center_inside_witness : inside far_box (Box.Center far_box).
Proof.
  apply (Center_inside far_box); repeat split.
Defined.

(** ** Quarter turns of sind and cosd *)

Section ExactSums.

Lemma feq_isfinite (x r : float) :
  feq x r = true -> isfinite r = true -> isfinite x = true.
Proof.
  destruct x as [?|[|]| |[|] ? ?], r as [?|[|]| |[|] ? ?];
    intros H F; try discriminate; reflexivity.
Qed.

(** An integer below 2^24 in magnitude is a binary32 number. *)
Lemma int_repr (z : Z) :
  Z.abs z < 2 ^ 24 ->
  exists r, valid r /\ isfinite r = true /\ units r = z * 2 ^ 149.
Proof.
  intros B. destruct (Z.eq_dec z 0) as [->|Nz].
  { exists f0. repeat split. }
  set (a := Z.abs z). assert (Ha : 0 < a) by (unfold a; lia).
  destruct (Zdigits2_bounds a Ha) as [Hd [Hl Hu]].
  set (d := Zdigits2 a) in *.
  assert (Hd24 : d <= 24) by (apply Zdigits2_le; unfold a; lia).
  pose proof (pow2_pos (24 - d) ltac:(lia)) as P.
  set (m := a * 2 ^ (24 - d)). assert (Hm : 0 < m) by (unfold m; lia).
  assert (Em : Zpos (Z.to_pos m) = m) by (apply Z2Pos.id; lia).
  exists (S754_finite (z <? 0) (Z.to_pos m) (d - 24)).
  split; [|split; [reflexivity|]].
  - apply valid_intro; [|lia]. rewrite Em. unfold m.
    rewrite Zdigits2_shift by lia. fold d. rewrite fexp32_spec. lia.
  - unfold units. rewrite Em. unfold m.
    rewrite <- Z.mul_assoc, <- Z.pow_add_r by lia.
    replace (24 - d + (d - 24 + 149)) with 149 by lia.
    destruct (Z.ltb_spec z 0); cbv [cond_Zopp]; unfold a; lia.
Qed.

(** A sum whose exact value is a binary32 number is not rounded. *)
Lemma fadd_exact (x t r : float) :
  valid x -> valid t -> valid r ->
  isfinite x = true -> isfinite t = true -> isfinite r = true ->
  units r = units x + units t ->
  valid (fadd x t) /\ isfinite (fadd x t) = true
  /\ units (fadd x t) = units r.
Proof.
  intros Vx Vt Vr Fx Ft Fr U.
  destruct (fadd_value x t Vx Vt Fx Ft) as (z & e & He & Q & Uz).
  assert (E1 : feq (BN z e) r = true) by (apply BN_units; try assumption; lia).
  assert (N : num (fadd x t)) by (apply fadd_finite_num; assumption).
  pose proof (fequiv_feq _ _ Q N) as E2.
  assert (E : feq (fadd x t) r = true) by forder.
  assert (V : valid (fadd x t)) by (apply fadd_valid; assumption).
  pose proof (feq_isfinite _ _ E Fr) as F.
  split; [exact V|]. split; [exact F|].
  assert (L1 : fle (fadd x t) r = true) by forder.
  assert (L2 : fle r (fadd x t) = true) by forder.
  pose proof (fle_units _ _ V Vr F Fr L1).
  pose proof (fle_units _ _ Vr V Fr F L2). lia.
Qed.

End ExactSums.

Section SindValues.
Variables fsin fcos : float -> float.
Hypothesis fsin_zero : fsin f0 = f0.
Hypothesis fcos_zero : fcos f0 = f1.

Lemma sind_reduced_value (m : positive) (e k : Z) :
  -149 <= e ->
  Zpos m * 2 ^ (e + 149) = k * (90 * 2 ^ 149) ->
  sind_reduced fsin fcos (S754_finite false m e) = quarter k.
Proof.
  intros He H. unfold sind_reduced. simpl fabs.
  rewrite (remquo_multiple m e k He H).
  change (radians f0) with f0. rewrite fsin_zero, fcos_zero.
  unfold quarter.
  pose proof (Z.mod_pos_bound k 8 ltac:(lia)) as Hb.
  assert (E : k mod 4 = (k mod 8) mod 4).
  { rewrite (Z.div_mod k 8) at 1 by lia.
    replace (8 * (k / 8) + k mod 8) with (k mod 8 + (2 * (k / 8)) * 4) by ring.
    apply Z.mod_add. lia. }
  rewrite E.
  assert (C : k mod 8 = 0 \/ k mod 8 = 1 \/ k mod 8 = 2 \/ k mod 8 = 3
              \/ k mod 8 = 4 \/ k mod 8 = 5 \/ k mod 8 = 6 \/ k mod 8 = 7) by lia.
  destruct C as [->|[->|[->|[->|[->|[->|[->| ->]]]]]]]; reflexivity.
Qed.

Lemma sind_value (x : float) (k : Z) :
  valid x -> isfinite x = true -> units x = k * (90 * 2 ^ 149) ->
  sind fsin fcos x = sind_table k.
Proof.
  intros V F Hk. unfold sind. rewrite F. simpl negb. cbv iota.
  destruct x as [s|s| |s m e]; try discriminate.
  - (* a zero *)
    assert (k = 0) by (simpl in Hk; lia). subst k.
    destruct s; change (fsin f0 = f0); exact fsin_zero.
  - destruct (valid_finite _ _ _ V) as (_ & R & _).
    pose proof (units_pos m e ltac:(lia)) as P.
    destruct s; cbv [units cond_Zopp] in Hk.
    + change (flt (S754_finite true m e) f0) with true. cbv iota.
      simpl fneg. unfold sind_table.
      destruct (Z.ltb_spec k 0) as [_|Hn]; [|lia].
      f_equal. apply sind_reduced_value; lia.
    + change (flt (S754_finite false m e) f0) with false. cbv iota.
      unfold sind_table. destruct (Z.ltb_spec k 0) as [Hn|_]; [lia|].
      apply sind_reduced_value; [lia|exact Hk].
Qed.

End SindValues.

(** X16: with a library sine and cosine that map [+0] to [+0] and to
    [1], [sind] of [k] quarter turns is the exact table value 0, 1, -0 or
    -1 selected by [k] modulo 4 (negated for negative [k]), for every
    finite binary32 multiple of 90; [cosd] is the table value of [k + 1]
    as long as [90 * (k + 1)] is below [2^24] in magnitude, where the sum
    [x + 90.0f] is exact. *)
Theorem sind_cosd_quarter_turns :
  forall (fsin fcos : float -> float) (x : float) (k : Z),
    fsin f0 = f0 -> fcos f0 = f1 ->
    valid x -> isfinite x = true -> units x = k * (90 * 2 ^ 149) ->
    sind fsin fcos x = sind_table k
    /\ (Z.abs (90 * (k + 1)) < 2 ^ 24 ->
        cosd fsin fcos x = sind_table (k + 1)).
Proof.
  intros fsin fcos x k Hs Hc V F Hk. split.
  - apply sind_value; assumption.
  - intros B. unfold cosd.
    destruct (int_repr (90 * (k + 1)) B) as (r & Vr & Fr & Ur).
    destruct (fadd_exact x f90 r V eq_refl Vr F eq_refl Fr) as (Vy & Fy & Uy).
    { rewrite Ur, Hk. change (units f90) with (90 * 2 ^ 149). ring. }
    apply sind_value; try assumption. rewrite Uy, Ur. ring.
Qed.

Lemma sind_cosd_quarter_turns_witness :
  sind sample_sin sample_cos f90 = sind_table 1
  /\ cosd sample_sin sample_cos f90 = sind_table 2.
Proof.
  assert (V : valid f90) by reflexivity.
  assert (F : isfinite f90 = true) by reflexivity.
  assert (U : units f90 = 1 * (90 * 2 ^ 149)) by reflexivity.
  destruct (sind_cosd_quarter_turns sample_sin sample_cos f90 1
              eq_refl eq_refl V F U) as [A B].
  split; [exact A|]. apply B. reflexivity.
Defined.

(** X17: [sind] is odd at every finite non-zero angle, whatever the
    library sine and cosine are; at a zero the sign is dropped, so [sind]
    of [-0] is [sind] of [+0]. *)
Theorem sind_odd :
  forall (fsin fcos : float -> float) (x : float),
    isfinite x = true ->
    (is_zero x = false ->
     sind fsin fcos (fneg x) = fneg (sind fsin fcos x))
    /\ (is_zero x = true ->
        sind fsin fcos (fneg x) = sind fsin fcos x).
Proof.
  intros fsin fcos x F.
  destruct x as [s|s| |s m e]; try discriminate; split; intros Z;
    try discriminate.
  - destruct s; reflexivity.
  - unfold sind. destruct s; simpl.
    + destruct (sind_reduced fsin fcos (S754_finite false m e)) as [[|]|[|]| |[|] ? ?];
        reflexivity.
    + reflexivity.
Qed.

Lemma sind_odd_witness :
  sind sample_sin sample_cos (fneg f90) = fneg (sind sample_sin sample_cos f90).
Proof.
  apply (proj1 (sind_odd sample_sin sample_cos f90 eq_refl)). reflexivity.
Defined.

(** ** Mesh files *)

(** ** File name extensions *)

Section ExtensionFacts.
Import MeshIO.
Local Open Scope string_scope.

Lemma find_last_of_app (a s : string) (c : ascii) :
  find_last_of (a ++ s) c
  = match find_last_of s c with
    | Some i => Some (String.length a + i)%nat
    | None => find_last_of a c
    end.
Proof.
  induction a as [|x a IH]; simpl.
  - destruct (find_last_of s c); reflexivity.
  - rewrite IH. destruct (find_last_of s c); reflexivity.
Qed.

Lemma substr_app (a s : string) (n : nat) :
  substr (a ++ s) (String.length a + n) = substr s n.
Proof. induction a as [|x a IH]; simpl; [reflexivity|exact IH]. Qed.

Lemma find_last_of_bound (s : string) (c : ascii) (i : nat) :
  find_last_of s c = Some i -> (i < String.length s)%nat.
Proof.
  revert i. induction s as [|x s IH]; simpl; intros i H; [discriminate|].
  destruct (find_last_of s c) as [j|].
  - injection H as <-. specialize (IH j eq_refl). lia.
  - destruct (Ascii.eqb x c); [|discriminate]. injection H as <-. lia.
Qed.

(** What follows the last occurrence of [c] holds no [c]. *)
Lemma find_last_of_rest (s : string) (c : ascii) (i : nat) :
  find_last_of s c = Some i -> find_last_of (substr s (S i)) c = None.
Proof.
  revert i. induction s as [|x s IH]; simpl; intros i H; [discriminate|].
  destruct (find_last_of s c) as [j|] eqn:E.
  - injection H as <-. apply IH. reflexivity.
  - destruct (Ascii.eqb x c); [|discriminate]. injection H as <-.
    simpl. destruct s; exact E.
Qed.

(** X18: the extension taken from a file name holds no dot; a name
    without a dot is its own extension; and a name that ends in a dot
    followed by dot-free text has that text as its extension. *)
Theorem extension_spec :
  forall filename : string,
    find_last_of (extension filename) "." = None
    /\ (find_last_of filename "." = None -> extension filename = filename)
    /\ (forall base ext : string,
          filename = base ++ String "." ext ->
          find_last_of ext "." = None ->
          extension filename = ext).
Proof.
  intros filename. split; [|split].
  - unfold extension.
    destruct (find_last_of filename ".") as [i|] eqn:E.
    + apply (find_last_of_rest _ _ _ E).
    + destruct filename; exact E.
  - intros H. unfold extension. rewrite H. destruct filename; reflexivity.
  - intros base ext -> H. unfold extension.
    rewrite find_last_of_app. simpl find_last_of. rewrite H. simpl.
    rewrite Nat.add_0_r.
    change (String "." ext) with ("." ++ ext)%string.
    replace (S (String.length base)) with (String.length base + 1)%nat by lia.
    rewrite substr_app. destruct ext; reflexivity.
Qed.

End ExtensionFacts.

(** ** ExportMesh on a mesh it accepts *)

Section ExportSuccess.
Import MeshIO.
Local Open Scope string_scope.
Variable exporter : aiScene -> string -> string -> bool * string.

(** The scene [ExportMesh] builds once its checks have passed. *)
Lemma ExportMesh_accepted (filename : string) (mesh : Mesh)
    (options : ExportOptions) :
  triVerts mesh <> [] ->
  faceted options = true
    \/ List.length (vertNormal mesh) = List.length (vertPos mesh) ->
  vertColor (mat options) = []
    \/ List.length (vertColor (mat options)) = List.length (vertPos mesh) ->
  let scene :=
    mkAiScene
      (mkAiMaterial (roughness (mat options)) (metalness (mat options))
                    (color (mat options)))
      (mkAiMesh
         (map (swap_yup (is_yup filename)) (vertPos mesh))
         (if faceted options then None
          else Some (map (swap_yup (is_yup filename)) (vertNormal mesh)))
         (match vertColor (mat options) with
          | [] => None
          | _ :: _ => Some (vertColor (mat options))
          end)
         (map face_of (triVerts mesh))) in
  ExportMesh exporter filename mesh options
  = ([Exported scene (format_id filename) filename],
     if fst (exporter scene (format_id filename) filename) then Returned
     else Thrown (mkException userErr "result == AI_SUCCESS"
                    (snd (exporter scene (format_id filename) filename)))).
Proof.
  intros Htri Hn Hc scene.
  assert (Ht : (List.length (triVerts mesh) =? 0)%nat = false).
  { destruct (triVerts mesh); [congruence | reflexivity]. }
  assert (Ef : (if String.eqb
                     (if String.eqb (extension filename) "glb"
                      then "glb2" else extension filename) "gltf"
                then "gltf2"
                else if String.eqb (extension filename) "glb"
                     then "glb2" else extension filename)
               = format_id filename).
  { unfold format_id. destruct (String.eqb (extension filename) "glb"); reflexivity. }
  unfold ExportMesh. rewrite Ht. cbv zeta. rewrite Ef. fold (is_yup filename).
  assert (A1 : (if negb (faceted options)
                then AlwaysAssert
                       (List.length (vertNormal mesh) =? List.length (vertPos mesh))%nat
                       userErr "mesh.vertNormal.size() == mesh.vertPos.size()"
                       "vertNormal must be the same length as vertPos when faceted is false."
                else None) = None).
  { destruct (faceted options); [reflexivity|]. simpl.
    destruct Hn as [Hn|Hn]; [discriminate|]. rewrite Hn, Nat.eqb_refl. reflexivity. }
  rewrite A1.
  assert (A2 : (if negb (List.length (vertColor (mat options)) =? 0)%nat
                then AlwaysAssert
                       (List.length (vertPos mesh)
                        =? List.length (vertColor (mat options)))%nat
                       userErr "mesh.vertPos.size() == options.mat.vertColor.size()"
                       "If present, vertColor must be the same length as vertPos."
                else None) = None).
  { destruct (vertColor (mat options)) eqn:E; [reflexivity|]. simpl negb. cbv iota.
    destruct Hc as [Hc|Hc]; [discriminate|]. rewrite Hc, Nat.eqb_refl. reflexivity. }
  rewrite A2.
  assert (E1 : (if negb (faceted options)
                then Some (map (swap_yup (is_yup filename)) (vertNormal mesh))
                else None)
               = (if faceted options then None
                  else Some (map (swap_yup (is_yup filename)) (vertNormal mesh))))
    by (destruct (faceted options); reflexivity).
  assert (E2 : (if negb (List.length (vertColor (mat options)) =? 0)%nat
                then Some (vertColor (mat options)) else None)
               = match vertColor (mat options) with
                 | [] => None
                 | _ :: _ => Some (vertColor (mat options))
                 end)
    by (destruct (vertColor (mat options)); reflexivity).
  rewrite E1, E2. fold scene.
  destruct (exporter scene (format_id filename) filename) as [[|] err]; reflexivity.
Qed.

(** X19: on a mesh with triangles that passes both length checks
    [ExportMesh] calls the exporter exactly once and prints nothing: the
    scene has one vertex per entry of [vertPos] and one three-index face
    per entry of [triVerts], normals are present exactly when [faceted] is
    false and colours exactly when [vertColor] is not empty, the format id
    is [glb2] for [glb], [gltf2] for [gltf] and the extension otherwise,
    and the call returns if the exporter succeeded and throws [userErr]
    with the error string of the exporter if not. *)
Theorem ExportMesh_exports_once :
  forall filename mesh options,
    triVerts mesh <> [] ->
    faceted options = true
      \/ List.length (vertNormal mesh) = List.length (vertPos mesh) ->
    vertColor (mat options) = []
      \/ List.length (vertColor (mat options)) = List.length (vertPos mesh) ->
    exists scene,
      fst (ExportMesh exporter filename mesh options)
      = [Exported scene (format_id filename) filename]
      /\ snd (ExportMesh exporter filename mesh options)
         = (if fst (exporter scene (format_id filename) filename)
            then Returned
            else Thrown (mkException userErr "result == AI_SUCCESS"
                           (snd (exporter scene (format_id filename) filename))))
      /\ List.length (mVertices (mMesh scene)) = List.length (vertPos mesh)
      /\ List.length (mFaces (mMesh scene)) = List.length (triVerts mesh)
      /\ Forall (fun f => List.length f = 3%nat) (mFaces (mMesh scene))
      /\ (mNormals (mMesh scene) = None <-> faceted options = true)
      /\ (mColors0 (mMesh scene) = None <-> vertColor (mat options) = []).
Proof.
  intros filename mesh options Htri Hn Hc.
  pose proof (ExportMesh_accepted filename mesh options Htri Hn Hc) as H.
  cbv zeta in H. eexists. rewrite H. cbn [fst snd].
  split; [reflexivity|]. split; [reflexivity|].
  cbn [mMesh mVertices mFaces mNormals mColors0].
  rewrite !length_map. split; [reflexivity|]. split; [reflexivity|].
  split; [|split].
  - apply Forall_forall. intros f Hf. apply in_map_iff in Hf.
    destruct Hf as (t & <- & _). reflexivity.
  - destruct (faceted options); split; intros; congruence.
  - destruct (vertColor (mat options)); split; intros; congruence.
Qed.

(** X20: with [faceted] set, [ExportMesh] reads neither [vertNormal] nor
    [halfedgeTangent]: replacing them changes neither the events nor the
    outcome. *)
Theorem ExportMesh_ignores_unused :
  forall filename mesh options normals tangents,
    faceted options = true ->
    ExportMesh exporter filename
      (mkMesh (vertPos mesh) normals (triVerts mesh) tangents) options
    = ExportMesh exporter filename mesh options.
Proof.
  intros filename mesh options normals tangents Hf.
  unfold ExportMesh. simpl. rewrite Hf. reflexivity.
Qed.

End ExportSuccess.

Lemma ExportMesh_exports_once_witness :
  exists scene,
    fst (MeshIO.ExportMesh sample_exporter "out.glb" sample_triangle
           faceted_options)
    = [MeshIO.Exported scene "glb2" "out.glb"].
Proof.
  destruct (ExportMesh_exports_once sample_exporter "out.glb" sample_triangle
              faceted_options) as (scene & E & _).
  - discriminate.
  - left. reflexivity.
  - left. reflexivity.
  - exists scene. exact E.
Defined.

Lemma ExportMesh_ignores_unused_witness :
  MeshIO.ExportMesh sample_exporter "out.glb"
    (mkMesh (vertPos sample_triangle) [origin3] (triVerts sample_triangle) [])
    faceted_options
  = MeshIO.ExportMesh sample_exporter "out.glb" sample_triangle faceted_options.
Proof.
  apply (ExportMesh_ignores_unused sample_exporter "out.glb" sample_triangle
           faceted_options [origin3] []).
  reflexivity.
Defined.

(** ** ImportMesh *)

Section ImportFacts.
Import MeshIO MeshImport.
Local Open Scope string_scope.

(** Within the range of [int] the conversions change nothing. *)
Lemma to_int_small (u : Z) : small_index u -> to_int u = u.
Proof.
  unfold small_index, to_int. change (2 ^ 31) with 2147483648.
  change (2 ^ 32) with 4294967296. intros H.
  rewrite Z.mod_small by lia. lia.
Qed.

Lemma to_int_to_uint (i : Z) : is_int i -> to_int (to_uint i) = i.
Proof.
  unfold is_int, to_int, to_uint. change (2 ^ 31) with 2147483648.
  change (2 ^ 32) with 4294967296. intros H.
  rewrite Zplus_mod_idemp_l. rewrite Z.mod_small by lia. lia.
Qed.

Lemma rewrap_int (t : ivec3.t) : int_tri t -> rewrap t = t.
Proof.
  destruct t as [x y z]. intros (Hx & Hy & Hz). unfold rewrap. simpl in *.
  rewrite !to_int_to_uint by assumption. reflexivity.
Qed.

Lemma map_rewrap_int (l : list ivec3.t) :
  Forall int_tri l -> map rewrap l = l.
Proof.
  induction 1 as [|t l Ht _ IH]; simpl; [reflexivity|].
  rewrite (rewrap_int t Ht), IH. reflexivity.
Qed.

Lemma map_to_int_small (l : list (list Z)) :
  Forall (Forall small_index) l -> map (map to_int) l = l.
Proof.
  induction 1 as [|f l Hf _ IH]; simpl; [reflexivity|].
  rewrite IH. f_equal.
  induction Hf as [|u f Hu _ IHf]; simpl; [reflexivity|].
  rewrite (to_int_small u Hu), IHf. reflexivity.
Qed.

Lemma map_indices_inj (l1 l2 : list ivec3.t) :
  map indices l1 = map indices l2 -> l1 = l2.
Proof.
  revert l2. induction l1 as [|t ts IH]; intros [|u us] E;
    try discriminate; [reflexivity|].
  simpl in E. injection E as E0 E1 E2 E3.
  rewrite (IH us E3). destruct t, u. simpl in *. congruence.
Qed.

Lemma import_faces_ok (filename : string) (faces : list (list Z)) :
  forall tris,
    forallb is_triangle faces = true ->
    exists tris',
      import_faces filename faces tris = inl tris'
      /\ map indices tris'
         = (map indices tris ++ map (map to_int) faces)%list.
Proof.
  induction faces as [|f rest IH]; intros tris H.
  - exists tris. split; [reflexivity|]. simpl. rewrite app_nil_r. reflexivity.
  - simpl in H. apply andb_true_iff in H. destruct H as [Hf Hr].
    destruct f as [|i0 [|i1 [|i2 [|i3 f]]]]; try discriminate.
    destruct (IH (tris ++ [ivec3.mk (to_int i0) (to_int i1) (to_int i2)])%list
                Hr) as (tris' & E & M).
    exists tris'. split; [exact E|].
    rewrite M, map_app, <- app_assoc. reflexivity.
Qed.

Lemma import_faces_bad (filename : string) (faces : list (list Z)) :
  forall tris,
    forallb is_triangle faces = false ->
    import_faces filename faces tris
    = inr (mkException userErr "face.mNumIndices == 3"
             ("Non-triangular face in " ++ filename)).
Proof.
  induction faces as [|f rest IH]; intros tris H; [discriminate|].
  simpl in H.
  destruct f as [|i0 [|i1 [|i2 [|i3 f]]]]; try reflexivity.
  apply IH. exact H.
Qed.

Lemma import_meshes_ok (filename : string) (isYup : bool)
    (meshes : list aiMeshIn) :
  forall mesh_out,
    all_triangles meshes = true ->
    exists m,
      import_meshes filename isYup meshes mesh_out = Mesh_out m
      /\ vertPos m
         = (vertPos mesh_out
            ++ map (from_yup isYup) (List.concat (map inVertices meshes)))%list
      /\ map indices (triVerts m)
         = (map indices (triVerts mesh_out)
            ++ map (map to_int) (List.concat (map inFaces meshes)))%list
      /\ vertNormal m = vertNormal mesh_out
      /\ halfedgeTangent m = halfedgeTangent mesh_out.
Proof.
  induction meshes as [|mesh_i rest IH]; intros mesh_out H.
  - exists mesh_out. simpl. rewrite !app_nil_r. repeat split; reflexivity.
  - simpl in H. apply andb_true_iff in H. destruct H as [Hf Hr].
    destruct (import_faces_ok filename (inFaces mesh_i) (triVerts mesh_out) Hf)
      as (tris & E & M).
    simpl. rewrite E.
    destruct (IH (mkMesh (vertPos mesh_out
                            ++ map (from_yup isYup) (inVertices mesh_i))%list
                         (vertNormal mesh_out) tris (halfedgeTangent mesh_out)) Hr)
      as (m & Em & Ev & Et & En & Eh).
    exists m. split; [exact Em|]. simpl in Ev, Et, En, Eh.
    rewrite Ev, Et, M, !map_app, <- !app_assoc. repeat split; assumption.
Qed.

Lemma import_meshes_bad (filename : string) (isYup : bool)
    (meshes : list aiMeshIn) :
  forall mesh_out,
    all_triangles meshes = false ->
    import_meshes filename isYup meshes mesh_out
    = Import_thrown (mkException userErr "face.mNumIndices == 3"
                       ("Non-triangular face in " ++ filename)).
Proof.
  induction meshes as [|mesh_i rest IH]; intros mesh_out H; [discriminate|].
  simpl in H. simpl.
  destruct (forallb is_triangle (inFaces mesh_i)) eqn:Hf.
  - destruct (import_faces_ok filename (inFaces mesh_i) (triVerts mesh_out) Hf)
      as (tris & E & _).
    rewrite E. apply IH. exact H.
  - rewrite (import_faces_bad filename _ _ Hf). reflexivity.
Qed.

Lemma from_yup_swap_yup (isYup : bool) (v : vec3.t) :
  from_yup isYup (swap_yup isYup v) = v.
Proof. destruct isYup, v; reflexivity. Qed.

Variable importer : string -> option aiSceneIn * string.

(** X21: [ImportMesh] throws [userErr] with the error string of the
    importer when there is no scene, and [userErr] with the message
    Non-triangular face in followed by the file name when some face does
    not have three indices; otherwise it returns a mesh whose [vertPos]
    are the vertices of all meshes of the scene in order, turned from Y-up
    for [glb] and [gltf], whose [triVerts] are the faces in order, each
    [unsigned int] index converted to [int], and whose [vertNormal] and
    [halfedgeTangent] are empty.  Indices below [2^31] are copied as they
    are, with no offset for the second and later meshes; an index from
    [2^31] on comes out negative, 4294967295 as -1. *)
Theorem ImportMesh_spec :
  forall filename : string,
    (forall err, importer filename = (None, err) ->
       ImportMesh importer filename
       = Import_thrown (mkException userErr "scene" err))
    /\ (forall meshes err,
          importer filename = (Some meshes, err) ->
          all_triangles meshes = false ->
          ImportMesh importer filename
          = Import_thrown (mkException userErr "face.mNumIndices == 3"
                             ("Non-triangular face in " ++ filename)))
    /\ (forall meshes err,
          importer filename = (Some meshes, err) ->
          all_triangles meshes = true ->
          exists m,
            ImportMesh importer filename = Mesh_out m
            /\ vertPos m
               = map (from_yup (is_yup filename))
                     (List.concat (map inVertices meshes))
            /\ map indices (triVerts m)
               = map (map to_int) (List.concat (map inFaces meshes))
            /\ (Forall (Forall small_index) (List.concat (map inFaces meshes)) ->
                map indices (triVerts m) = List.concat (map inFaces meshes))
            /\ vertNormal m = [] /\ halfedgeTangent m = [])
    /\ ImportMesh (fun _ => (Some [mkAiMeshIn [] [[4294967295; 0; 1]%Z]], ""))
         filename
       = Mesh_out (mkMesh [] [] [ivec3.mk (-1) 0 1] []).
Proof.
  intros filename. split; [|split; [|split]].
  - intros err H. unfold ImportMesh. rewrite H. reflexivity.
  - intros meshes err H Hb. unfold ImportMesh. rewrite H.
    apply import_meshes_bad, Hb.
  - intros meshes err H Ht. unfold ImportMesh. rewrite H.
    fold (is_yup filename).
    destruct (import_meshes_ok filename (is_yup filename) meshes
                (mkMesh [] [] [] []) Ht) as (m & Em & Ev & Et & En & Eh).
    exists m. simpl in Ev, Et.
    split; [exact Em|]. split; [exact Ev|]. split; [exact Et|].
    split; [|split; assumption].
    intros Hs. rewrite Et. apply map_to_int_small, Hs.
  - reflexivity.
Qed.

Variable exporter : aiScene -> string -> string -> bool * string.

(** X22: if [ExportMesh] exported a scene to a file and the importer
    reads that scene back from the file, [ImportMesh] returns the
    [vertPos] of the exported mesh, the axis permutation of the import
    undoing that of the export for the same file name, and its
    [triVerts] after their way through [unsigned int] and back; these
    are the [triVerts] of the exported mesh, as its indices are [int]. *)
Theorem Export_Import_round_trip :
  forall filename mesh options scene format err,
    fst (ExportMesh exporter filename mesh options)
    = [Exported scene format filename] ->
    importer filename = (Some (scene_in scene), err) ->
    ImportMesh importer filename
    = Mesh_out (mkMesh (vertPos mesh) [] (map rewrap (triVerts mesh)) [])
    /\ (Forall int_tri (triVerts mesh) ->
        ImportMesh importer filename
        = Mesh_out (mkMesh (vertPos mesh) [] (triVerts mesh) [])).
Proof.
  intros filename mesh options scene format err He Hi.
  (* the export went through: read off the scene *)
  assert (Hs : mVertices (mMesh scene)
               = map (swap_yup (is_yup filename)) (vertPos mesh)
               /\ mFaces (mMesh scene) = map face_of (triVerts mesh)).
  { unfold ExportMesh in He.
    destruct (List.length (triVerts mesh) =? 0)%nat; [discriminate|].
    cbv zeta in He. fold (is_yup filename) in He.
    destruct (if negb (faceted options) then _ else None); [discriminate|].
    destruct (if negb (List.length (vertColor (mat options)) =? 0)%nat
              then _ else None); [discriminate|].
    destruct (exporter _ _ filename) as [ok msg]. simpl in He.
    injection He as <- _. split; reflexivity. }
  destruct Hs as [Hv Hf].
  assert (Ht : all_triangles (scene_in scene) = true).
  { unfold all_triangles, scene_in. simpl. rewrite Hf, andb_true_r.
    apply forallb_forall. intros f H. apply in_map_iff in H.
    destruct H as (t & <- & _). reflexivity. }
  assert (G : ImportMesh importer filename
              = Mesh_out (mkMesh (vertPos mesh) []
                            (map rewrap (triVerts mesh)) [])).
  { unfold ImportMesh. rewrite Hi. fold (is_yup filename).
    destruct (import_meshes_ok filename (is_yup filename) (scene_in scene)
                (mkMesh [] [] [] []) Ht) as (m & Em & Ev & Et & En & Eh).
    rewrite Em. f_equal. destruct m as [vp vn tv ht]. simpl in *.
    rewrite app_nil_r in Ev, Et. subst vn ht. f_equal.
    - rewrite Ev, Hv, map_map. rewrite <- (map_id (vertPos mesh)) at 2.
      apply map_ext. intros v. apply from_yup_swap_yup.
    - apply map_indices_inj. rewrite Et, Hf, !map_map.
      apply map_ext. intros t. reflexivity. }
  split; [exact G|].
  intros Hr. rewrite G, (map_rewrap_int _ Hr). reflexivity.
Qed.

End ImportFacts.

Lemma Export_Import_round_trip_witness :
  MeshImport.ImportMesh sample_importer "out.glb"
  = MeshImport.Mesh_out
      (mkMesh (vertPos sample_triangle) [] (triVerts sample_triangle) []).
Proof.
  refine (proj2 (Export_Import_round_trip sample_importer sample_exporter
                   "out.glb" sample_triangle faceted_options sample_scene
                   "glb2" EmptyString _ _) _);
    [reflexivity | reflexivity |].
  repeat constructor; cbv; discriminate.
Defined.

(** ** The fractal of the Menger sponge *)

Section FractalFacts.
Import Samples.
Variable Manifold : Type.
Variable Scale : Manifold -> vec3.t -> Manifold.
Variable Translate : Manifold -> vec3.t -> Manifold.

Lemma hole_count_closed (k : nat) :
  (7 * Z.of_nat (hole_count k) = 8 ^ (Z.of_nat k + 1) - 1)%Z.
Proof.
  induction k as [|k IH].
  - reflexivity.
  - replace (Z.of_nat (S k) + 1) with (Z.succ (Z.of_nat k + 1)) by lia.
    rewrite Z.pow_succ_r by lia. cbn [hole_count]. lia.
Qed.

(** Once a call has run out of fuel, the loop over the offsets gives up. *)
Lemma fold_None {A B : Type} (f : option A -> B -> option A) (l : list B) :
  (forall b, f None b = None) -> fold_left f l None = None.
Proof. intros H. induction l as [|b l IH]; simpl; [reflexivity | now rewrite H]. Qed.

Lemma Fractal_extends (k : nat) :
  forall fuel holes hole w position depth maxDepth,
    maxDepth - depth = Z.of_nat k -> (k < fuel)%nat ->
    exists new,
      Fractal Manifold Scale Translate fuel holes hole w position depth maxDepth = Some (holes ++ new)
      /\ List.length new = hole_count k.
Proof.
  induction k as [|k IH]; intros fuel holes hole w position depth maxDepth Hd Hf.
  - destruct fuel as [|fuel]; [lia|]. simpl.
    replace (depth =? maxDepth) with true by (symmetry; apply Z.eqb_eq; lia).
    eexists. split; reflexivity.
  - destruct fuel as [|fuel]; [lia|]. cbn [Samples.Fractal].
    replace (depth =? maxDepth) with false by (symmetry; apply Z.eqb_neq; lia).
    set (w' := fdiv w (of_Z 3)).
    set (first := Translate (Scale hole (vec3.mk w' w' f1))
                    (vec3.mk (vec2.x position) (vec2.y position) f0)).
    assert (Hloop : forall offs hs,
               exists new,
                 fold_left
                   (fun acc offset =>
                      match acc with
                      | None => None
                      | Some holes0 =>
                          Fractal Manifold Scale Translate fuel holes0 hole w' (add2 position offset)
                            (depth + 1) maxDepth
                      end) offs (Some hs) = Some (hs ++ new)
                 /\ List.length new = (List.length offs * hole_count k)%nat).
    { induction offs as [|o offs IHo]; intros hs.
      - exists []. rewrite app_nil_r. split; reflexivity.
      - cbn [fold_left].
        destruct (IH fuel hs hole w' (add2 position o) (depth + 1) maxDepth)
          as (n1 & E1 & L1); [lia | lia |].
        rewrite E1. destruct (IHo (hs ++ n1)) as (n2 & E2 & L2).
        exists (n1 ++ n2). rewrite E2, app_assoc. split; [reflexivity|].
        rewrite length_app, L1, L2. simpl. lia. }
    destruct (Hloop (offsets w') (holes ++ [first])) as (new & E & L).
    exists (first :: new). rewrite E, <- app_assoc. split; [reflexivity|].
    simpl. rewrite L. simpl. lia.
Qed.

Lemma Fractal_diverges (fuel : nat) :
  forall holes hole w position depth maxDepth,
    maxDepth < depth ->
    Fractal Manifold Scale Translate fuel holes hole w position depth maxDepth = None.
Proof.
  induction fuel as [|fuel IH]; intros holes hole w position depth maxDepth H.
  - reflexivity.
  - cbn [Samples.Fractal].
    replace (depth =? maxDepth) with false by (symmetry; apply Z.eqb_neq; lia).
    unfold offsets. cbn [fold_left]. rewrite IH by lia.
    reflexivity.
Qed.

(** X23: called with [depth <= maxDepth] and enough stack for
    [maxDepth - depth + 1] nested calls, [Fractal] returns, keeps the
    holes it was given and appends [(8^(maxDepth - depth + 1) - 1) / 7]
    holes. *)
Theorem Fractal_hole_count :
  forall (fuel : nat) holes hole w position depth maxDepth,
    depth <= maxDepth -> maxDepth - depth < Z.of_nat fuel ->
    exists new,
      Fractal Manifold Scale Translate fuel holes hole w position depth maxDepth
      = Some (holes ++ new)
      /\ 7 * Z.of_nat (List.length new) = 8 ^ (maxDepth - depth + 1) - 1.
Proof.
  intros fuel holes hole w position depth maxDepth Hd Hf.
  destruct (Fractal_extends
              (Z.to_nat (maxDepth - depth)) fuel holes hole w position
              depth maxDepth) as (new & E & L); [lia | lia |].
  exists new. split; [exact E|].
  rewrite L, hole_count_closed. f_equal. f_equal. lia.
Qed.

(** X24: called with [depth > maxDepth], as by [MengerSponge(0)],
    [Fractal] never meets [depth == maxDepth]: no nesting depth within the
    range of [int] lets the call return. *)
Theorem Fractal_overshoot :
  forall (fuel : nat) holes hole w position depth maxDepth,
    maxDepth < depth -> depth + Z.of_nat fuel <= 2 ^ 31 - 1 ->
    Fractal Manifold Scale Translate fuel holes hole w position depth maxDepth
    = None.
Proof.
  intros fuel holes hole w position depth maxDepth H _.
  apply Fractal_diverges. exact H.
Qed.

End FractalFacts.

Lemma Fractal_hole_count_witness :
  exists new,
    Samples.Fractal placed place_scale place_translate 3 [] unplaced f1
      (vec2.mk f0 f0) 1 2
    = Some ([] ++ new)
    /\ 7 * Z.of_nat (List.length new) = 8 ^ (2 - 1 + 1) - 1.
Proof.
  apply (Fractal_hole_count placed place_scale place_translate 3 [] unplaced
           f1 (vec2.mk f0 f0) 1 2); simpl; lia.
Defined.

Lemma Fractal_overshoot_witness :
  Samples.Fractal placed place_scale place_translate 5 [] unplaced f1
    (vec2.mk f0 f0) 1 0 = None.
Proof.
  apply (Fractal_overshoot placed place_scale place_translate 5 [] unplaced
           f1 (vec2.mk f0 f0) 1 0); simpl; lia.
Defined.

(** ** The default box *)

(** X25: the default box is empty: it holds no point and passes
    [DoesOverlap] on no point, every box without NaN coordinates contains
    it, and it neither contains nor overlaps any finite box. *)
Theorem default_box_empty :
  (forall p : vec3.t, ~ inside Box.default p)
  /\ (forall p : vec3.t, Box.DoesOverlap_point Box.default p = false)
  /\ (forall b : Box.t, no_nan_box b -> Box.Contains b Box.default = true)
  /\ (forall b : Box.t, Box.isFinite b = true ->
        Box.Contains Box.default b = false
        /\ Box.DoesOverlap Box.default b = false
        /\ Box.DoesOverlap b Box.default = false).
Proof.
  split; [|split; [|split]].
  - intros [x y z] [(H1 & _) (H2 & _)]. simpl in H1, H2.
    change (fle finf x = true) in H1. change (fle x fninf = true) in H2.
    pose proof (fle_trans _ _ _ H1 H2) as H. discriminate.
  - intros [x y z]. unfold Box.DoesOverlap_point, fge. simpl.
    change (vec3.x (Box.max Box.default)) with fninf.
    destruct x as [[|]|[|]| |[|] ? ?]; reflexivity.
  - intros [[lx ly lz] [hx hy hz]] [(N1 & N2 & N3) (N4 & N5 & N6)].
    unfold Box.Contains, all_ge3, fge. simpl in *.
    change (fdiv f1 f0) with finf. change (fdiv (fneg f1) f0) with fninf.
    rewrite !fle_pinf, !fle_ninf by assumption. reflexivity.
  - intros [[lx ly lz] [hx hy hz]] F.
    unfold Box.isFinite, all_isfinite3 in F. simpl in F.
    repeat match goal with
    | H : andb _ _ = true |- _ => apply andb_true_iff in H; destruct H
    end.
    assert (A : fle finf lx = false)
      by (destruct lx as [[|]|[|]| |[|] ? ?]; try discriminate; reflexivity).
    assert (B : fle finf hx = false)
      by (destruct hx as [[|]|[|]| |[|] ? ?]; try discriminate; reflexivity).
    unfold Box.Contains, Box.DoesOverlap, all_ge3, fge, Box.default, splat.
    cbn [Box.min Box.max vec3.x vec3.y vec3.z].
    change (fdiv f1 f0) with finf. change (fdiv (fneg f1) f0) with fninf.
    rewrite A, B. repeat split; try reflexivity.
    destruct (fle lx fninf), (fle ly fninf), (fle lz fninf); reflexivity.
Qed.

(** ** Signum *)

(** X26: [Signum] is odd, also at NaN and at the zeros, and monotone:
    [x <= y] implies [Signum x <= Signum y]. *)
Theorem Signum_odd_monotone :
  (forall x : float, Signum (fneg x) = - Signum x)
  /\ (forall x y : float, fle x y = true -> Signum x <= Signum y).
Proof.
  split.
  - intros [s|[|]| |[|] m e]; try destruct s; reflexivity.
  - intros x y H.
    destruct x as [[|]|[|]| |[|] mx ex], y as [[|]|[|]| |[|] my ey];
      try discriminate; cbv; discriminate.
Qed.

(** ** CCW on degenerate triangles and under a larger tolerance *)

Section CCWFacts.

Lemma fsub_valid (x y : float) : valid x -> valid y -> valid (fsub x y).
Proof.
  intros Vx Vy. rewrite fsub_fadd. apply fadd_valid; [|apply fneg_valid]; assumption.
Qed.

Lemma fsub_finite_num (x y : float) :
  isfinite x = true -> isfinite y = true -> num (fsub x y).
Proof.
  intros Fx Fy. rewrite fsub_fadd. apply fadd_finite_num; [assumption|].
  rewrite isfinite_fneg. exact Fy.
Qed.

Lemma feq_f0_zero (x : float) : feq x f0 = true -> is_zero x = true.
Proof. destruct x as [[|]|[|]| |[|] ? ?]; intros H; try discriminate; reflexivity. Qed.

Lemma fsub_self (x : float) :
  valid x -> isfinite x = true -> is_zero (fsub x x) = true.
Proof.
  intros V F. rewrite fsub_fadd. apply feq_f0_zero, fadd_fneg_self; assumption.
Qed.

Lemma fmul_zero_l (z y : float) :
  is_zero z = true -> isfinite y = true -> is_zero (fmul z y) = true.
Proof.
  destruct z as [sz| | |]; try discriminate.
  destruct y as [sy|sy| |sy my ey]; try discriminate; reflexivity.
Qed.

Lemma fmul_zero_r (y z : float) :
  is_zero z = true -> isfinite y = true -> is_zero (fmul y z) = true.
Proof. intros. rewrite fmul_comm. apply fmul_zero_l; assumption. Qed.

Lemma fsub_zeros (a b : float) :
  is_zero a = true -> is_zero b = true -> is_zero (fsub a b) = true.
Proof.
  destruct a as [sa| | |], b as [sb| | |]; try discriminate.
  destruct sa, sb; reflexivity.
Qed.

(** The products of [CCW] are never NaN when the factor [tol] is
    finite and the other factor is not an infinity against a zero. *)
Lemma fmul_finite_r_num (a t : float) :
  num a -> isfinite t = true -> (is_zero t = true -> isfinite a = true) ->
  num (fmul a t).
Proof.
  intros Na Ft Hz.
  destruct a as [sa|sa| |sa ma ea]; try discriminate.
  - apply fmul_finite_num; [reflexivity|assumption].
  - destruct t as [st|st| |st mt et]; try discriminate; try reflexivity.
    specialize (Hz eq_refl). discriminate.
  - apply fmul_finite_num; [reflexivity|assumption].
Qed.

Lemma fmul_nonneg (a t : float) :
  fle f0 a = true -> fle f0 t = true -> num (fmul a t) ->
  fle f0 (fmul a t) = true.
Proof.
  intros Ha Ht N. pose proof (fmul_sign a t N) as S.
  destruct a as [sa|[|]| |[|] ma ea]; try discriminate;
    destruct t as [st|[|]| |[|] mt et]; try discriminate;
    try reflexivity;
    try (destruct sa; reflexivity); try (destruct st; reflexivity);
    try (destruct sa, st; reflexivity).
  apply fle_zero_signed. split; assumption.
Qed.

(** A zero area is within every bound that is a number. *)
Lemma CCW_zero_area (p0 p1 p2 : vec2.t) (tol : float) :
  is_zero (CCW_area p0 p1 p2) = true ->
  num (CCW_bound p0 p1 p2 tol) ->
  CCW p0 p1 p2 tol = 0.
Proof.
  intros Z N. unfold CCW. unfold CCW_area, cross2 in Z.
  unfold CCW_bound, CCW_base2 in N.
  set (area := fsub _ _) in *.
  rewrite (fmul_zero_square area Z).
  pose proof (CCW_bound_signed p0 p1 p2 tol N) as S.
  unfold CCW_base2 in S. rewrite (fle_zero_signed _ S). reflexivity.
Qed.

Lemma CCW_bound_num (p0 p1 p2 : vec2.t) (tol : float) :
  finite2 (sub2 p1 p0) = true -> finite2 (sub2 p2 p0) = true ->
  flt f0 tol = true -> isfinite tol = true ->
  num (CCW_bound p0 p1 p2 tol).
Proof.
  intros F1 F2 Pt Ft. unfold finite2 in F1, F2.
  apply andb_true_iff in F1. apply andb_true_iff in F2.
  destruct F1 as [F1x F1y], F2 as [F2x F2y].
  assert (S : signed false (CCW_base2 p0 p1 p2)).
  { unfold CCW_base2. apply max_signed; apply dot2_self_signed;
      apply isfinite_num; assumption. }
  assert (St : signed false tol).
  { destruct tol as [[|]|[|]| |[|] ? ?]; try discriminate; split; reflexivity. }
  unfold CCW_bound.
  apply (fmul_signed_false _ tol); try assumption.
  apply fmul_signed_false; assumption.
Qed.

End CCWFacts.

(** X27: for finite binary32 points [p] and [q] whose difference does
    not overflow and a finite tolerance above 0, [CCW] answers 0 when two
    of the three points coincide: for [(p, p, q)], for [(p, q, p)], and
    for [(p, q, q)] provided the product of the two coordinates of
    [q - p] does not overflow. *)
Theorem CCW_degenerate :
  forall (p q : vec2.t) (tol : float),
    valid2 p -> valid2 q -> finite2 p = true -> finite2 q = true ->
    finite2 (sub2 q p) = true ->
    flt f0 tol = true -> isfinite tol = true ->
    CCW p p q tol = 0
    /\ CCW p q p tol = 0
    /\ (isfinite (fmul (vec2.x (sub2 q p)) (vec2.y (sub2 q p))) = true ->
        CCW p q q tol = 0).
Proof.
  intros [px py] [qx qy] tol [Vpx Vpy] [Vqx Vqy] Fp Fq Fd Pt Ft.
  unfold finite2 in Fp, Fq. simpl in Fp, Fq.
  apply andb_true_iff in Fp. apply andb_true_iff in Fq.
  destruct Fp as [Fpx Fpy], Fq as [Fqx Fqy].
  pose proof Fd as Fd'. unfold finite2 in Fd'. simpl in Fd'.
  apply andb_true_iff in Fd'. destruct Fd' as [Fdx Fdy].
  assert (F0 : finite2 (sub2 (vec2.mk px py) (vec2.mk px py)) = true).
  { unfold finite2, sub2. simpl.
    pose proof (fsub_self px Vpx Fpx). pose proof (fsub_self py Vpy Fpy).
    destruct (fsub px px), (fsub py py); try discriminate; reflexivity. }
  split; [|split].
  - apply CCW_zero_area; [|apply CCW_bound_num; assumption].
    unfold CCW_area, cross2, sub2. simpl.
    apply fsub_zeros; apply fmul_zero_l; try assumption;
      apply fsub_self; assumption.
  - apply CCW_zero_area; [|apply CCW_bound_num; assumption].
    unfold CCW_area, cross2, sub2. simpl.
    apply fsub_zeros; apply fmul_zero_r; try assumption;
      apply fsub_self; assumption.
  - intros Fa. apply CCW_zero_area; [|apply CCW_bound_num; assumption].
    unfold CCW_area, cross2, sub2. simpl. simpl in Fa.
    rewrite (fmul_comm (fsub qy py) (fsub qx px)).
    apply fsub_self; [|exact Fa].
    apply fmul_valid; apply fsub_valid; assumption.
Qed.

Lemma CCW_degenerate_witness :
  CCW p00 p00 p10 kTolerance = 0
  /\ CCW p00 p10 p00 kTolerance = 0
  /\ CCW p00 p10 p10 kTolerance = 0.
Proof.
  destruct (CCW_degenerate p00 p10 kTolerance) as (A & B & C);
    try reflexivity; try (split; reflexivity).
  split; [exact A|]. split; [exact B|]. apply C. reflexivity.
Defined.

Section ToleranceFacts.

Lemma max_valid (a b : float) : valid a -> valid b -> valid (max a b).
Proof. intros Va Vb. destruct (max_cases a b) as [->| ->]; assumption. Qed.

Lemma dot2_valid (v : vec2.t) : valid2 v -> valid (dot2 v v).
Proof.
  intros [Vx Vy]. unfold dot2. apply fadd_valid; apply fmul_valid; assumption.
Qed.

Lemma sub2_valid (a b : vec2.t) : valid2 a -> valid2 b -> valid2 (sub2 a b).
Proof.
  intros [Ax Ay] [Bx By]. split; apply fsub_valid; assumption.
Qed.

Lemma CCW_base2_valid (p0 p1 p2 : vec2.t) :
  valid2 p0 -> valid2 p1 -> valid2 p2 -> valid (CCW_base2 p0 p1 p2).
Proof.
  intros V0 V1 V2. unfold CCW_base2.
  apply max_valid; apply dot2_valid; apply sub2_valid; assumption.
Qed.

Lemma fle_f0_zero (a b : float) :
  fle f0 a = true -> fle a b = true -> is_zero b = true -> is_zero a = true.
Proof.
  destruct a as [sa|[|]| |[|] ma ea]; try discriminate; try reflexivity;
    destruct b as [sb|[|]| |[|] mb eb]; try discriminate.
Qed.

Lemma fmul_zero_num_finite (b z : float) :
  is_zero z = true -> num (fmul b z) -> isfinite b = true.
Proof.
  destruct z as [sz| | |]; try discriminate.
  destruct b as [sb|sb| |sb mb eb]; intros _ H; try discriminate; reflexivity.
Qed.

(** The bound of [CCW] grows with the tolerance. *)
Lemma bound_mono (b tol tol' : float) :
  valid b -> valid tol -> valid tol' ->
  fle f0 b = true -> fle f0 tol = true -> fle tol tol' = true ->
  isfinite tol' = true ->
  num (fmul (fmul b tol) tol) ->
  fle (fmul (fmul b tol) tol) (fmul (fmul b tol') tol') = true.
Proof.
  intros Vb Vt Vt' Pb Pt Htt Ft' N.
  destruct (fmul_num _ _ N) as [Nbt Nt].
  destruct (fmul_num _ _ Nbt) as [Nb _].
  assert (Pt' : fle f0 tol' = true) by (eapply fle_trans; eassumption).
  assert (Zt : is_zero tol' = true -> is_zero tol = true)
    by (apply fle_f0_zero; assumption).
  assert (Fb0 : is_zero tol' = true -> isfinite b = true).
  { intros Z. apply (fmul_zero_num_finite b tol); [apply Zt, Z|exact Nbt]. }
  assert (Nbt' : num (fmul b tol')) by (apply fmul_finite_r_num; assumption).
  assert (Ft : isfinite tol = true).
  { destruct tol as [st|[|]| |st mt et]; try reflexivity; try discriminate.
    destruct tol' as [[|]|[|]| |[|] ? ?]; discriminate. }
  (* b * tol <= b * tol' *)
  assert (A : fle (fmul b tol) (fmul b tol') = true).
  { rewrite (fmul_comm b tol), (fmul_comm b tol').
    apply fmul_mono; try assumption; rewrite fmul_comm; assumption. }
  assert (Pbt : fle f0 (fmul b tol) = true) by (apply fmul_nonneg; assumption).
  assert (Pbt' : fle f0 (fmul b tol') = true) by (apply fmul_nonneg; assumption).
  assert (Vbt : valid (fmul b tol)) by (apply fmul_valid; assumption).
  assert (Vbt' : valid (fmul b tol')) by (apply fmul_valid; assumption).
  (* (b * tol) * tol <= (b * tol) * tol' *)
  assert (N2 : num (fmul (fmul b tol) tol')).
  { apply fmul_finite_r_num; try assumption. intros Z.
    pose proof (fmul_zero_r b tol (Zt Z) (Fb0 Z)) as Z2.
    destruct (fmul b tol); try discriminate; reflexivity. }
  assert (B : fle (fmul (fmul b tol) tol) (fmul (fmul b tol) tol') = true).
  { rewrite (fmul_comm (fmul b tol) tol), (fmul_comm (fmul b tol) tol').
    apply fmul_mono; try assumption; rewrite fmul_comm; assumption. }
  (* (b * tol) * tol' <= (b * tol') * tol' *)
  assert (N3 : num (fmul (fmul b tol') tol')).
  { apply fmul_finite_r_num; try assumption. intros Z.
    pose proof (fmul_zero_r b tol' Z (Fb0 Z)) as Z2.
    destruct (fmul b tol'); try discriminate; reflexivity. }
  assert (C : fle (fmul (fmul b tol) tol') (fmul (fmul b tol') tol') = true)
    by (apply fmul_mono; assumption).
  eapply fle_trans; eassumption.
Qed.

End ToleranceFacts.

(** X28: a larger tolerance never turns the answer 0 of [CCW] into 1 or
    -1: on binary32 points, if [CCW] answers 0 for a tolerance [>= 0] it
    answers 0 for every finite tolerance above it. *)
Theorem CCW_tolerance_monotone :
  forall (p0 p1 p2 : vec2.t) (tol tol' : float),
    valid2 p0 -> valid2 p1 -> valid2 p2 -> valid tol -> valid tol' ->
    fle f0 tol = true -> fle tol tol' = true -> isfinite tol' = true ->
    CCW p0 p1 p2 tol = 0 -> CCW p0 p1 p2 tol' = 0.
Proof.
  intros p0 p1 p2 tol tol' V0 V1 V2 Vt Vt' Pt Htt Ft' H.
  pose proof (CCW_base2_valid p0 p1 p2 V0 V1 V2) as Vb.
  unfold CCW in *. unfold CCW_base2 in Vb.
  set (area := fsub _ _) in *. set (b := max _ _) in *.
  destruct (fle (fmul area area) (fmul (fmul b tol) tol)) eqn:E.
  - destruct (fle_num _ _ E) as [_ N].
    destruct (fmul_num _ _ N) as [Nbt _]. destruct (fmul_num _ _ Nbt) as [Nb _].
    assert (Pb : fle f0 b = true).
    { apply fle_zero_signed. apply (CCW_base2_signed p0 p1 p2). exact Nb. }
    pose proof (bound_mono b tol tol' Vb Vt Vt' Pb Pt Htt Ft' N) as M.
    rewrite (fle_trans _ _ _ E M). reflexivity.
  - destruct (fgt area f0); discriminate.
Qed.

Lemma CCW_tolerance_monotone_witness : CCW p00 p10 p20 f1 = 0.
Proof.
  apply (CCW_tolerance_monotone p00 p10 p20 kTolerance f1);
    try reflexivity; split; reflexivity.
Defined.

(** ** Transform by a scaling *)

Section ScalingFacts.

Lemma row_scaling_x (x y z s : float) :
  isfinite y = true -> isfinite z = true ->
  fequiv (row s f0 f0 f0 (vec4.mk x y z f1)) (fmul x s).
Proof.
  intros Fy Fz. unfold row. cbn [vec4.x vec4.y vec4.z vec4.w].
  destruct (fmul_f0_l y Fy) as [s1 ->]. destruct (fmul_f0_l z Fz) as [s2 ->].
  change (fmul f0 f1) with f0. rewrite (fmul_comm s x).
  eapply fequiv_trans; [apply fadd_zero_r|].
  eapply fequiv_trans; [apply fadd_zero_r|apply fadd_zero_r].
Qed.

Lemma row_scaling_y (x y z s : float) :
  isfinite x = true -> isfinite z = true ->
  fequiv (row f0 s f0 f0 (vec4.mk x y z f1)) (fmul y s).
Proof.
  intros Fx Fz. unfold row. cbn [vec4.x vec4.y vec4.z vec4.w].
  destruct (fmul_f0_l x Fx) as [s1 ->]. destruct (fmul_f0_l z Fz) as [s2 ->].
  change (fmul f0 f1) with f0. rewrite (fmul_comm s y).
  eapply fequiv_trans; [apply fadd_zero_r|].
  eapply fequiv_trans; [apply fadd_zero_r|apply fadd_zero_l].
Qed.

Lemma row_scaling_z (x y z s : float) :
  isfinite x = true -> isfinite y = true ->
  fequiv (row f0 f0 s f0 (vec4.mk x y z f1)) (fmul z s).
Proof.
  intros Fx Fy. unfold row. cbn [vec4.x vec4.y vec4.z vec4.w].
  destruct (fmul_f0_l x Fx) as [s1 ->]. destruct (fmul_f0_l y Fy) as [s2 ->].
  change (fmul f0 f1) with f0. rewrite (fmul_comm s z).
  assert (E : exists s0, fadd (S754_zero s1) (S754_zero s2) = S754_zero s0)
    by (destruct s1, s2; eexists; reflexivity).
  destruct E as [s0 ->].
  eapply fequiv_trans; [apply fadd_zero_r|apply fadd_zero_l].
Qed.

(** [min] and [max] do not tell numbers apart that [==] does not. *)
Lemma min_max_fequiv (A B a b : float) :
  fequiv A a -> fequiv B b -> num a -> num b ->
  feq (min A B) (min a b) = true /\ feq (max A B) (max a b) = true.
Proof.
  intros QA QB Na Nb.
  pose proof (fequiv_feq _ _ (fequiv_sym _ _ QA) Na) as EA.
  pose proof (fequiv_feq _ _ (fequiv_sym _ _ QB) Nb) as EB.
  unfold min, max.
  destruct (flt B A) eqn:E1, (flt A B) eqn:E2, (flt b a) eqn:E3,
    (flt a b) eqn:E4; split; forder.
Qed.

End ScalingFacts.

(** X29: [Transform] by a matrix that scales along the axes equals,
    under [==], the box spanned by the two scaled corners, for a finite
    box and a finite scale of either sign; for a box with [min <= max]
    and a scale with components [>= 0] it equals [operator*]. *)
Theorem Transform_scaling :
  forall (b : Box.t) (s : vec3.t),
    valid_box b -> valid3 s ->
    Box.isFinite b = true -> all_isfinite3 s = true ->
    box_eq (Box.Transform b (scaling s))
           (Box.of_points (mul3 (Box.min b) s) (mul3 (Box.max b) s)) = true
    /\ (ordered b -> le3 (splat f0) s ->
        box_eq (Box.Transform b (scaling s)) (Box.mul b s) = true).
Proof.
  intros [[lx ly lz] [hx hy hz]] [sx sy sz]
    [(V1 & V2 & V3) (V4 & V5 & V6)] (S1 & S2 & S3) F Fs.
  unfold Box.isFinite, all_isfinite3 in F, Fs. simpl in *.
  repeat match goal with
  | H : andb _ _ = true |- _ => apply andb_true_iff in H; destruct H
  end.
  assert (Nlx : num (fmul lx sx)) by (apply fmul_finite_num; assumption).
  assert (Nly : num (fmul ly sy)) by (apply fmul_finite_num; assumption).
  assert (Nlz : num (fmul lz sz)) by (apply fmul_finite_num; assumption).
  assert (Nhx : num (fmul hx sx)) by (apply fmul_finite_num; assumption).
  assert (Nhy : num (fmul hy sy)) by (apply fmul_finite_num; assumption).
  assert (Nhz : num (fmul hz sz)) by (apply fmul_finite_num; assumption).
  pose proof (row_scaling_x lx ly lz sx ltac:(assumption) ltac:(assumption)) as RLx.
  pose proof (row_scaling_x hx hy hz sx ltac:(assumption) ltac:(assumption)) as RHx.
  pose proof (row_scaling_y lx ly lz sy ltac:(assumption) ltac:(assumption)) as RLy.
  pose proof (row_scaling_y hx hy hz sy ltac:(assumption) ltac:(assumption)) as RHy.
  pose proof (row_scaling_z lx ly lz sz ltac:(assumption) ltac:(assumption)) as RLz.
  pose proof (row_scaling_z hx hy hz sz ltac:(assumption) ltac:(assumption)) as RHz.
  split.
  - destruct (min_max_fequiv _ _ _ _ RLx RHx Nlx Nhx) as [X1 X2].
    destruct (min_max_fequiv _ _ _ _ RLy RHy Nly Nhy) as [Y1 Y2].
    destruct (min_max_fequiv _ _ _ _ RLz RHz Nlz Nhz) as [Z1 Z2].
    unfold box_eq, eq3, Box.Transform, Box.of_points, scaling, mul_mat4x3_vec4,
      vec4_of, min3, max3, mul3, zip3.
    cbn [Box.min Box.max vec3.x vec3.y vec3.z].
    rewrite X1, X2, Y1, Y2, Z1, Z2. reflexivity.
  - intros (O1 & O2 & O3) (P1 & P2 & P3). simpl in *.
    assert (Lx : fle (fmul lx sx) (fmul hx sx) = true)
      by (apply fmul_mono; assumption).
    assert (Ly : fle (fmul ly sy) (fmul hy sy) = true)
      by (apply fmul_mono; assumption).
    assert (Lz : fle (fmul lz sz) (fmul hz sz) = true)
      by (apply fmul_mono; assumption).
    destruct (min_max_in_order _ _ _ _ RLx RHx Lx) as [X1 X2].
    destruct (min_max_in_order _ _ _ _ RLy RHy Ly) as [Y1 Y2].
    destruct (min_max_in_order _ _ _ _ RLz RHz Lz) as [Z1 Z2].
    unfold box_eq, eq3, Box.Transform, Box.mul, scaling, mul_mat4x3_vec4,
      vec4_of, min3, max3, mul3, zip3.
    cbn [Box.min Box.max vec3.x vec3.y vec3.z].
    rewrite X1, X2, Y1, Y2, Z1, Z2. reflexivity.
Qed.

Lemma Transform_scaling_witness :
  box_eq (Box.Transform far_box (scaling (splat fm1)))
         (Box.of_points (mul3 (Box.min far_box) (splat fm1))
                        (mul3 (Box.max far_box) (splat fm1))) = true
  /\ box_eq (Box.Transform far_box (scaling (splat f2)))
            (Box.mul far_box (splat f2)) = true.
Proof.
  split.
  - apply (proj1 (Transform_scaling far_box (splat fm1)
                    ltac:(repeat split) ltac:(repeat split) eq_refl eq_refl)).
  - apply (proj2 (Transform_scaling far_box (splat f2)
                    ltac:(repeat split) ltac:(repeat split) eq_refl eq_refl));
      repeat split.
Defined.

(** ** The range reduction of sind *)

Section Reduction.

Lemma div_nearest_even_rem (a b : Z) :
  0 <= a -> 0 < b ->
  - b <= 2 * (a - div_nearest_even a b * b) <= b.
Proof.
  intros Ha Hb. unfold div_nearest_even.
  pose proof (Z.quot_rem a b ltac:(lia)) as E.
  pose proof (Z.rem_bound_pos a b Ha Hb) as R.
  set (q := Z.quot a b) in *.
  assert (Er : a - q * b = Z.rem a b) by lia.
  rewrite Er.
  destruct (Z.compare_spec (2 * Z.rem a b) b) as [C|C|C]; [|lia|lia].
  destruct (Z.even q); lia.
Qed.

(** [remquo] by 90 leaves a remainder of at most 45 in magnitude. *)
Lemma remquo_90_range (x : float) :
  valid x -> isfinite x = true -> within_45 (fst (remquo (fabs x) f90)).
Proof.
  intros V F. destruct x as [s|s| |s m e]; try discriminate.
  - split; reflexivity.
  - destruct (valid_finite _ _ _ V) as (_ & R & _).
    unfold f90. cbn [fabs SFabs remquo fst].
    set (e0 := Z.min e (-17)).
    assert (H0 : -149 <= e0 <= e /\ e0 <= -17) by (unfold e0; lia).
    pose proof (pow2_pos (e0 + 149) ltac:(lia)) as P0.
    pose proof (pow2_pos (e - e0) ltac:(lia)) as P1.
    pose proof (pow2_pos (-17 - e0) ltac:(lia)) as P2.
    set (X := Z.pos m * 2 ^ (e - e0)). set (Y := 11796480 * 2 ^ (-17 - e0)).
    assert (HY : Y * 2 ^ (e0 + 149) = 90 * 2 ^ 149).
    { unfold Y. rewrite <- Z.mul_assoc, <- Z.pow_add_r by lia.
      replace (-17 - e0 + (e0 + 149)) with 132 by lia. reflexivity. }
    assert (Xp : 0 <= X) by (unfold X; lia).
    assert (Yp : 0 < Y) by (unfold Y; lia).
    pose proof (div_nearest_even_rem X Y Xp Yp) as B.
    set (r := X - div_nearest_even X Y * Y) in *.
    change (cond_Zopp false r) with r.
    change (binary_normalize prec emax r e0 false) with (BN r e0).
    unfold within_45.
    change (fneg f45) with (BN (-45) 0). change f45 with (BN 45 0).
    assert (U : - (45 * 2 ^ 149) <= r * 2 ^ (e0 + 149) <= 45 * 2 ^ 149).
    { assert (2 * (r * 2 ^ (e0 + 149)) <= Y * 2 ^ (e0 + 149)) by nia.
      assert (- (Y * 2 ^ (e0 + 149)) <= 2 * (r * 2 ^ (e0 + 149))) by nia.
      lia. }
    split; apply BN_mono; try lia; change (2 ^ (0 + 149)) with (2 ^ 149); lia.
Qed.

End Reduction.

(** X30: [sind] of a finite angle reads the library sine and cosine
    only at the radians of angles within 45 degrees of zero: two pairs of
    library functions that agree there give the same [sind]. *)
Theorem sind_octant :
  forall (fsin fcos gsin gcos : float -> float) (x : float),
    valid x -> isfinite x = true ->
    (forall a, within_45 a ->
       fsin (radians a) = gsin (radians a)
       /\ fcos (radians a) = gcos (radians a)) ->
    sind fsin fcos x = sind gsin gcos x.
Proof.
  intros fsin fcos gsin gcos x V F H.
  assert (R : forall y, valid y -> isfinite y = true ->
                sind_reduced fsin fcos y = sind_reduced gsin gcos y).
  { intros y Vy Fy. unfold sind_reduced.
    pose proof (remquo_90_range y Vy Fy) as W.
    destruct (remquo (fabs y) f90) as [x' quo]. simpl in W.
    destruct (H x' W) as [Es Ec]. rewrite Es, Ec. reflexivity. }
  unfold sind. rewrite F. simpl negb. cbv iota.
  destruct (flt x f0).
  - f_equal. apply R; [apply fneg_valid, V|].
    rewrite isfinite_fneg. exact F.
  - apply R; assumption.
Qed.

Lemma sind_octant_witness :
  sind sample_sin sample_cos f90 = sind sample_sin_num sample_cos f90.
Proof.
  apply (sind_octant sample_sin sample_cos sample_sin_num sample_cos f90);
    try reflexivity.
  intros a [L U]. split; [|reflexivity]. unfold sample_sin, sample_sin_num.
  assert (Fa : isfinite a = true)
    by (apply (isfinite_between (fneg f45) a f45); try assumption; reflexivity).
  assert (N : num (radians a))
    by (apply fmul_finite_num; [exact Fa|reflexivity]).
  unfold num in N. rewrite N. reflexivity.
Defined.
